(** * fdmonbench: file-descriptor monitoring benchmark

    A shallow embedding of the engines ([select.c], [poll.c], [epoll.c],
    [io_uring.c], the thread-per-descriptor engine), of the I/O generator
    ([iogen.c]) and of the coordinator ([main]), followed by the properties
    of the specification that the code meets or misses.

    C [int], [size_t] and [ssize_t] values are modelled as [Z]; heap
    blocks, descriptors and threads live in an explicit [world] that every
    operation threads through; calls that can block for ever ([sem_wait],
    [pthread_join]) have the outcome [Hang]. *)

From stdpp Require Import gmap strings list fin_maps.
From Stdlib Require Import ZArith Lia.

Local Open Scope Z_scope.

(** ** Constants of the platform headers *)

Definition O_NONBLOCK : Z := 2048.      (* 04000 *)
Definition O_RDWR : Z := 2.
Definition FD_SETSIZE : Z := 1024.
Definition EINTR : Z := 4.
Definition EINVAL : Z := 22.
Definition POLLIN : Z := 1.
Definition EPOLLIN : Z := 1.
Definition EPOLLEXCLUSIVE : Z := 268435456.   (* 1u << 28 *)
Definition SIZEOF_UINT64 : Z := 8.
Definition EXIT_SUCCESS : Z := 0.
Definition EXIT_FAILURE : Z := 1.
Definition RAND_MAX : Z := 2147483647.

(** ** The world: heap, descriptor table, threads, effect trace *)

Definition block := nat.
Definition tid := nat.

Record pollfd := Pollfd { pfd_fd : Z; pfd_events : Z; pfd_revents : Z }.

(** What a heap block holds.  Engine structures are blocks too; their
    fields are carried by the handle records below. *)
Inductive blockval :=
| VStruct
| VBytes (bs : list Z)
| VInts (xs : list Z)
| VPollfds (ps : list pollfd)
| VTids (ts : list tid).

(** A worker thread: the control descriptor its loop watches ([None] for a
    loop with no exit) and whether it has been asked to stop, by a write to
    that descriptor or by [pthread_cancel]. *)
Record thread := Thread { th_ctl : option Z; th_stop : bool }.

Inductive event :=
| EvMalloc (b : block)
| EvFree (b : block)
| EvOpen (fd : Z)
| EvClose (fd : Z)
| EvSetFl (fd : Z) (flags : Z)
| EvEpollAdd (epfd fd : Z) (events : Z)
| EvRingInit (b : block)
| EvRingExit (b : block)
| EvPollSqe (fd : Z) (mask : Z)
| EvSubmit
| EvSemInit (b : block)
| EvSemDestroy (b : block)
| EvSemWait (ret errno : Z)
| EvSemPost
| EvSpawn (t : tid)
| EvCancel (t : tid)
| EvJoin (t : tid)
| EvWait (n : Z)
| EvRead (fd : Z) (len : Z) (ret : Z)
| EvWrite (fd : Z) (bytes : list Z)
| EvCtlWrite (fd : Z) (val : Z)
| EvRandom (r : Z)
| EvStderr (msg : string)
| EvStats (num_ios : Z).

Record world := World {
  heap : gmap block blockval;
  fdflags : gmap Z Z;
  threads : gmap tid thread;
  trace : list event
}.

Definition empty_world : world := World ∅ ∅ ∅ [].

Definition set_heap (h : gmap block blockval) (w : world) : world :=
  World h (fdflags w) (threads w) (trace w).
Definition set_fdflags (f : gmap Z Z) (w : world) : world :=
  World (heap w) f (threads w) (trace w).
Definition set_threads (t : gmap tid thread) (w : world) : world :=
  World (heap w) (fdflags w) t (trace w).
Definition log (e : event) (w : world) : world :=
  World (heap w) (fdflags w) (threads w) (trace w ++ [e]).

(** The events a computation added when it took [w] to [w']. *)
Definition emitted (w w' : world) : list event :=
  drop (length (trace w)) (trace w').

(** ** Computations: return in a new world, block for ever, or run into
    undefined behaviour *)

Inductive outcome (A : Type) :=
| Ret (a : A) (w : world)
| Hang (w : world)
| Undefined (w : world).
Arguments Ret {A} a w.
Arguments Hang {A} w.
Arguments Undefined {A} w.

Definition M (A : Type) : Type := world → outcome A.

Definition ret {A} (a : A) : M A := fun w => Ret a w.
Definition hang {A} : M A := fun w => Hang w.
Definition undefined {A} : M A := fun w => Undefined w.
Definition bind {A B} (m : M A) (k : A → M B) : M B :=
  fun w => match m w with
           | Ret a w' => k a w'
           | Hang w' => Hang w'
           | Undefined w' => Undefined w'
           end.

Notation "'do' x <- m ; k" := (bind m (fun x => k))
  (at level 10, x name, m at level 100, k at level 200).
Notation "m ;; k" := (bind m (fun _ => k))
  (at level 100, k at level 200, right associativity).

Definition final_world {A} (o : outcome A) : world :=
  match o with Ret _ w => w | Hang w => w | Undefined w => w end.

Definition returned {A} (o : outcome A) : option A :=
  match o with Ret a _ => Some a | _ => None end.

Definition emit (e : event) : M unit := fun w => Ret tt (log e w).

(** *** Heap *)

(** [malloc]/[calloc]: on success a block that is not in use. *)
Definition malloc (ok : bool) (init : blockval) : M (option block) :=
  fun w =>
    if ok then
      let b := fresh (dom (heap w)) in
      Ret (Some b) (log (EvMalloc b) (set_heap (<[b := init]> (heap w)) w))
    else Ret None w.

Definition free (b : block) : M unit :=
  fun w => Ret tt (log (EvFree b) (set_heap (delete b (heap w)) w)).

Definition ints_of (v : option blockval) : list Z :=
  match v with Some (VInts xs) => xs | _ => [] end.
Definition pollfds_of (v : option blockval) : list pollfd :=
  match v with Some (VPollfds ps) => ps | _ => [] end.
Definition tids_of (v : option blockval) : list tid :=
  match v with Some (VTids ts) => ts | _ => [] end.

(** [p[i]] for an [int *p]. *)
Definition load_int (p : block) (i : nat) : M Z :=
  fun w => Ret (default 0 (ints_of (heap w !! p) !! i)) w.

(** The first [n] ints at [p]. *)
Definition load_ints (p : block) (n : nat) : M (list Z) :=
  fun w => Ret (take n (ints_of (heap w !! p))) w.

(** [p[i] = v]. *)
Definition store_int (p : block) (i : nat) (v : Z) : M unit :=
  fun w => Ret tt (set_heap (alter (fun bv => VInts (<[i := v]> (ints_of (Some bv)))) p (heap w)) w).

(** [memcpy(&p[off], src, n * sizeof(int))] with [src] already loaded. *)
Fixpoint store_ints (p : block) (off : nat) (vs : list Z) : M unit :=
  match vs with
  | [] => ret tt
  | v :: vs' => store_int p off v ;; store_ints p (S off) vs'
  end.

Definition store_pollfd (p : block) (i : nat) (v : pollfd) : M unit :=
  fun w => Ret tt (set_heap (alter (fun bv => VPollfds (<[i := v]> (pollfds_of (Some bv)))) p (heap w)) w).

Definition load_pollfd (p : block) (i : nat) : M pollfd :=
  fun w => Ret (default (Pollfd 0 0 0) (pollfds_of (heap w !! p) !! i)) w.

Definition store_tid (p : block) (i : nat) (t : tid) : M unit :=
  fun w => Ret tt (set_heap (alter (fun bv => VTids (<[i := t]> (tids_of (Some bv)))) p (heap w)) w).

Definition load_tid (p : block) (i : nat) : M tid :=
  fun w => Ret (default 0%nat (tids_of (heap w !! p) !! i)) w.

(** *** Descriptors *)

(** A system call that creates a descriptor: on success some descriptor
    number that is not open, with the given status flags; [-1] on failure. *)
Definition open_fd (ok : bool) (flags : Z) : M Z :=
  fun w =>
    if ok then
      let fd := fresh (dom (fdflags w)) in
      Ret fd (log (EvOpen fd) (set_fdflags (<[fd := flags]> (fdflags w)) w))
    else Ret (-1) w.

Definition close (fd : Z) : M unit :=
  fun w => Ret tt (log (EvClose fd) (set_fdflags (delete fd (fdflags w)) w)).

(** [fcntl(fd, F_GETFL, 0)]: [-1] on a descriptor that is not open. *)
Definition fcntl_getfl (fd : Z) : M Z :=
  fun w => Ret (default (-1) (fdflags w !! fd)) w.

(** [fcntl(fd, F_SETFL, flags)]: no effect on a descriptor that is not open. *)
Definition fcntl_setfl (fd : Z) (flags : Z) : M unit :=
  fun w => Ret tt (log (EvSetFl fd flags) (set_fdflags (alter (fun _ => flags) fd (fdflags w)) w)).

(** [write(fd, &eventfd_val, sizeof(eventfd_val))] on a control descriptor.
    The threads of the world stand for workers that watch their control
    descriptor: a write marks every thread recorded with [fd] as asked to
    stop.  That a worker which reads the counter leaves its loop is shown
    for the thread functions themselves; that the descriptor has reached
    the worker's wait primitive is taken for granted here. *)
Definition request_stop (fd : Z) (th : thread) : thread :=
  if decide (th_ctl th = Some fd) then Thread (th_ctl th) true else th.

Definition write_ctl (fd : Z) (val : Z) : M unit :=
  fun w => Ret tt (log (EvCtlWrite fd val) (set_threads (request_stop fd <$> threads w) w)).

(** *** Threads and the start-up semaphore *)

Definition sem_init (ok : bool) (b : block) : M Z :=
  fun w => if ok then Ret 0 (log (EvSemInit b) w) else Ret (-1) w.

Definition sem_destroy (b : block) : M unit := emit (EvSemDestroy b).

(** [pthread_create]: on success a new thread running a worker loop that
    watches the control descriptor [ctl]. *)
Definition pthread_create (ok : bool) (ctl : option Z) : M (option tid) :=
  fun w =>
    if ok then
      let t := fresh (dom (threads w)) in
      Ret (Some t) (log (EvSpawn t) (set_threads (<[t := Thread ctl false]> (threads w)) w))
    else Ret None w.

Definition pthread_cancel (t : tid) : M unit :=
  fun w => Ret tt (log (EvCancel t)
                     (set_threads (alter (fun th => Thread (th_ctl th) true) t (threads w)) w)).

(** [pthread_join] returns once the thread has terminated.  A worker
    terminates only after it was asked to stop; joining one that was not
    blocks the caller for ever. *)
Definition pthread_join (t : tid) : M unit :=
  fun w =>
    match threads w !! t with
    | Some th =>
        if th_stop th
        then Ret tt (log (EvJoin t) (set_threads (delete t (threads w)) w))
        else Hang (log (EvJoin t) w)
    | None => Ret tt (log (EvJoin t) w)
    end.

(** The handshake of [create]:
    [do { ret = sem_wait(&sem); } while (ret == -1 && errno == EINTR);]
    The list gives the (return value, errno) of the successive calls; when
    it runs out the semaphore is never posted again and the caller stays
    blocked. *)
Fixpoint sem_wait_loop (rs : list (Z * Z)) : M Z :=
  match rs with
  | [] => hang
  | (r, e) :: rs' =>
      emit (EvSemWait r e) ;;
      if (r =? -1) && (e =? EINTR) then sem_wait_loop rs' else ret r
  end.

(** *** Reading and writing a channel *)

Definition bytes_of (v : option blockval) : list Z :=
  match v with Some (VBytes bs) => bs | _ => [] end.

(** What one [read(fd, buf, len)] delivers: [None] is a failure ([-1]),
    [Some bs] the bytes [bs], of which at most [len] are taken. *)
Definition read_ret (len : Z) (r : option (list Z)) : Z :=
  match r with
  | None => -1
  | Some bs => Z.of_nat (length (take (Z.to_nat len) bs))
  end.

Definition read_into (buf : list Z) (len : Z) (r : option (list Z)) : list Z :=
  match r with
  | None => buf
  | Some bs => let got := take (Z.to_nat len) bs in got ++ drop (length got) buf
  end.

(** [read(fd, buf, len)] into a heap buffer. *)
Definition sys_read (fd : Z) (buf : block) (len : Z) (r : option (list Z)) : M Z :=
  fun w =>
    Ret (read_ret len r)
        (log (EvRead fd len (read_ret len r))
           (set_heap (alter (fun bv => VBytes (read_into (bytes_of (Some bv)) len r))
                        buf (heap w)) w)).

(** [read(fd, &eventfd_val, sizeof(eventfd_val))] into a local. *)
Definition read_ctl (fd : Z) (r : option (list Z)) : M Z :=
  emit (EvRead fd SIZEOF_UINT64 (read_ret SIZEOF_UINT64 r)) ;;
  ret (read_ret SIZEOF_UINT64 r).

(** [write(fd, buf, len)]; the event records the bytes handed over. *)
Definition sys_write (fd : Z) (buf : block) (len : Z) : M unit :=
  fun w => Ret tt (log (EvWrite fd (take (Z.to_nat len) (bytes_of (heap w !! buf)))) w).

(** One return of a worker's wait primitive: its return value, which
    descriptors it reports readable, and what the [read] issued at each
    position of the following scan delivers. *)
Record wakeup := Wakeup {
  wk_ret : Z;
  wk_ready : Z → bool;
  wk_events : list Z;
  wk_read : nat → option (list Z)
}.

(** ** Configuration and the environment of a [create] call *)

Inductive backend := Select | Poll | Epoll | IoUring | Threads.

(** [struct options]; the [engine_ops] pointer is the [backend] tag. *)
Record options := Options {
  engine : backend;
  num_engines : Z;
  num_fds : Z;
  msg_size : Z;
  exclusive : bool;
  duration_secs : Z
}.

(** How the fallible calls of one [create] behave.  Allocations are
    numbered in program order (0: the engine structure, 1: the message
    buffer, 2: the array); thread-related calls by worker index. *)
Record oracle := Oracle {
  alloc_ok : nat → bool;
  eventfd_ok : bool;
  epoll_create1_ok : bool;
  epoll_ctl_ret : Z → Z;
  queue_init_ok : bool;
  submit_ok : bool;
  sem_init_ok : bool;
  pthread_create_ok : nat → bool;
  sem_waits : nat → list (Z * Z)
}.

(** Everything succeeds; the handshake is satisfied at the first call. *)
Definition all_ok : oracle :=
  Oracle (fun _ => true) true true (fun _ => 0) true true true (fun _ => true)
         (fun _ => [(0, 0)]).

Inductive create_result (E : Type) :=
| Created (e : E)
| Failed (errmsg : string).
Arguments Created {E} e.
Arguments Failed {E} errmsg.

Definition is_created {E} (r : create_result E) : bool :=
  match r with Created _ => true | Failed _ => false end.

(** ** select.c *)

Module SelectEngine.

Record select_engine := SE {
  se_block : block;
  thread : tid;
  msgbuf : block;
  se_msg_size : Z;
  fds : block;
  se_num_fds : Z
}.

(** The scan after [select] returned, from index [i] for [n] entries;
    [true] when the thread returns. *)
Fixpoint select_scan (se : select_engine) (wk : wakeup) (i n : nat) (r : Z) : M bool :=
  match n with
  | O => ret false
  | S n' =>
      if negb (0 <? r) then ret false
      else
        do fd <- load_int (fds se) i;
        if negb (wk_ready wk fd) then select_scan se wk (S i) n' r
        else if (i =? 0)%nat then
          do got <- read_ctl fd (wk_read wk i);
          if negb (got =? SIZEOF_UINT64) then select_scan se wk (S i) n' r
          else ret true
        else
          do got <- sys_read fd (msgbuf se) (se_msg_size se) (wk_read wk i);
          if got <=? 0 then select_scan se wk (S i) n' r
          else
            sys_write fd (msgbuf se) (se_msg_size se) ;;
            select_scan se wk (S i) n' (r - 1)
  end.

(** [for (;;) { FD_ZERO; FD_SET...; ret = select(...); scan }]: one
    iteration per wake-up; with none left the thread stays in [select]. *)
Fixpoint select_loop (se : select_engine) (nfds : Z) (wks : list wakeup) : M unit :=
  match wks with
  | [] => emit (EvWait nfds) ;; hang
  | wk :: wks' =>
      emit (EvWait nfds) ;;
      do stop <- select_scan se wk 0 (Z.to_nat (se_num_fds se)) (wk_ret wk);
      if stop then ret tt else select_loop se nfds wks'
  end.

Definition select_thread (se : select_engine) (wks : list wakeup) : M unit :=
  do all <- load_ints (fds se) (Z.to_nat (se_num_fds se));
  let nfds := foldl (fun nfds fd => if nfds <? fd + 1 then fd + 1 else nfds) 0 all in
  emit EvSemPost ;;
  select_loop se nfds wks.

(** The unwind labels of [select_create], each falling into the next. *)
Definition err_free_se (se : block) (err : string) : M (create_result select_engine) :=
  free se ;; ret (Failed err).
Definition err_free_msgbuf (se mb : block) (err : string) :=
  free mb ;; err_free_se se err.
Definition err_free_fds (se mb fa : block) (err : string) :=
  free fa ;; err_free_msgbuf se mb err.
Definition err_close_eventfd (se mb fa : block) (efd : Z) (err : string) :=
  close efd ;; err_free_fds se mb fa err.
Definition err_sem_destroy (se mb fa : block) (efd : Z) (err : string) :=
  sem_destroy se ;; err_close_eventfd se mb fa efd err.
Definition err_pthread_join (se mb fa : block) (efd : Z) (t : tid) (err : string) :=
  pthread_join t ;; err_sem_destroy se mb fa efd err.

Definition select_create (o : oracle) (opts : options) (fdsp : block)
  : M (create_result select_engine) :=
  if exclusive opts then ret (Failed "select engine does not support exclusive=1")
  else
    do data <- load_ints fdsp (Z.to_nat (num_fds opts));
    if existsb (fun fd => FD_SETSIZE <=? fd) data
    then ret (Failed "Maximum number of fds exceeded for select engine")
    else
      do se <- malloc (alloc_ok o 0) VStruct;
      match se with
      | None => ret (Failed "Out of memory")
      | Some se =>
        do mb <- malloc (alloc_ok o 1) (VBytes (replicate (Z.to_nat (msg_size opts)) 0));
        match mb with
        | None => err_free_se se "Out of memory"
        | Some mb =>
          do fa <- malloc (alloc_ok o 2) (VInts (replicate (Z.to_nat (num_fds opts + 1)) 0));
          match fa with
          | None => err_free_msgbuf se mb "Out of memory"
          | Some fa =>
            do src <- load_ints fdsp (Z.to_nat (num_fds opts));
            store_ints fa 1 src ;;
            do efd <- open_fd (eventfd_ok o) (Z.lor O_RDWR O_NONBLOCK);
            store_int fa 0 efd ;;
            if efd <? 0 then err_free_fds se mb fa "Eventfd creation failed"
            else if FD_SETSIZE <=? efd
            then err_close_eventfd se mb fa efd "Maximum number of fds exceeded by eventfd"
            else
              do r <- sem_init (sem_init_ok o) se;
              if r <? 0
              then err_close_eventfd se mb fa efd "Failed to create startup semaphore"
              else
                do t <- pthread_create (pthread_create_ok o 0) (Some efd);
                match t with
                | None => err_sem_destroy se mb fa efd "pthread_create failed"
                | Some t =>
                  do r <- sem_wait_loop (sem_waits o 0);
                  if r <? 0
                  then err_pthread_join se mb fa efd t "sem_wait failed"
                  else ret (Created (SE se t mb (msg_size opts) fa (num_fds opts + 1)))
                end
          end
        end
      end.

Definition select_destroy (se : select_engine) : M unit :=
  do efd <- load_int (fds se) 0;
  write_ctl efd 1 ;;
  pthread_join (thread se) ;;
  sem_destroy (se_block se) ;;
  do efd' <- load_int (fds se) 0;
  close efd' ;;
  free (fds se) ;;
  free (msgbuf se) ;;
  free (se_block se).

End SelectEngine.

(** ** poll.c *)

Module PollEngine.

Record poll_engine := PE {
  pe_block : block;
  thread : tid;
  msgbuf : block;
  pe_msg_size : Z;
  pollfds : block;
  pe_num_fds : Z
}.

(** The scan after [poll] returned; the kernel has filled in [revents]. *)
Fixpoint poll_scan (pe : poll_engine) (wk : wakeup) (i n : nat) (r : Z) : M bool :=
  match n with
  | O => ret false
  | S n' =>
      if negb (0 <? r) then ret false
      else
        do pfd <- load_pollfd (pollfds pe) i;
        let fd := pfd_fd pfd in
        if Z.land (pfd_revents pfd) POLLIN =? 0 then poll_scan pe wk (S i) n' r
        else if (i =? 0)%nat then
          do got <- read_ctl fd (wk_read wk i);
          if negb (got =? SIZEOF_UINT64) then poll_scan pe wk (S i) n' r
          else ret true
        else
          do got <- sys_read fd (msgbuf pe) (pe_msg_size pe) (wk_read wk i);
          if got <=? 0 then poll_scan pe wk (S i) n' r
          else
            sys_write fd (msgbuf pe) (pe_msg_size pe) ;;
            poll_scan pe wk (S i) n' (r - 1)
  end.

(** [poll] stores in every entry's [revents] what it found. *)
Fixpoint set_revents (pa : block) (wk : wakeup) (i n : nat) : M unit :=
  match n with
  | O => ret tt
  | S n' =>
      do pfd <- load_pollfd pa i;
      store_pollfd pa i
        (Pollfd (pfd_fd pfd) (pfd_events pfd)
           (if wk_ready wk (pfd_fd pfd) then Z.land (pfd_events pfd) POLLIN else 0)) ;;
      set_revents pa wk (S i) n'
  end.

Fixpoint poll_loop (pe : poll_engine) (wks : list wakeup) : M unit :=
  match wks with
  | [] => emit (EvWait (pe_num_fds pe)) ;; hang
  | wk :: wks' =>
      emit (EvWait (pe_num_fds pe)) ;;
      set_revents (pollfds pe) wk 0 (Z.to_nat (pe_num_fds pe)) ;;
      do stop <- poll_scan pe wk 0 (Z.to_nat (pe_num_fds pe)) (wk_ret wk);
      if stop then ret tt else poll_loop pe wks'
  end.

Definition poll_thread (pe : poll_engine) (wks : list wakeup) : M unit :=
  emit EvSemPost ;;
  poll_loop pe wks.

Definition err_free_se (pe : block) (err : string) : M (create_result poll_engine) :=
  free pe ;; ret (Failed err).
Definition err_free_msgbuf (pe mb : block) (err : string) :=
  free mb ;; err_free_se pe err.
Definition err_free_pollfds (pe mb pa : block) (err : string) :=
  free pa ;; err_free_msgbuf pe mb err.
Definition err_close_eventfd (pe mb pa : block) (efd : Z) (err : string) :=
  close efd ;; err_free_pollfds pe mb pa err.
Definition err_sem_destroy (pe mb pa : block) (efd : Z) (err : string) :=
  sem_destroy pe ;; err_close_eventfd pe mb pa efd err.
Definition err_pthread_join (pe mb pa : block) (efd : Z) (t : tid) (err : string) :=
  pthread_join t ;; err_sem_destroy pe mb pa efd err.

(** [for (i = 0; i < num_fds; i++) { pfd = &pollfds[i + 1]; pfd->fd = fds[i];
    pfd->events = POLLIN; }] *)
Fixpoint register_fds (pa fdsp : block) (i n : nat) : M unit :=
  match n with
  | O => ret tt
  | S n' =>
      do fd <- load_int fdsp i;
      do old <- load_pollfd pa (S i);
      store_pollfd pa (S i) (Pollfd fd POLLIN (pfd_revents old)) ;;
      register_fds pa fdsp (S i) n'
  end.

Definition poll_create (o : oracle) (opts : options) (fdsp : block)
  : M (create_result poll_engine) :=
  do pe <- malloc (alloc_ok o 0) VStruct;
  match pe with
  | None => ret (Failed "Out of memory")
  | Some pe =>
    do mb <- malloc (alloc_ok o 1) (VBytes (replicate (Z.to_nat (msg_size opts)) 0));
    match mb with
    | None => err_free_se pe "Out of memory"
    | Some mb =>
      do pa <- malloc (alloc_ok o 2)
                 (VPollfds (replicate (Z.to_nat (num_fds opts + 1)) (Pollfd 0 0 0)));
      match pa with
      | None => err_free_msgbuf pe mb "Out of memory"
      | Some pa =>
        register_fds pa fdsp 0 (Z.to_nat (num_fds opts)) ;;
        do efd <- open_fd (eventfd_ok o) (Z.lor O_RDWR O_NONBLOCK);
        do old <- load_pollfd pa 0;
        store_pollfd pa 0 (Pollfd efd (pfd_events old) (pfd_revents old)) ;;
        if efd <? 0 then err_free_pollfds pe mb pa "Eventfd creation failed"
        else
          store_pollfd pa 0 (Pollfd efd POLLIN (pfd_revents old)) ;;
          do r <- sem_init (sem_init_ok o) pe;
          if r <? 0
          then err_close_eventfd pe mb pa efd "Failed to create startup semaphore"
          else
            do t <- pthread_create (pthread_create_ok o 0) (Some efd);
            match t with
            | None => err_sem_destroy pe mb pa efd "pthread_create failed"
            | Some t =>
              do r <- sem_wait_loop (sem_waits o 0);
              if r <? 0
              then err_pthread_join pe mb pa efd t "sem_wait failed"
              else ret (Created (PE pe t mb (msg_size opts) pa (num_fds opts + 1)))
            end
      end
    end
  end.

Definition poll_destroy (pe : poll_engine) : M unit :=
  do p0 <- load_pollfd (pollfds pe) 0;
  write_ctl (pfd_fd p0) 1 ;;
  pthread_join (thread pe) ;;
  sem_destroy (pe_block pe) ;;
  do p0' <- load_pollfd (pollfds pe) 0;
  close (pfd_fd p0') ;;
  free (pollfds pe) ;;
  free (msgbuf pe) ;;
  free (pe_block pe).

End PollEngine.

(** ** epoll.c *)

Module EpollEngine.

Record epoll_engine := EE {
  ee_block : block;
  thread : tid;
  msgbuf : block;
  ee_msg_size : Z;
  efd : Z;
  epfd : Z
}.

Definition maxevents : Z := 2.

(** [for (i = 0; i < ret; i++)] over the returned [events]. *)
Fixpoint epoll_scan (pe : epoll_engine) (wk : wakeup) (i : nat) (evs : list Z) : M bool :=
  match evs with
  | [] => ret false
  | fd :: evs' =>
      if fd =? efd pe then
        do got <- read_ctl fd (wk_read wk i);
        if negb (got =? SIZEOF_UINT64) then epoll_scan pe wk (S i) evs'
        else ret true
      else
        do got <- sys_read fd (msgbuf pe) (ee_msg_size pe) (wk_read wk i);
        if got <=? 0 then epoll_scan pe wk (S i) evs'
        else
          sys_write fd (msgbuf pe) (ee_msg_size pe) ;;
          epoll_scan pe wk (S i) evs'
  end.

Fixpoint epoll_loop (pe : epoll_engine) (wks : list wakeup) : M unit :=
  match wks with
  | [] => emit (EvWait maxevents) ;; hang
  | wk :: wks' =>
      emit (EvWait maxevents) ;;
      do stop <- epoll_scan pe wk 0 (take (Z.to_nat (wk_ret wk)) (wk_events wk));
      if stop then ret tt else epoll_loop pe wks'
  end.

Definition epoll_thread (pe : epoll_engine) (wks : list wakeup) : M unit :=
  emit EvSemPost ;;
  epoll_loop pe wks.

Definition err_free_se (pe : block) (err : string) : M (create_result epoll_engine) :=
  free pe ;; ret (Failed err).
Definition err_free_msgbuf (pe mb : block) (err : string) :=
  free mb ;; err_free_se pe err.
Definition err_close_epfd (pe mb : block) (ep : Z) (err : string) :=
  close ep ;; err_free_msgbuf pe mb err.
Definition err_close_eventfd (pe mb : block) (ep ef : Z) (err : string) :=
  close ef ;; err_close_epfd pe mb ep err.
Definition err_sem_destroy (pe mb : block) (ep ef : Z) (err : string) :=
  sem_destroy pe ;; err_close_eventfd pe mb ep ef err.
Definition err_pthread_join (pe mb : block) (ep ef : Z) (t : tid) (err : string) :=
  pthread_join t ;; err_sem_destroy pe mb ep ef err.

(** [epoll_ctl(epfd, EPOLL_CTL_ADD, fd, &event)] *)
Definition epoll_ctl_add (o : oracle) (ep fd events : Z) : M Z :=
  let r := epoll_ctl_ret o fd in
  if r <? 0 then ret r else emit (EvEpollAdd ep fd events) ;; ret r.

(** The registration loop; [false] when an [epoll_ctl] failed. *)
Fixpoint register_fds (o : oracle) (ep events : Z) (fdsp : block) (i n : nat) : M bool :=
  match n with
  | O => ret true
  | S n' =>
      do fd <- load_int fdsp i;
      do r <- epoll_ctl_add o ep fd events;
      if r <? 0 then ret false else register_fds o ep events fdsp (S i) n'
  end.

Definition epoll_do_create (o : oracle) (opts : options) (fdsp : block)
  : M (create_result epoll_engine) :=
  let event_flags := if exclusive opts then EPOLLEXCLUSIVE else 0 in
  let events := Z.lor EPOLLIN event_flags in
  do pe <- malloc (alloc_ok o 0) VStruct;
  match pe with
  | None => ret (Failed "Out of memory")
  | Some pe =>
    do mb <- malloc (alloc_ok o 1) (VBytes (replicate (Z.to_nat (msg_size opts)) 0));
    match mb with
    | None => err_free_se pe "Out of memory"
    | Some mb =>
      do ep <- open_fd (epoll_create1_ok o) O_RDWR;
      if ep <? 0 then err_free_msgbuf pe mb "epoll_create1 failed"
      else
        do ok <- register_fds o ep events fdsp 0 (Z.to_nat (num_fds opts));
        if negb ok then err_close_epfd pe mb ep "epoll_ctl failed"
        else
          do ef <- open_fd (eventfd_ok o) (Z.lor O_RDWR O_NONBLOCK);
          if ef <? 0 then err_close_epfd pe mb ep "Eventfd creation failed"
          else
            do r <- epoll_ctl_add o ep ef events;
            if r <? 0 then err_close_eventfd pe mb ep ef "epoll_ctl failed"
            else
              do r <- sem_init (sem_init_ok o) pe;
              if r <? 0
              then err_close_eventfd pe mb ep ef "Failed to create startup semaphore"
              else
                do t <- pthread_create (pthread_create_ok o 0) (Some ef);
                match t with
                | None => err_sem_destroy pe mb ep ef "pthread_create failed"
                | Some t =>
                  do r <- sem_wait_loop (sem_waits o 0);
                  if r <? 0
                  then err_pthread_join pe mb ep ef t "sem_wait failed"
                  else ret (Created (EE pe t mb (msg_size opts) ef ep))
                end
    end
  end.

Definition epoll_destroy (pe : epoll_engine) : M unit :=
  write_ctl (efd pe) 1 ;;
  pthread_join (thread pe) ;;
  sem_destroy (ee_block pe) ;;
  close (efd pe) ;;
  close (epfd pe) ;;
  free (msgbuf pe) ;;
  free (ee_block pe).

End EpollEngine.

(** ** io_uring.c *)

Module IoUringEngine.

(** [struct io_uring ring] is part of the engine structure.  Of liburing
    the model keeps what the engine relies on: [io_uring_queue_init] opens
    the ring descriptor, the submission queue has the 64 entries asked
    for, [io_uring_get_sqe] fails when all are pending, [io_uring_submit]
    hands the pending entries to the kernel. *)
Definition SQ_ENTRIES : nat := 64.

Record io_uring_engine := UE {
  ue_block : block;
  thread : tid;
  msgbuf : block;
  ue_msg_size : Z;
  ring_fd : Z;
  efd : Z;
  poll_mask : Z
}.

Definition io_uring_get_sqe (pending : nat) : option nat :=
  if (pending <? SQ_ENTRIES)%nat then Some (S pending) else None.

Definition io_uring_submit (o : oracle) (pending : nat) : M (Z * nat) :=
  if submit_ok o then emit EvSubmit ;; ret (Z.of_nat pending, 0%nat)
  else ret (-1, pending).

Definition io_uring_add_poll_sqe (o : oracle) (mask fd : Z) (pending : nat) : M nat :=
  match io_uring_get_sqe pending with
  | Some p => emit (EvPollSqe fd mask) ;; ret p
  | None =>
      do rp <- io_uring_submit o pending;
      if fst rp <? 0 then emit (EvStderr "io_uring_submit failed") ;; ret (snd rp)
      else match io_uring_get_sqe (snd rp) with
           | None => emit (EvStderr "io_uring_get_sqe failed") ;; ret (snd rp)
           | Some p => emit (EvPollSqe fd mask) ;; ret p
           end
  end.

(** [io_uring_for_each_cqe]: every completion carries the descriptor it
    was submitted for; after handling it the one-shot poll is queued again. *)
Fixpoint io_uring_scan (o : oracle) (pe : io_uring_engine) (wk : wakeup) (i : nat)
    (cqes : list Z) (pending : nat) : M (bool * nat) :=
  match cqes with
  | [] => ret (false, pending)
  | fd :: cqes' =>
      let requeue :=
        do p <- io_uring_add_poll_sqe o (poll_mask pe) fd pending;
        io_uring_scan o pe wk (S i) cqes' p in
      if fd =? efd pe then
        do got <- read_ctl fd (wk_read wk i);
        if negb (got =? SIZEOF_UINT64) then requeue
        else ret (true, pending)
      else
        do got <- sys_read fd (msgbuf pe) (ue_msg_size pe) (wk_read wk i);
        if got <=? 0 then requeue
        else sys_write fd (msgbuf pe) (ue_msg_size pe) ;; requeue
  end.

Fixpoint io_uring_loop (o : oracle) (pe : io_uring_engine) (wks : list wakeup)
    (pending : nat) : M unit :=
  match wks with
  | [] => emit (EvWait 1) ;; hang
  | wk :: wks' =>
      emit (EvWait 1) ;;
      do sp <- io_uring_scan o pe wk 0 (wk_events wk) 0;
      if fst sp then ret tt else io_uring_loop o pe wks' (snd sp)
  end.

Definition io_uring_thread (o : oracle) (pe : io_uring_engine) (wks : list wakeup) : M unit :=
  emit EvSemPost ;;
  io_uring_loop o pe wks 0.

Definition io_uring_queue_init (o : oracle) (pe : block) : M Z :=
  do fd <- open_fd (queue_init_ok o) O_RDWR;
  if fd <? 0 then ret fd else emit (EvRingInit pe) ;; ret fd.

Definition io_uring_queue_exit (pe : block) (rfd : Z) : M unit :=
  emit (EvRingExit pe) ;; close rfd.

Definition err_free_se (pe : block) (err : string) : M (create_result io_uring_engine) :=
  free pe ;; ret (Failed err).
Definition err_free_msgbuf (pe mb : block) (err : string) :=
  free mb ;; err_free_se pe err.
Definition err_queue_exit (pe mb : block) (rfd : Z) (err : string) :=
  io_uring_queue_exit pe rfd ;; err_free_msgbuf pe mb err.
Definition err_close_eventfd (pe mb : block) (rfd ef : Z) (err : string) :=
  close ef ;; err_queue_exit pe mb rfd err.
Definition err_sem_destroy (pe mb : block) (rfd ef : Z) (err : string) :=
  sem_destroy pe ;; err_close_eventfd pe mb rfd ef err.
Definition err_pthread_join (pe mb : block) (rfd ef : Z) (t : tid) (err : string) :=
  pthread_join t ;; err_sem_destroy pe mb rfd ef err.

(** [for (i = 0; i < num_fds; i++) io_uring_add_poll_sqe(pe, fds[i]);] *)
Fixpoint register_fds (o : oracle) (mask : Z) (fdsp : block) (i n pending : nat) : M nat :=
  match n with
  | O => ret pending
  | S n' =>
      do fd <- load_int fdsp i;
      do p <- io_uring_add_poll_sqe o mask fd pending;
      register_fds o mask fdsp (S i) n' p
  end.

Definition io_uring_create (o : oracle) (opts : options) (fdsp : block)
  : M (create_result io_uring_engine) :=
  do pe <- malloc (alloc_ok o 0) VStruct;
  match pe with
  | None => ret (Failed "Out of memory")
  | Some pe =>
    let mask := if exclusive opts then Z.lor POLLIN EPOLLEXCLUSIVE else POLLIN in
    do mb <- malloc (alloc_ok o 1) (VBytes (replicate (Z.to_nat (msg_size opts)) 0));
    match mb with
    | None => err_free_se pe "Out of memory"
    | Some mb =>
      do rfd <- io_uring_queue_init o pe;
      if rfd <? 0
      then err_free_msgbuf pe mb
             "io_uring_queue_init failed (do you need to increase ulimit -l?)"
      else
        do p <- register_fds o mask fdsp 0 (Z.to_nat (num_fds opts)) 0;
        do ef <- open_fd (eventfd_ok o) (Z.lor O_RDWR O_NONBLOCK);
        if ef <? 0 then err_queue_exit pe mb rfd "Eventfd creation failed"
        else
          do p <- io_uring_add_poll_sqe o mask ef p;
          io_uring_submit o p ;;
          do r <- sem_init (sem_init_ok o) pe;
          if r <? 0
          then err_close_eventfd pe mb rfd ef "Failed to create startup semaphore"
          else
            do t <- pthread_create (pthread_create_ok o 0) (Some ef);
            match t with
            | None => err_sem_destroy pe mb rfd ef "pthread_create failed"
            | Some t =>
              do r <- sem_wait_loop (sem_waits o 0);
              if r <? 0
              then err_pthread_join pe mb rfd ef t "sem_wait failed"
              else ret (Created (UE pe t mb (msg_size opts) rfd ef mask))
            end
    end
  end.

Definition io_uring_destroy (pe : io_uring_engine) : M unit :=
  write_ctl (efd pe) 1 ;;
  pthread_join (thread pe) ;;
  sem_destroy (ue_block pe) ;;
  close (efd pe) ;;
  io_uring_queue_exit (ue_block pe) (ring_fd pe) ;;
  free (msgbuf pe) ;;
  free (ue_block pe).

End IoUringEngine.

(** ** The thread-per-descriptor engine *)

Module ThreadsEngine.

Record threads_engine := TE {
  te_block : block;
  threads_arr : block;
  msgbuf : block;
  te_msg_size : Z;
  te_num_fds : Z
}.

(** [for (;;) { ret = read(fd, ...); if (ret != msg_size) continue;
    write(fd, ...); }]: one iteration per delivered read; with none left
    the thread stays in [read].  The loop has no exit. *)
Fixpoint threads_fd_loop (te : threads_engine) (fd : Z) (reads : list (option (list Z)))
  : M unit :=
  match reads with
  | [] => hang
  | r :: reads' =>
      do got <- sys_read fd (msgbuf te) (te_msg_size te) r;
      if negb (got =? te_msg_size te) then threads_fd_loop te fd reads'
      else
        sys_write fd (msgbuf te) (te_msg_size te) ;;
        threads_fd_loop te fd reads'
  end.

Definition threads_fd_thread (te : threads_engine) (startup_fd : Z)
    (reads : list (option (list Z))) : M unit :=
  emit EvSemPost ;;
  threads_fd_loop te startup_fd reads.

Definition err_free_se (te : block) (err : string) : M (create_result threads_engine) :=
  free te ;; ret (Failed err).
Definition err_free_msgbuf (te mb : block) (err : string) :=
  free mb ;; err_free_se te err.
Definition err_free_threads (te mb ta : block) (err : string) :=
  free ta ;; err_free_msgbuf te mb err.
Definition err_sem_destroy (te mb ta : block) (err : string) :=
  sem_destroy te ;; err_free_threads te mb ta err.

(** [while (i-- > 0) { pthread_cancel(te->threads[i]);
    pthread_join(te->threads[i], NULL); }] *)
Fixpoint cancel_threads (ta : block) (i : nat) : M unit :=
  match i with
  | O => ret tt
  | S j =>
      do t <- load_tid ta j;
      pthread_cancel t ;;
      do t' <- load_tid ta j;
      pthread_join t' ;;
      cancel_threads ta j
  end.

(** The spawn loop of [threads_create], [n] iterations from index [i];
    [Some err] when it left through [err_cancel_threads]. *)
Fixpoint spawn_threads (o : oracle) (ta fdsp : block) (i n : nat) : M (option string) :=
  match n with
  | O => ret None
  | S n' =>
      do fd <- load_int fdsp i;
      do fl <- fcntl_getfl fd;
      fcntl_setfl fd (Z.land fl (Z.lnot O_NONBLOCK)) ;;
      do t <- pthread_create (pthread_create_ok o i) None;
      match t with
      | None => cancel_threads ta i ;; ret (Some "pthread_create failed"%string)
      | Some t =>
          store_tid ta i t ;;
          do r <- sem_wait_loop (sem_waits o i);
          if r <? 0 then
            do t' <- load_tid ta i;
            pthread_join t' ;;
            cancel_threads ta i ;;
            ret (Some "sem_wait failed"%string)
          else spawn_threads o ta fdsp (S i) n'
      end
  end.

Definition threads_create (o : oracle) (opts : options) (fdsp : block)
  : M (create_result threads_engine) :=
  do te <- malloc (alloc_ok o 0) VStruct;
  match te with
  | None => ret (Failed "Out of memory")
  | Some te =>
    do mb <- malloc (alloc_ok o 1) (VBytes (replicate (Z.to_nat (msg_size opts)) 0));
    match mb with
    | None => err_free_se te "Out of memory"
    | Some mb =>
      do ta <- malloc (alloc_ok o 2) (VTids (replicate (Z.to_nat (num_fds opts)) 0%nat));
      match ta with
      | None => err_free_msgbuf te mb "Out of memory"
      | Some ta =>
        do r <- sem_init (sem_init_ok o) te;
        if r <? 0 then err_free_threads te mb ta "Failed to create startup semaphore"
        else
          do e <- spawn_threads o ta fdsp 0 (Z.to_nat (num_fds opts));
          match e with
          | Some err => err_sem_destroy te mb ta err
          | None => ret (Created (TE te ta mb (msg_size opts) (num_fds opts)))
          end
      end
    end
  end.

(** [for (i = 0; i < num_fds; i++) { pthread_cancel(threads[i]);
    pthread_join(threads[i], NULL); }] *)
Fixpoint stop_threads (ta : block) (i n : nat) : M unit :=
  match n with
  | O => ret tt
  | S n' =>
      do t <- load_tid ta i;
      pthread_cancel t ;;
      do t' <- load_tid ta i;
      pthread_join t' ;;
      stop_threads ta (S i) n'
  end.

Definition threads_destroy (te : threads_engine) : M unit :=
  stop_threads (threads_arr te) 0 (Z.to_nat (te_num_fds te)) ;;
  sem_destroy (te_block te) ;;
  free (threads_arr te) ;;
  free (msgbuf te) ;;
  free (te_block te).

End ThreadsEngine.

(** ** [struct engine_ops]: dispatch on the backend *)

Inductive engine_handle :=
| HSelect (e : SelectEngine.select_engine)
| HPoll (e : PollEngine.poll_engine)
| HEpoll (e : EpollEngine.epoll_engine)
| HIoUring (e : IoUringEngine.io_uring_engine)
| HThreads (e : ThreadsEngine.threads_engine).

Definition map_result {A B} (f : A → B) (m : M (create_result A)) : M (create_result B) :=
  do r <- m;
  ret match r with Created e => Created (f e) | Failed s => Failed s end.

Record engine_ops := EngineOps {
  name : string;
  create : oracle → options → block → M (create_result engine_handle);
  destroy : engine_handle → M unit;
  supports_exclusive : bool
}.

Definition select_engine_ops : engine_ops :=
  EngineOps "select"
    (fun o opts fdsp => map_result HSelect (SelectEngine.select_create o opts fdsp))
    (fun e => match e with HSelect e => SelectEngine.select_destroy e | _ => ret tt end)
    false.

Definition poll_engine_ops : engine_ops :=
  EngineOps "poll"
    (fun o opts fdsp => map_result HPoll (PollEngine.poll_create o opts fdsp))
    (fun e => match e with HPoll e => PollEngine.poll_destroy e | _ => ret tt end)
    false.

Definition epoll_engine_ops : engine_ops :=
  EngineOps "epoll"
    (fun o opts fdsp => map_result HEpoll (EpollEngine.epoll_do_create o opts fdsp))
    (fun e => match e with HEpoll e => EpollEngine.epoll_destroy e | _ => ret tt end)
    true.

Definition io_uring_engine_ops : engine_ops :=
  EngineOps "io_uring"
    (fun o opts fdsp => map_result HIoUring (IoUringEngine.io_uring_create o opts fdsp))
    (fun e => match e with HIoUring e => IoUringEngine.io_uring_destroy e | _ => ret tt end)
    true.

Definition threads_engine_ops : engine_ops :=
  EngineOps "threads"
    (fun o opts fdsp => map_result HThreads (ThreadsEngine.threads_create o opts fdsp))
    (fun e => match e with HThreads e => ThreadsEngine.threads_destroy e | _ => ret tt end)
    false.

Definition ops_of (b : backend) : engine_ops :=
  match b with
  | Select => select_engine_ops
  | Poll => poll_engine_ops
  | Epoll => epoll_engine_ops
  | IoUring => io_uring_engine_ops
  | Threads => threads_engine_ops
  end.

(** [e->ops]: the backend a handle belongs to. *)
Definition handle_backend (e : engine_handle) : backend :=
  match e with
  | HSelect _ => Select
  | HPoll _ => Poll
  | HEpoll _ => Epoll
  | HIoUring _ => IoUring
  | HThreads _ => Threads
  end.

(** ** iogen.c *)

Definition ULONG_MODULUS : Z := 2 ^ 64.

(** [struct iogen].  Of the random state the model keeps whether
    [initstate_r] has run; the values [random_r] hands out reach the run
    as observations. *)
Record iogen := Iogen {
  engine_fds : block;
  iogen_fds : block;
  g_num_fds : Z;
  g_msgbuf : block;
  g_msg_size : Z;
  random_seeded : bool;
  num_ios : Z
}.

(** The failure branch of the socketpair loop,
    [while (i-- > 0) { close(engine_fds[i]); close(iogen_fds[i]); free...;
    return strdup("socketpair failed\n"); }]: for [i > 0] the first pass
    through the body returns; for [i = 0] the body is skipped and the code
    that follows stores through index [-1]. *)
Definition socketpair_failed (g : iogen) (i : nat) : M (option string) :=
  match i with
  | O => undefined
  | S j =>
      do e <- load_int (engine_fds g) j;
      close e ;;
      do c <- load_int (iogen_fds g) j;
      close c ;;
      free (engine_fds g) ;;
      free (iogen_fds g) ;;
      free (g_msgbuf g) ;;
      ret (Some ("socketpair failed" ++ String (Ascii.ascii_of_nat 10) EmptyString)%string)
  end.

(** The socketpair loop at index [i], [n] pairs to go; [ok i] tells
    whether the call for pair [i] succeeds. *)
Fixpoint make_pairs (g : iogen) (ok : nat → bool) (i n : nat) : M (option string) :=
  match n with
  | O => ret None
  | S n' =>
      if negb (ok i) then socketpair_failed g i
      else
        do fd0 <- open_fd true O_RDWR;
        do fd1 <- open_fd true O_RDWR;
        store_int (engine_fds g) i fd0 ;;
        store_int (iogen_fds g) i fd1 ;;
        do e <- load_int (engine_fds g) i;
        do fl <- fcntl_getfl e;
        fcntl_setfl e (Z.lor O_NONBLOCK fl) ;;
        make_pairs g ok (S i) n'
  end.

(** [free(p)] for a pointer that may be [NULL]. *)
Definition free_opt (p : option block) : M unit :=
  match p with Some b => free b | None => ret tt end.

(** [iogen_init(g, opts)]: [g0] is what the caller's structure held
    before the call; the fields the function does not assign keep it. *)
Definition iogen_init (o : oracle) (pair_ok : nat → bool) (g0 : iogen) (opts : options)
  : M (iogen * option string) :=
  let n := Z.to_nat (num_fds opts) in
  do ea <- malloc (alloc_ok o 0) (VInts (replicate n 0));
  do ia <- malloc (alloc_ok o 1) (VInts (replicate n 0));
  do mb <- malloc (alloc_ok o 2) (VBytes (replicate (Z.to_nat (msg_size opts)) 0));
  match ea, ia, mb with
  | Some ea', Some ia', Some mb' =>
      let g := Iogen ea' ia' (num_fds opts) mb' (msg_size opts) true (num_ios g0) in
      do e <- make_pairs g pair_ok 0 n;
      ret (g, e)
  | _, _, _ =>
      free_opt ea ;; free_opt ia ;; free_opt mb ;;
      ret (Iogen (default 0%nat ea) (default 0%nat ia) (num_fds opts) (default 0%nat mb)
             (msg_size opts) true (num_ios g0),
           Some "Out of memory"%string)
  end.

(** [for (i = 0; i < num_fds; i++) { close(engine_fds[i]); close(iogen_fds[i]); }] *)
Fixpoint close_pairs (g : iogen) (i n : nat) : M unit :=
  match n with
  | O => ret tt
  | S n' =>
      do e <- load_int (engine_fds g) i;
      close e ;;
      do c <- load_int (iogen_fds g) i;
      close c ;;
      close_pairs g (S i) n'
  end.

Definition iogen_cleanup (g : iogen) : M unit :=
  close_pairs g 0 (Z.to_nat (g_num_fds g)) ;;
  free (engine_fds g) ;;
  free (iogen_fds g) ;;
  free (g_msgbuf g).

(** What one pass through the loop of [iogen_run] observes: the stop flag
    at the three places it is read, the value [write] returns, what [read]
    delivers, and the value produced by [random_r]. *)
Record round := Round {
  stop_head : bool;
  write_ret : Z;
  stop_after_write : bool;
  read_data : option (list Z);
  stop_after_read : bool;
  random_val : Z
}.

(** The loop of [iogen_run] with [fd] the current channel index; one
    element of [rounds] per pass.  With none left the generator stays in
    its blocking call. *)
Fixpoint iogen_loop (g : iogen) (fd : Z) (rounds : list round) : M iogen :=
  match rounds with
  | [] => hang
  | r :: rest =>
      if stop_head r then ret g
      else
        do c <- load_int (iogen_fds g) (Z.to_nat fd);
        sys_write c (g_msgbuf g) (g_msg_size g) ;;
        if stop_after_write r then ret g
        else if negb (write_ret r =? g_msg_size g)
        then emit (EvStderr "Write failed") ;; ret g
        else
          do c' <- load_int (iogen_fds g) (Z.to_nat fd);
          do got <- sys_read c' (g_msgbuf g) (g_msg_size g) (read_data r);
          if stop_after_read r then ret g
          else if negb (got =? g_msg_size g)
          then emit (EvStderr "Read failed") ;; ret g
          else
            let g' := Iogen (engine_fds g) (iogen_fds g) (g_num_fds g) (g_msgbuf g)
                        (g_msg_size g) (random_seeded g)
                        ((num_ios g + 1) mod ULONG_MODULUS) in
            emit (EvRandom (random_val r)) ;;
            iogen_loop g' (Z.rem (random_val r) (g_num_fds g)) rest
  end.

(** [iogen_run]: starts on channel 0 and reports [num_ios] at the end. *)
Definition iogen_run (g : iogen) (rounds : list round) : M iogen :=
  do g' <- iogen_loop g 0 rounds;
  emit (EvStats (num_ios g')) ;;
  ret g'.

(** ** The coordinator: option parsing and [main] *)

Definition LONG_MAX : Z := 2 ^ 63 - 1.

(** Conversion of an [unsigned long] to [int]. *)
Definition to_int (v : Z) : Z :=
  let m := v mod 2 ^ 32 in if m <? 2 ^ 31 then m else m - 2 ^ 32.

(** What [getopt_long] returns for one argument; numeric arguments carry
    the value [strtoul] gives for them. *)
Inductive opt :=
| OptEngine (optarg : string)
| OptNumEngines (v : Z)
| OptNumFds (v : Z)
| OptMsgSize (v : Z)
| OptExclusive (optarg : string)
| OptDurationSecs (v : Z)
| OptHelp
| OptUnhandled (c : Z).

(** The table [engines[]] of [parse_options]. *)
Definition engines : list backend := [Epoll; Poll; Select].

Definition lookup_engine (optarg : string) : option backend :=
  List.find (fun b => String.eqb optarg (name (ops_of b))) engines.

Definition default_options : options := Options Select 1 1 1 false 30.

Definition usage : M unit := emit (EvStderr "Usage: fdmonbench [OPTION]...").

Definition bad_number (v : Z) : bool := (LONG_MAX <? v) || (v =? 0).

Fixpoint parse_loop (opts : options) (args : list opt) : M (option options) :=
  match args with
  | [] => ret (Some opts)
  | a :: rest =>
      match a with
      | OptEngine s =>
          match lookup_engine s with
          | None => emit (EvStderr "Unknown engine") ;; usage ;; ret None
          | Some b =>
              parse_loop (Options b (num_engines opts) (num_fds opts) (msg_size opts)
                            (exclusive opts) (duration_secs opts)) rest
          end
      | OptNumEngines v =>
          if bad_number v
          then emit (EvStderr "Invalid number of engines") ;; usage ;; ret None
          else parse_loop (Options (engine opts) (to_int v) (num_fds opts) (msg_size opts)
                             (exclusive opts) (duration_secs opts)) rest
      | OptNumFds v =>
          if bad_number v
          then emit (EvStderr "Invalid number of fds") ;; usage ;; ret None
          else parse_loop (Options (engine opts) (num_engines opts) (to_int v) (msg_size opts)
                             (exclusive opts) (duration_secs opts)) rest
      | OptMsgSize v =>
          if bad_number v
          then emit (EvStderr "Invalid message size") ;; usage ;; ret None
          else parse_loop (Options (engine opts) (num_engines opts) (num_fds opts) v
                             (exclusive opts) (duration_secs opts)) rest
      | OptExclusive s =>
          if String.eqb s "0"
          then parse_loop (Options (engine opts) (num_engines opts) (num_fds opts)
                             (msg_size opts) false (duration_secs opts)) rest
          else if String.eqb s "1"
          then parse_loop (Options (engine opts) (num_engines opts) (num_fds opts)
                             (msg_size opts) true (duration_secs opts)) rest
          else emit (EvStderr "The value of exclusive must be 0 or 1") ;; usage ;; ret None
      | OptDurationSecs v =>
          if bad_number v
          then emit (EvStderr "Invalid duration-secs value") ;; usage ;; ret None
          else parse_loop (Options (engine opts) (num_engines opts) (num_fds opts)
                             (msg_size opts) (exclusive opts) (to_int v)) rest
      | OptHelp => usage ;; ret None
      | OptUnhandled c => emit (EvStderr "unhandled getopt_long() return value") ;; ret None
      end
  end.

(** [parse_options]; [extra] says that arguments were left over
    ([optind != argc]). *)
Definition parse_options (args : list opt) (extra : bool) : M (option options) :=
  do p <- parse_loop default_options args;
  match p with
  | None => ret None
  | Some opts =>
      if extra then usage ;; ret None
      else if exclusive opts && negb (supports_exclusive (ops_of (engine opts)))
      then emit (EvStderr (name (ops_of (engine opts)) ++ " engine does not support exclusive=1")) ;;
           ret None
      else ret (Some opts)
  end.

(** [while (i-- > 0) opts->engine_ops->destroy(engines[i]);] over the
    instances created so far, last one first. *)
Fixpoint destroy_created (ops : engine_ops) (created_rev : list engine_handle) : M unit :=
  match created_rev with
  | [] => ret tt
  | e :: rest => destroy ops e ;; destroy_created ops rest
  end.

(** The loop of [create_engines]; [os i] is the environment of the call
    for instance [i], [acc_rev] the instances created so far, last first. *)
Fixpoint create_loop (os : nat → oracle) (opts : options) (fdsp arr : block)
    (i n : nat) (acc_rev : list engine_handle) : M (create_result (list engine_handle)) :=
  match n with
  | O => ret (Created (rev acc_rev))
  | S n' =>
      do r <- create (ops_of (engine opts)) (os i) opts fdsp;
      match r with
      | Failed errmsg =>
          destroy_created (ops_of (engine opts)) acc_rev ;;
          free arr ;;
          ret (Failed errmsg)
      | Created e => create_loop os opts fdsp arr (S i) n' (e :: acc_rev)
      end
  end.

Definition create_engines (arr_ok : bool) (os : nat → oracle) (opts : options) (fdsp : block)
  : M (create_result (block * list engine_handle)) :=
  do arr <- malloc arr_ok VStruct;
  match arr with
  | None => ret (Failed "Out of memory")
  | Some arr =>
      do r <- create_loop os opts fdsp arr 0 (Z.to_nat (num_engines opts)) [];
      ret match r with
          | Created es => Created (arr, es)
          | Failed errmsg => Failed errmsg
          end
  end.

(** [e->ops->destroy(e)] for every instance, then [free(engines)]. *)
Fixpoint destroy_all (es : list engine_handle) : M unit :=
  match es with
  | [] => ret tt
  | e :: rest => destroy (ops_of (handle_backend e)) e ;; destroy_all rest
  end.

Definition destroy_engines (arr : block) (es : list engine_handle) : M unit :=
  destroy_all es ;; free arr.

(** The environment of a whole run. *)
Record run_env := RunEnv {
  init_oracle : oracle;
  pair_ok : nat → bool;
  engines_array_ok : bool;
  engine_oracle : nat → oracle;
  stack_iogen : iogen;
  rounds : list round
}.

Definition main (args : list opt) (extra : bool) (env : run_env) : M Z :=
  do p <- parse_options args extra;
  match p with
  | None => ret EXIT_FAILURE
  | Some opts =>
      do ge <- iogen_init (init_oracle env) (pair_ok env) (stack_iogen env) opts;
      match snd ge with
      | Some errmsg => emit (EvStderr errmsg) ;; ret EXIT_FAILURE
      | None =>
          do r <- create_engines (engines_array_ok env) (engine_oracle env) opts
                    (engine_fds (fst ge));
          match r with
          | Failed errmsg =>
              iogen_cleanup (fst ge) ;;
              emit (EvStderr errmsg) ;;
              ret EXIT_FAILURE
          | Created (arr, es) =>
              do g <- iogen_run (fst ge) (rounds env);
              destroy_engines arr es ;;
              iogen_cleanup g ;;
              ret EXIT_SUCCESS
          end
      end
  end.

(** ** The start-up handshake as an interleaving of creator and workers *)

Module Handshake.

(** A point of an interleaved run: how many events of its program the
    thread inside [create] has executed, the value of the start-up
    semaphore, and for every worker spawned so far how many events of its
    own program it has executed. *)
Record state := State { cpc : nat; sem : nat; pcs : list nat }.

Definition initial : state := State 0 0 [].

Definition sem_after (e : event) (n : nat) : nat :=
  match e with EvSemPost => S n | _ => n end.

(** What the next event of the thread inside [create] needs, and what it
    does.  [pthread_create] starts one more worker.  [sem_wait] returns 0
    only by taking one unit from the semaphore, so that event cannot
    happen while the semaphore is at zero; it returns -1 (interrupted, or
    failed) without having touched the semaphore, and it returns nothing
    else.  No other event involves the semaphore or the workers. *)
Definition creator_event (e : event) (s : state) : option state :=
  match e with
  | EvSpawn _ => Some (State (S (cpc s)) (sem s) (pcs s ++ [0%nat]))
  | EvSemWait r _ =>
      if r =? 0 then
        match sem s with
        | S n => Some (State (S (cpc s)) n (pcs s))
        | O => None
        end
      else if r =? -1 then Some (State (S (cpc s)) (sem s) (pcs s))
      else None
  | _ => Some (State (S (cpc s)) (sem s) (pcs s))
  end.

Section Steps.

(** [cprog]: the events of the thread inside [create], in program order;
    [progs !! j]: the events of the [j]-th worker it spawns. *)
Variable cprog : list event.
Variable progs : list (list event).

Definition creator_step (s : state) : option state :=
  match cprog !! cpc s with
  | Some e => creator_event e s
  | None => None
  end.

Definition worker_step (j : nat) (s : state) : option state :=
  match pcs s !! j, progs !! j with
  | Some k, Some prog =>
      match prog !! k with
      | Some e => Some (State (cpc s) (sem_after e (sem s)) (<[j := S k]> (pcs s)))
      | None => None
      end
  | _, _ => None
  end.

Inductive step : state → state → Prop :=
| step_creator s s' : creator_step s = Some s' → step s s'
| step_worker j s s' : worker_step j s = Some s' → step s s'.

Inductive reachable : state → Prop :=
| reachable_initial : reachable initial
| reachable_step s s' : reachable s → step s s' → reachable s'.

(** A schedule says who moves next: [None] the thread inside [create],
    [Some j] worker [j]. *)
Fixpoint run (sched : list (option nat)) (s : state) : option state :=
  match sched with
  | [] => Some s
  | who :: rest =>
      match (match who with None => creator_step s | Some j => worker_step j s end) with
      | Some s' => run rest s'
      | None => None
      end
  end.

(** [create] has returned: its thread has executed its whole program. *)
Definition create_returned (s : state) : Prop := cpc s = length cprog.

(** Worker [j] has posted the semaphore. *)
Definition posted (s : state) (j : nat) : Prop :=
  ∃ k prog i, pcs s !! j = Some k ∧ progs !! j = Some prog ∧
              (i < k)%nat ∧ prog !! i = Some EvSemPost.

(** Worker [j] is inside its wait primitive: the last event it executed
    is the call. *)
Definition in_wait (s : state) (j : nat) : Prop :=
  ∃ k prog n, pcs s !! j = Some (S k) ∧ progs !! j = Some prog ∧
              prog !! k = Some (EvWait n).

End Steps.

End Handshake.

(** ** Vocabulary of the properties *)

(** The private control descriptor of an engine instance, as stored in
    its structure; the thread-per-descriptor engine has none. *)
Definition control_fd (e : engine_handle) (w : world) : option Z :=
  match e with
  | HSelect se => Some (default 0 (ints_of (heap w !! SelectEngine.fds se) !! 0%nat))
  | HPoll pe =>
      Some (pfd_fd (default (Pollfd 0 0 0)
                      (pollfds_of (heap w !! PollEngine.pollfds pe) !! 0%nat)))
  | HEpoll pe => Some (EpollEngine.efd pe)
  | HIoUring pe => Some (IoUringEngine.efd pe)
  | HThreads _ => None
  end.




Definition is_release (e : event) : bool :=
  match e with
  | EvFree _ | EvClose _ | EvSemDestroy _ | EvRingExit _ => true
  | _ => false
  end.

Definition is_open (e : event) : bool :=
  match e with EvOpen _ => true | _ => false end.

Definition is_ctl_write (e : event) : bool :=
  match e with EvCtlWrite _ _ => true | _ => false end.

Definition is_post (e : event) : bool :=
  match e with EvSemPost => true | _ => false end.

Definition is_cancel (e : event) : bool :=
  match e with EvCancel _ => true | _ => false end.

Definition is_echo (e : event) : bool :=
  match e with EvWrite _ _ => true | _ => false end.

(** What [create] acquires and what the unwind labels and [destroy]
    give back. *)
Inductive resource :=
| RBlock (b : block)
| RFd (fd : Z)
| RRing (b : block)
| RSem (b : block)
| RThread (t : tid).

Definition acquired (evs : list event) : list resource :=
  omap (fun e => match e with
                 | EvMalloc b => Some (RBlock b)
                 | EvOpen fd => Some (RFd fd)
                 | EvRingInit b => Some (RRing b)
                 | EvSemInit b => Some (RSem b)
                 | EvSpawn t => Some (RThread t)
                 | _ => None
                 end) evs.

Definition released (evs : list event) : list resource :=
  omap (fun e => match e with
                 | EvFree b => Some (RBlock b)
                 | EvClose fd => Some (RFd fd)
                 | EvRingExit b => Some (RRing b)
                 | EvSemDestroy b => Some (RSem b)
                 | EvJoin t => Some (RThread t)
                 | _ => None
                 end) evs.

Definition resource_eqb (r1 r2 : resource) : bool :=
  match r1, r2 with
  | RBlock a, RBlock b | RRing a, RRing b | RSem a, RSem b | RThread a, RThread b =>
      (a =? b)%nat
  | RFd a, RFd b => a =? b
  | _, _ => false
  end.

Fixpoint resources_eqb (l1 l2 : list resource) : bool :=
  match l1, l2 with
  | [], [] => true
  | r1 :: l1', r2 :: l2' => resource_eqb r1 r2 && resources_eqb l1' l2'
  | _, _ => false
  end.

(** The run failed with a message and gave back, in reverse order, all
    it had acquired. *)
Definition unwound {E} (w : world) (o : outcome (create_result E)) : bool :=
  match o with
  | Ret (Failed _) w' =>
      resources_eqb (released (emitted w w')) (rev (acquired (emitted w w')))
  | _ => false
  end.



Definition count_opens (evs : list event) : nat :=
  length (List.filter is_open evs).

(** The descriptor is in non-blocking mode. *)
Definition nonblocking (flags : Z) : bool := negb (Z.land flags O_NONBLOCK =? 0).

(** Every descriptor of [X] that is open is in blocking mode. *)
Definition all_blocking (X : list Z) (w : world) : Prop :=
  ∀ fd fl, fd ∈ X → fdflags w !! fd = Some fl → nonblocking fl = false.

(** Channels [0 .. i) are set up as the specification wants them: the
    engine-side descriptor [es !! j] is open in non-blocking mode, the
    generator-side descriptor [cs !! j] is open in blocking mode. *)
Definition channels_ready (es cs : list Z) (i : nat) (w : world) : Prop :=
  ∀ j, (j < i)%nat →
    ∃ e c fe fc, es !! j = Some e ∧ cs !! j = Some c ∧
                 fdflags w !! e = Some fe ∧ nonblocking fe = true ∧
                 fdflags w !! c = Some fc ∧ nonblocking fc = false.

(** The events of a computation all satisfy [Φ] as a whole, whatever its
    outcome. *)
Definition emits {A} (m : M A) (Φ : list event → Prop) : Prop :=
  ∀ w, ∃ evs, trace (final_world (m w)) = trace w ++ evs ∧ Φ evs.

(** The computation does not post the start-up semaphore. *)
Definition quiet {A} (m : M A) : Prop :=
  emits m (fun evs => forallb (fun e => negb (is_post e)) evs = true).

(** The computation opens at most [k] descriptors. *)
Definition opens_le {A} (m : M A) (k : nat) : Prop :=
  emits m (fun evs => (count_opens evs ≤ k)%nat).

(** The number of descriptors each backend's [create] may open. *)
Definition max_opens (b : backend) : nat :=
  match b with
  | Select | Poll => 1
  | Epoll | IoUring => 2
  | Threads => 0
  end.

(** [w] still has every heap block of [w0] with its contents and, when
    [flags_too], every descriptor of [w0] with its status flags. *)
Definition agree (flags_too : bool) (w0 w : world) : Prop :=
  (∀ p v, heap w0 !! p = Some v → heap w !! p = Some v) ∧
  (flags_too = true → ∀ fd fl, fdflags w0 !! fd = Some fl → fdflags w !! fd = Some fl).

(** [m] keeps the invariant [I] whatever its outcome, and what it returns
    satisfies [Q]. *)
Definition preserves (I : world → Prop) {A} (m : M A) (Q : A → Prop) : Prop :=
  ∀ w, I w →
    match m w with
    | Ret a w' => I w' ∧ Q a
    | Hang w' => I w'
    | Undefined w' => I w'
    end.





(** The program of a worker posts the start-up semaphore as its first
    action and never again. *)
Definition posts_once_first (prog : list event) : bool :=
  match prog with
  | EvSemPost :: rest => forallb (fun e => negb (is_post e)) rest
  | _ => false
  end.

(** The start-up handshake, read off the events of [create]. *)
Definition is_spawn (e : event) : bool :=
  match e with EvSpawn _ => true | _ => false end.

(** A [sem_wait] whose result [create] takes for success: [ret < 0] is
    false. *)
Definition is_taken (e : event) : bool :=
  match e with EvSemWait r _ => negb (r <? 0) | _ => false end.

Definition spawned (evs : list event) : nat := length (List.filter is_spawn evs).
Definition taken (evs : list event) : nat := length (List.filter is_taken evs).

(** Neither a [pthread_create] nor a [sem_wait]. *)
Definition no_handshake (e : event) : bool :=
  match e with EvSpawn _ | EvSemWait _ _ => false | _ => true end.

(** The number of worker threads an instance has. *)
Definition workers (b : backend) (opts : options) : nat :=
  match b with
  | Threads => Z.to_nat (num_fds opts)
  | _ => 1
  end.

(** [prog] is what a run of the backend's thread function executes, for
    some instance, some behaviour of its descriptors and some world. *)
Definition worker_run (b : backend) (prog : list event) : Prop :=
  match b with
  | Select =>
      ∃ se wks w, prog = emitted w (final_world (SelectEngine.select_thread se wks w))
  | Poll =>
      ∃ pe wks w, prog = emitted w (final_world (PollEngine.poll_thread pe wks w))
  | Epoll =>
      ∃ pe wks w, prog = emitted w (final_world (EpollEngine.epoll_thread pe wks w))
  | IoUring =>
      ∃ o pe wks w, prog = emitted w (final_world (IoUringEngine.io_uring_thread o pe wks w))
  | Threads =>
      ∃ te fd reads w,
        prog = emitted w (final_world (ThreadsEngine.threads_fd_thread te fd reads w))
  end.

(** Whenever [m] returns a result that is [good], it has called
    [pthread_create] successfully [a] times and [sem_wait] with a result
    taken for success [b] times. *)
Definition settles {A} (good : A → bool) (a b : nat) (m : M A) : Prop :=
  ∀ w x w', m w = Ret x w' → good x = true →
    ∃ evs, trace w' = trace w ++ evs ∧ spawned evs = a ∧ taken evs = b.

Definition no_error (e : option string) : bool :=
  match e with None => true | Some _ => false end.

(** The number of workers that have executed at least one event. *)
Definition started (pcs : list nat) : nat := length (List.filter (Nat.ltb 0) pcs).

(** What holds at every point of an interleaved run: as many workers
    exist as the creating thread has spawned, and every post of a worker
    is either still in the semaphore or has been taken by a [sem_wait] of
    the creating thread. *)
Definition handshake_inv (cprog : list event) (progs : list (list event))
    (s : Handshake.state) : Prop :=
  (Handshake.cpc s ≤ length cprog)%nat ∧
  length (Handshake.pcs s) = spawned (take (Handshake.cpc s) cprog) ∧
  (Handshake.sem s + taken (take (Handshake.cpc s) cprog))%nat
  = started (Handshake.pcs s) ∧
  ∀ j k, Handshake.pcs s !! j = Some (S k) → is_Some (progs !! j).

(** The number of completed round trips a run reports. *)
Definition reported (evs : list event) : list Z :=
  omap (fun e => match e with EvStats n => Some n | _ => None end) evs.

Definition count_draws (evs : list event) : Z :=
  Z.of_nat (length (List.filter (fun e => match e with EvRandom _ => true | _ => false end) evs)).

(** ** Concrete runs used below *)

(** Two data descriptors 3 and 4, both non-blocking, stored in the
    caller's array at block 7. *)
Definition w0 : world :=
  World {[ 7%nat := VInts [3; 4] ]}
        {[ 3 := Z.lor O_RDWR O_NONBLOCK; 4 := Z.lor O_RDWR O_NONBLOCK ]} ∅ [].

Definition opts0 (b : backend) (excl : bool) : options := Options b 1 2 4 excl 30.

(** Everything succeeds except the handshake: [sem_wait] returns [-1]
    with [errno = EINVAL]. *)
Definition sem_wait_fails : oracle :=
  Oracle (fun _ => true) true true (fun _ => 0) true true true (fun _ => true)
         (fun _ => [(-1, EINVAL)]).

(** A successful run of the thread-per-descriptor engine's [create]. *)
Definition threads_created : outcome (create_result ThreadsEngine.threads_engine) :=
  ThreadsEngine.threads_create all_ok (opts0 Threads false) 7%nat w0.

(** A [select] engine as [select_create] leaves it in [w0]: structure at
    block 8, message buffer at 9, descriptor array at 10 holding the
    eventfd 5 and the data descriptors 3 and 4. *)
Definition select_created : outcome (create_result SelectEngine.select_engine) :=
  SelectEngine.select_create all_ok (opts0 Select false) 7%nat w0.

Definition se0 : SelectEngine.select_engine := SelectEngine.SE 8%nat 0%nat 9%nat 4 10%nat 3.

Definition pe0 : PollEngine.poll_engine := PollEngine.PE 8%nat 0%nat 9%nat 4 10%nat 3.

Definition ee0 : EpollEngine.epoll_engine := EpollEngine.EE 8%nat 0%nat 9%nat 4 6 5.

Definition ue0 : IoUringEngine.io_uring_engine := IoUringEngine.UE 8%nat 0%nat 9%nat 4 5 6 POLLIN.

(** The control descriptor is reported readable and its 8-byte counter
    is read. *)
Definition stop_wakeup (efd : Z) : wakeup :=
  Wakeup 1 (fun fd => fd =? efd) [efd] (fun _ => Some [1; 0; 0; 0; 0; 0; 0; 0]).


(** The data descriptor 3 is reported readable and [read] delivers two
    bytes, 7 and 7, of the four asked for. *)
Definition short_wakeup : wakeup :=
  Wakeup 1 (fun fd => fd =? 3) [3] (fun _ => Some [7; 7]).

(** The worlds the four event engines' [create] leave behind in [w0]
    (message buffer of four zero bytes at block 9), for [poll] with
    [revents] filled in for the short wake-up. *)
Definition poll_short_world : world :=
  final_world
    (PollEngine.set_revents 10%nat short_wakeup 0 3
       (final_world (PollEngine.poll_create all_ok (opts0 Poll false) 7%nat w0))).

Definition epoll_world : world :=
  final_world (EpollEngine.epoll_do_create all_ok (opts0 Epoll false) 7%nat w0).

Definition io_uring_world : world :=
  final_world (IoUringEngine.io_uring_create all_ok (opts0 IoUring false) 7%nat w0).

Definition te0 : ThreadsEngine.threads_engine := ThreadsEngine.TE 8%nat 10%nat 9%nat 4 2.

(** Environments in which exactly one step of [create] fails. *)
Definition fail_alloc (n : nat) : oracle :=
  Oracle (fun i => negb (i =? n)%nat) true true (fun _ => 0) true true true (fun _ => true)
         (fun _ => [(0, 0)]).
Definition fail_eventfd : oracle :=
  Oracle (fun _ => true) false true (fun _ => 0) true true true (fun _ => true)
         (fun _ => [(0, 0)]).
Definition fail_epoll_create1 : oracle :=
  Oracle (fun _ => true) true false (fun _ => 0) true true true (fun _ => true)
         (fun _ => [(0, 0)]).
Definition fail_epoll_ctl (fd : Z) : oracle :=
  Oracle (fun _ => true) true true (fun x => if x =? fd then -1 else 0) true true true
         (fun _ => true) (fun _ => [(0, 0)]).
Definition fail_queue_init : oracle :=
  Oracle (fun _ => true) true true (fun _ => 0) false true true (fun _ => true)
         (fun _ => [(0, 0)]).
Definition fail_sem_init : oracle :=
  Oracle (fun _ => true) true true (fun _ => 0) true true false (fun _ => true)
         (fun _ => [(0, 0)]).
Definition fail_pthread_create (n : nat) : oracle :=
  Oracle (fun _ => true) true true (fun _ => 0) true true true (fun i => negb (i =? n)%nat)
         (fun _ => [(0, 0)]).

(** The failures before the handshake, per backend. *)
Definition early_failures (b : backend) : list oracle :=
  [fail_alloc 0; fail_alloc 1; fail_sem_init; fail_pthread_create 0] ++
  match b with
  | Select | Poll => [fail_alloc 2; fail_eventfd]
  | Epoll => [fail_epoll_create1; fail_epoll_ctl 4; fail_eventfd; fail_epoll_ctl 6]
  | IoUring => [fail_queue_init; fail_eventfd]
  | Threads => [fail_alloc 2; fail_pthread_create 1]
  end.

(** The caller's [struct iogen] before [iogen_init]: an automatic
    variable of [main], here holding 42 where [num_ios] lives. *)
Definition stack_garbage : iogen := Iogen 0%nat 0%nat 0 0%nat 0 false 42.

(** A completed round trip after which [random_r] produces 1, and a pass
    that finds the stop flag set. *)
Definition ok_round : round := Round false 1 false (Some [0]) false 1.
Definition stop_round : round := Round true 0 false None false 0.

(** [iogen_init] for two channels and one-byte messages. *)
Definition generator_init : outcome (iogen * option string) :=
  iogen_init all_ok (fun _ => true) stack_garbage (Options Select 1 2 1 false 30) empty_world.

(** The same, then a run of two round trips. *)
Definition generator_run : outcome iogen :=
  (do ge <- iogen_init all_ok (fun _ => true) stack_garbage (Options Select 1 2 1 false 30);
   iogen_run (fst ge) [ok_round; ok_round; stop_round]) empty_world.

(** What the worker of the [select] engine built in [w0] executes when
    nothing ever becomes readable: it posts, then calls [select]. *)
Definition idle_select_worker : list event :=
  emitted (final_world select_created)
    (final_world (SelectEngine.select_thread se0 [] (final_world select_created))).

(** [select_create] runs up to its [sem_wait], the worker posts, and
    [select_create] takes the post and returns. *)
Definition create_then_post : list (option nat) :=
  replicate 6 None ++ [Some 0%nat; None].

(** ** Vocabulary of the further properties *)

Definition count_echoes (evs : list event) : nat :=
  length (List.filter is_echo evs).

(** Every [write] of a worker answers the [read] just before it: the
    same descriptor, a return value that passes the worker's test
    [complete], and never a control descriptor. *)
Fixpoint echoes_answer_reads (is_ctl : Z → bool) (complete : Z → bool)
    (prev : option event) (evs : list event) : bool :=
  match evs with
  | [] => true
  | e :: rest =>
      match e with
      | EvWrite fd _ =>
          negb (is_ctl fd) &&
          match prev with
          | Some (EvRead fd' _ got) => (fd =? fd') && complete got
          | _ => false
          end
      | _ => true
      end && echoes_answer_reads is_ctl complete (Some e) rest
  end.

(** The registrations a run made with [epoll_ctl(EPOLL_CTL_ADD)], as
    (epoll descriptor, descriptor, events), and the poll requests it
    queued on an io_uring, as (descriptor, mask), in program order. *)
Definition epoll_adds (evs : list event) : list (Z * Z * Z) :=
  omap (fun e => match e with EvEpollAdd ep fd ev => Some (ep, fd, ev) | _ => None end) evs.

Definition poll_sqes (evs : list event) : list (Z * Z) :=
  omap (fun e => match e with EvPollSqe fd m => Some (fd, m) | _ => None end) evs.

(** The first [n] entries of the caller's descriptor array [fds]. *)
Definition caller_fds (w : world) (fdsp : block) (n : Z) : list Z :=
  take (Z.to_nat n) (ints_of (heap w !! fdsp)).

Definition is_sem_wait (e : event) : bool :=
  match e with EvSemWait _ _ => true | _ => false end.

(** The data descriptor 3 is reported readable and [read] delivers the
    four bytes asked for. *)
Definition full_wakeup : wakeup :=
  Wakeup 1 (fun fd => fd =? 3) [3] (fun _ => Some [7; 7; 7; 7]).

(** What the option loop of [parse_options] rejects. *)
Definition rejected (a : opt) : bool :=
  match a with
  | OptEngine s => match lookup_engine s with Some _ => false | None => true end
  | OptNumEngines v | OptNumFds v | OptMsgSize v | OptDurationSecs v => bad_number v
  | OptExclusive s => negb (String.eqb s "0" || String.eqb s "1")
  | OptHelp | OptUnhandled _ => true
  end.

(** The value of the last occurrence of an option, [d] when it does not
    occur. *)
Definition last_value {A} (sel : opt → option A) (d : A) (args : list opt) : A :=
  default d (last (omap sel args)).

Definition given_engine (a : opt) : option backend :=
  match a with OptEngine s => lookup_engine s | _ => None end.
Definition given_num_engines (a : opt) : option Z :=
  match a with OptNumEngines v => Some (to_int v) | _ => None end.
Definition given_num_fds (a : opt) : option Z :=
  match a with OptNumFds v => Some (to_int v) | _ => None end.
Definition given_msg_size (a : opt) : option Z :=
  match a with OptMsgSize v => Some v | _ => None end.
Definition given_exclusive (a : opt) : option bool :=
  match a with OptExclusive s => Some (String.eqb s "1") | _ => None end.
Definition given_duration_secs (a : opt) : option Z :=
  match a with OptDurationSecs v => Some (to_int v) | _ => None end.

(** Every field from the last occurrence of its option, or from [o]. *)
Definition last_given (o : options) (args : list opt) : options :=
  Options (last_value given_engine (engine o) args)
          (last_value given_num_engines (num_engines o) args)
          (last_value given_num_fds (num_fds o) args)
          (last_value given_msg_size (msg_size o) args)
          (last_value given_exclusive (exclusive o) args)
          (last_value given_duration_secs (duration_secs o) args).

Definition INT_MAX : Z := 2 ^ 31 - 1.

(** The numbers of an argument are values of [unsigned long], and the
    counts that go to [int] fields are at most [INT_MAX]. *)
Definition counts_fit (a : opt) : bool :=
  match a with
  | OptNumEngines v | OptNumFds v | OptDurationSecs v => (0 <=? v) && (v <=? INT_MAX)
  | OptMsgSize v => 0 <=? v
  | _ => true
  end.

(** Every event of the computation satisfies [P], whatever its outcome. *)
Definition only (P : event → bool) {A} (m : M A) : Prop :=
  emits m (fun evs => forallb P evs = true).

(** What setting up and tearing down may do: memory, descriptors, the
    notification primitive, semaphore and threads, messages on [stderr]. *)
Definition setup_event (e : event) : bool :=
  match e with
  | EvMalloc _ | EvFree _ | EvOpen _ | EvClose _ | EvSetFl _ _ | EvEpollAdd _ _ _
  | EvRingInit _ | EvRingExit _ | EvPollSqe _ _ | EvSubmit
  | EvSemInit _ | EvSemDestroy _ | EvSemWait _ _
  | EvSpawn _ | EvCancel _ | EvJoin _ | EvCtlWrite _ _ | EvStderr _ => true
  | _ => false
  end.



Definition is_stderr (e : event) : bool :=
  match e with EvStderr _ => true | _ => false end.

Definition is_stats (e : event) : bool :=
  match e with EvStats _ => true | _ => false end.

(** Every call of the wait primitive in [evs] is made with [nfds]. *)
Definition waits_with (nfds : Z) (e : event) : bool :=
  match e with EvWait n => n =? nfds | _ => true end.

(** * Properties *)

(** ** The logic of computations *)

Lemma emitted_app (w w' : world) (evs : list event) :
  trace w' = trace w ++ evs → emitted w w' = evs.
Proof. intros H. unfold emitted. rewrite H. apply drop_app_length. Qed.

Lemma emits_ret {A} (a : A) (Φ : list event → Prop) : Φ [] → emits (ret a) Φ.
Proof. intros H w. exists []. simpl. by rewrite app_nil_r. Qed.

Lemma emits_hang {A} (Φ : list event → Prop) : Φ [] → emits (@hang A) Φ.
Proof. intros H w. exists []. simpl. by rewrite app_nil_r. Qed.

Lemma emits_undefined {A} (Φ : list event → Prop) : Φ [] → emits (@undefined A) Φ.
Proof. intros H w. exists []. simpl. by rewrite app_nil_r. Qed.

Lemma emits_bind {A B} (m : M A) (k : A → M B) (Φ1 Φ2 Φ : list event → Prop) :
  emits m Φ1 → (∀ a, emits (k a) Φ2) →
  (∀ e1, Φ1 e1 → Φ e1) →
  (∀ e1 e2, Φ1 e1 → Φ2 e2 → Φ (e1 ++ e2)) →
  emits (bind m k) Φ.
Proof.
  intros Hm Hk Hpre Happ w. unfold bind.
  destruct (Hm w) as (e1 & He1 & H1).
  destruct (m w) as [a w1|w1|w1]; simpl in *; [|eauto..].
  destruct (Hk a w1) as (e2 & He2 & H2).
  exists (e1 ++ e2). split; [|by apply Happ].
  by rewrite He2, He1, app_assoc.
Qed.

Lemma emits_weaken {A} (m : M A) (Φ Ψ : list event → Prop) :
  emits m Φ → (∀ evs, Φ evs → Ψ evs) → emits m Ψ.
Proof. intros H HΦ w. destruct (H w) as (evs & ? & ?). eauto. Qed.

Lemma emits_emitted {A} (m : M A) (Φ : list event → Prop) (w : world) :
  emits m Φ → Φ (emitted w (final_world (m w))).
Proof. intros H. destruct (H w) as (evs & He & ?). by rewrite (emitted_app _ _ _ He). Qed.

Lemma preserves_ret (I : world → Prop) {A} (a : A) (Q : A → Prop) :
  Q a → preserves I (ret a) Q.
Proof. by intros ? w ?. Qed.

Lemma preserves_hang (I : world → Prop) {A} (Q : A → Prop) : preserves I (@hang A) Q.
Proof. by intros w ?. Qed.

Lemma preserves_undefined (I : world → Prop) {A} (Q : A → Prop) :
  preserves I (@undefined A) Q.
Proof. by intros w ?. Qed.

Lemma preserves_bind (I : world → Prop) {A B} (m : M A) (k : A → M B)
    (Q : A → Prop) (R : B → Prop) :
  preserves I m Q → (∀ a, Q a → preserves I (k a) R) → preserves I (bind m k) R.
Proof.
  intros Hm Hk w Hw. unfold bind. specialize (Hm w Hw).
  destruct (m w) as [a w1|w1|w1]; [|done..].
  destruct Hm as [Hw1 Ha]. by apply Hk.
Qed.

Lemma preserves_weaken (I : world → Prop) {A} (m : M A) (Q R : A → Prop) :
  preserves I m Q → (∀ a, Q a → R a) → preserves I m R.
Proof.
  intros Hm HQ w Hw. specialize (Hm w Hw).
  destruct (m w); [|done..]. destruct Hm. eauto.
Qed.

Lemma preserves_final (I : world → Prop) {A} (m : M A) (Q : A → Prop) (w : world) :
  preserves I m Q → I w → I (final_world (m w)).
Proof. intros Hm Hw. specialize (Hm w Hw). destruct (m w); simpl; tauto. Qed.

(** ** What the primitives do to the caller's blocks and descriptors *)

Section Frame.

Context (ft : bool) (w0 : world).

Local Abbreviation I := (agree ft w0).

Lemma agree_refl : agree ft w0 w0.
Proof. by split. Qed.

Lemma agree_log (e : event) (w : world) : I w → I (log e w).
Proof. by intros [??]. Qed.

Lemma agree_set_threads (t : gmap tid thread) (w : world) : I w → I (set_threads t w).
Proof. by intros [??]. Qed.

(** A heap update at a block the caller does not own. *)
Lemma agree_set_heap (h : gmap block blockval) (w : world) :
  (∀ p v, heap w0 !! p = Some v → heap w !! p = Some v → h !! p = Some v) →
  I w → I (set_heap h w).
Proof. intros Hh [Hheap Hfl]. split; simpl; eauto. Qed.

Lemma agree_set_fdflags (f : gmap Z Z) (w : world) :
  (ft = true → ∀ fd fl, fdflags w0 !! fd = Some fl → fdflags w !! fd = Some fl →
                        f !! fd = Some fl) →
  I w → I (set_fdflags f w).
Proof. intros Hf [Hheap Hfl]. split; simpl; eauto. Qed.

Lemma preserves_emit (e : event) : preserves I (emit e) (fun _ => True).
Proof. intros w Hw. simpl. split; [by apply agree_log|done]. Qed.

Lemma preserves_malloc (ok : bool) (init : blockval) :
  preserves I (malloc ok init)
    (fun b => match b with Some x => heap w0 !! x = None | None => True end).
Proof.
  intros w Hw. unfold malloc. destruct ok; [|done].
  assert (Hfresh : heap w !! fresh (dom (heap w)) = None).
  { apply not_elem_of_dom, is_fresh. }
  assert (H0 : heap w0 !! fresh (dom (heap w)) = None).
  { destruct (heap w0 !! fresh (dom (heap w))) as [v|] eqn:E; [|done].
    apply Hw in E. congruence. }
  split; [|done].
  apply agree_log, agree_set_heap; [|done].
  intros p v Hp0 Hp. rewrite lookup_insert_ne; [done|]. intros <-. congruence.
Qed.

Lemma preserves_free (b : block) :
  heap w0 !! b = None → preserves I (free b) (fun _ => True).
Proof.
  intros Hb w Hw. simpl. split; [|done].
  apply agree_log, agree_set_heap; [|done].
  intros p v Hp0 Hp. rewrite lookup_delete_ne; [done|]. intros <-. congruence.
Qed.

Lemma preserves_free_opt (b : option block) :
  match b with Some x => heap w0 !! x = None | None => True end →
  preserves I (free_opt b) (fun _ => True).
Proof. destruct b; [apply preserves_free|intros _; by apply preserves_ret]. Qed.

Lemma agree_alter (f : blockval → blockval) (b : block) (w : world) :
  heap w0 !! b = None → I w → I (set_heap (alter f b (heap w)) w).
Proof.
  intros Hb. apply agree_set_heap.
  intros p v Hp0 Hp. rewrite lookup_alter_ne; [done|]. intros <-. congruence.
Qed.

Lemma preserves_load_int (p : block) (i : nat) : preserves I (load_int p i) (fun _ => True).
Proof. by intros w Hw. Qed.

Lemma preserves_load_ints (p : block) (n : nat) : preserves I (load_ints p n) (fun _ => True).
Proof. by intros w Hw. Qed.

Lemma preserves_load_pollfd (p : block) (i : nat) :
  preserves I (load_pollfd p i) (fun _ => True).
Proof. by intros w Hw. Qed.

Lemma preserves_load_tid (p : block) (i : nat) : preserves I (load_tid p i) (fun _ => True).
Proof. by intros w Hw. Qed.

Lemma preserves_store_int (b : block) (i : nat) (v : Z) :
  heap w0 !! b = None → preserves I (store_int b i v) (fun _ => True).
Proof. intros Hb w Hw. split; [by apply agree_alter|done]. Qed.

Lemma preserves_store_ints (b : block) (vs : list Z) (off : nat) :
  heap w0 !! b = None → preserves I (store_ints b off vs) (fun _ => True).
Proof.
  intros Hb. revert off. induction vs as [|v vs IH]; intros off; simpl.
  - by apply preserves_ret.
  - eapply preserves_bind; [by apply preserves_store_int|]. intros _ _. apply IH.
Qed.

Lemma preserves_store_pollfd (b : block) (i : nat) (v : pollfd) :
  heap w0 !! b = None → preserves I (store_pollfd b i v) (fun _ => True).
Proof. intros Hb w Hw. split; [by apply agree_alter|done]. Qed.

Lemma preserves_store_tid (b : block) (i : nat) (t : tid) :
  heap w0 !! b = None → preserves I (store_tid b i t) (fun _ => True).
Proof. intros Hb w Hw. split; [by apply agree_alter|done]. Qed.

Lemma preserves_open_fd (ok : bool) (flags : Z) :
  preserves I (open_fd ok flags)
    (fun r => (r <? 0) = false → ft = true → fdflags w0 !! r = None).
Proof.
  intros w Hw. unfold open_fd. destruct ok; [|by split].
  assert (Hfresh : fdflags w !! fresh (dom (fdflags w)) = None).
  { apply not_elem_of_dom, is_fresh. }
  assert (H0 : ft = true → fdflags w0 !! fresh (dom (fdflags w)) = None).
  { intros Hft. destruct (fdflags w0 !! fresh (dom (fdflags w))) as [v|] eqn:E; [|done].
    apply Hw in E; [|done]. congruence. }
  split; [|auto].
  apply agree_log, agree_set_fdflags; [|done].
  intros Hft fd fl Hfd0 Hfd. rewrite lookup_insert_ne; [done|]. intros <-. congruence.
Qed.

Lemma preserves_close (fd : Z) :
  (ft = true → fdflags w0 !! fd = None) → preserves I (close fd) (fun _ => True).
Proof.
  intros Hfd w Hw. split; [|done].
  apply agree_log, agree_set_fdflags; [|done].
  intros Hft fd' fl Hfd0 Hfd'. rewrite lookup_delete_ne; [done|].
  intros <-. specialize (Hfd Hft). congruence.
Qed.

Lemma preserves_fcntl_getfl (fd : Z) : preserves I (fcntl_getfl fd) (fun _ => True).
Proof. by intros w Hw. Qed.

Lemma preserves_fcntl_setfl (fd flags : Z) :
  (ft = true → fdflags w0 !! fd = None) → preserves I (fcntl_setfl fd flags) (fun _ => True).
Proof.
  intros Hfd w Hw. split; [|done].
  apply agree_log, agree_set_fdflags; [|done].
  intros Hft fd' fl Hfd0 Hfd'. rewrite lookup_alter_ne; [done|].
  intros <-. specialize (Hfd Hft). congruence.
Qed.

Lemma preserves_write_ctl (fd val : Z) : preserves I (write_ctl fd val) (fun _ => True).
Proof. intros w Hw. split; [|done]. by apply agree_log, agree_set_threads. Qed.

Lemma preserves_sem_init (ok : bool) (b : block) : preserves I (sem_init ok b) (fun _ => True).
Proof. intros w Hw. unfold sem_init. destruct ok; split; auto using agree_log. Qed.

Lemma preserves_sem_destroy (b : block) : preserves I (sem_destroy b) (fun _ => True).
Proof. apply preserves_emit. Qed.

Lemma preserves_pthread_create (ok : bool) (ctl : option Z) :
  preserves I (pthread_create ok ctl) (fun _ => True).
Proof.
  intros w Hw. unfold pthread_create.
  destruct ok; split; auto using agree_log, agree_set_threads.
Qed.

Lemma preserves_pthread_cancel (t : tid) : preserves I (pthread_cancel t) (fun _ => True).
Proof. intros w Hw. split; [|done]. by apply agree_log, agree_set_threads. Qed.

Lemma preserves_pthread_join (t : tid) : preserves I (pthread_join t) (fun _ => True).
Proof.
  intros w Hw. unfold pthread_join.
  destruct (threads w !! t) as [th|]; [destruct (th_stop th)|]; simpl;
    try (split; [|done]); auto using agree_log, agree_set_threads.
Qed.

Lemma preserves_sem_wait_loop (rs : list (Z * Z)) :
  preserves I (sem_wait_loop rs) (fun _ => True).
Proof.
  induction rs as [|[r e] rs IH]; simpl; [apply preserves_hang|].
  eapply preserves_bind; [apply preserves_emit|]. intros _ _.
  destruct ((r =? -1) && (e =? EINTR)); [done|]. by apply preserves_ret.
Qed.

End Frame.

Create HintDb pres.

#[local] Hint Resolve preserves_emit preserves_malloc preserves_free preserves_free_opt
  preserves_load_int preserves_load_ints preserves_load_pollfd preserves_load_tid
  preserves_store_int preserves_store_ints preserves_store_pollfd preserves_store_tid
  preserves_open_fd preserves_close preserves_fcntl_getfl preserves_fcntl_setfl
  preserves_write_ctl preserves_sem_init preserves_sem_destroy preserves_pthread_create
  preserves_pthread_cancel preserves_pthread_join preserves_sem_wait_loop
  preserves_hang preserves_undefined : pres.

#[local] Hint Extern 5 (_ = None) => congruence : pres.

(** One step through a computation: a [bind] whose first part is covered
    by a lemma of the database, a branch, or a final [ret]. *)
Ltac pres_step :=
  first
    [ apply preserves_ret; exact Logic.I
    | eapply preserves_bind; [ solve [eauto with pres] | intros ? ? ]
    | match goal with
      | |- preserves _ (if ?c then _ else _) _ => destruct c eqn:?
      | |- preserves _ (match ?x with _ => _ end) _ => destruct x eqn:?
      end; simpl in * ].

Ltac pres := repeat pres_step; eauto with pres.

(** ** [create] leaves the caller's blocks and descriptors alone *)

Section CreateFrame.

Context (ft : bool) (w0 : world).

Lemma select_create_agree (o : oracle) (opts : options) (fdsp : block) :
  preserves (agree ft w0) (SelectEngine.select_create o opts fdsp) (fun _ => True).
Proof.
  unfold SelectEngine.select_create, SelectEngine.err_pthread_join,
    SelectEngine.err_sem_destroy, SelectEngine.err_close_eventfd,
    SelectEngine.err_free_fds, SelectEngine.err_free_msgbuf, SelectEngine.err_free_se.
  pres.
Qed.

Lemma poll_register_fds_agree (pa fdsp : block) (n i : nat) :
  heap w0 !! pa = None →
  preserves (agree ft w0) (PollEngine.register_fds pa fdsp i n) (fun _ => True).
Proof. intros Hpa. revert i. induction n as [|n IH]; intros i; simpl; pres. Qed.

Lemma poll_create_agree (o : oracle) (opts : options) (fdsp : block) :
  preserves (agree ft w0) (PollEngine.poll_create o opts fdsp) (fun _ => True).
Proof.
  pose proof poll_register_fds_agree.
  unfold PollEngine.poll_create, PollEngine.err_pthread_join,
    PollEngine.err_sem_destroy, PollEngine.err_close_eventfd,
    PollEngine.err_free_pollfds, PollEngine.err_free_msgbuf, PollEngine.err_free_se.
  pres.
Qed.

Lemma epoll_ctl_add_agree (o : oracle) (ep fd events : Z) :
  preserves (agree ft w0) (EpollEngine.epoll_ctl_add o ep fd events) (fun _ => True).
Proof. unfold EpollEngine.epoll_ctl_add. pres. Qed.

Lemma epoll_register_fds_agree (o : oracle) (ep events : Z) (fdsp : block) (n i : nat) :
  preserves (agree ft w0) (EpollEngine.register_fds o ep events fdsp i n) (fun _ => True).
Proof.
  pose proof epoll_ctl_add_agree.
  revert i. induction n as [|n IH]; intros i; simpl; pres.
Qed.

Lemma epoll_do_create_agree (o : oracle) (opts : options) (fdsp : block) :
  preserves (agree ft w0) (EpollEngine.epoll_do_create o opts fdsp) (fun _ => True).
Proof.
  pose proof epoll_ctl_add_agree. pose proof epoll_register_fds_agree.
  unfold EpollEngine.epoll_do_create, EpollEngine.err_pthread_join,
    EpollEngine.err_sem_destroy, EpollEngine.err_close_eventfd,
    EpollEngine.err_close_epfd, EpollEngine.err_free_msgbuf, EpollEngine.err_free_se.
  pres.
Qed.

Lemma io_uring_submit_agree (o : oracle) (pending : nat) :
  preserves (agree ft w0) (IoUringEngine.io_uring_submit o pending) (fun _ => True).
Proof. unfold IoUringEngine.io_uring_submit. pres. Qed.

Lemma io_uring_add_poll_sqe_agree (o : oracle) (mask fd : Z) (pending : nat) :
  preserves (agree ft w0) (IoUringEngine.io_uring_add_poll_sqe o mask fd pending)
    (fun _ => True).
Proof.
  pose proof io_uring_submit_agree.
  unfold IoUringEngine.io_uring_add_poll_sqe. pres.
Qed.

Lemma io_uring_register_fds_agree (o : oracle) (mask : Z) (fdsp : block) (n i p : nat) :
  preserves (agree ft w0) (IoUringEngine.register_fds o mask fdsp i n p) (fun _ => True).
Proof.
  pose proof io_uring_add_poll_sqe_agree.
  revert i p. induction n as [|n IH]; intros i p; simpl; pres.
Qed.

Lemma io_uring_queue_init_agree (o : oracle) (pe : block) :
  preserves (agree ft w0) (IoUringEngine.io_uring_queue_init o pe)
    (fun r => (r <? 0) = false → ft = true → fdflags w0 !! r = None).
Proof.
  unfold IoUringEngine.io_uring_queue_init.
  eapply preserves_bind; [apply preserves_open_fd|]. intros r Hr.
  destruct (r <? 0) eqn:E.
  - apply preserves_ret. congruence.
  - eapply preserves_bind; [apply preserves_emit|]. intros _ _.
    apply preserves_ret. auto.
Qed.

Lemma io_uring_queue_exit_agree (pe : block) (rfd : Z) :
  (ft = true → fdflags w0 !! rfd = None) →
  preserves (agree ft w0) (IoUringEngine.io_uring_queue_exit pe rfd) (fun _ => True).
Proof. intros. unfold IoUringEngine.io_uring_queue_exit. pres. Qed.

Lemma io_uring_create_agree (o : oracle) (opts : options) (fdsp : block) :
  preserves (agree ft w0) (IoUringEngine.io_uring_create o opts fdsp) (fun _ => True).
Proof.
  pose proof io_uring_submit_agree. pose proof io_uring_add_poll_sqe_agree.
  pose proof io_uring_register_fds_agree. pose proof io_uring_queue_init_agree.
  pose proof io_uring_queue_exit_agree.
  unfold IoUringEngine.io_uring_create, IoUringEngine.err_pthread_join,
    IoUringEngine.err_sem_destroy, IoUringEngine.err_close_eventfd,
    IoUringEngine.err_queue_exit, IoUringEngine.err_free_msgbuf,
    IoUringEngine.err_free_se.
  pres.
Qed.

End CreateFrame.

Section ThreadsFrame.

Context (w0 : world).

Lemma cancel_threads_agree (ta : block) (i : nat) :
  preserves (agree false w0) (ThreadsEngine.cancel_threads ta i) (fun _ => True).
Proof. induction i as [|i IH]; simpl; pres. Qed.

Lemma spawn_threads_agree (o : oracle) (ta fdsp : block) (n i : nat) :
  heap w0 !! ta = None →
  preserves (agree false w0) (ThreadsEngine.spawn_threads o ta fdsp i n) (fun _ => True).
Proof.
  intros Hta. pose proof cancel_threads_agree.
  revert i. induction n as [|n IH]; intros i; simpl; pres.
Qed.

Lemma threads_create_agree (o : oracle) (opts : options) (fdsp : block) :
  preserves (agree false w0) (ThreadsEngine.threads_create o opts fdsp) (fun _ => True).
Proof.
  pose proof spawn_threads_agree.
  unfold ThreadsEngine.threads_create, ThreadsEngine.err_sem_destroy,
    ThreadsEngine.err_free_threads, ThreadsEngine.err_free_msgbuf,
    ThreadsEngine.err_free_se.
  pres.
Qed.

End ThreadsFrame.

Lemma create_agree_heap (b : backend) (w0 : world) (o : oracle) (opts : options)
    (fdsp : block) :
  preserves (agree false w0) (create (ops_of b) o opts fdsp) (fun _ => True).
Proof.
  pose proof select_create_agree. pose proof poll_create_agree.
  pose proof epoll_do_create_agree. pose proof io_uring_create_agree.
  pose proof threads_create_agree.
  destruct b; simpl; unfold map_result; pres.
Qed.

Lemma create_agree_flags (b : backend) (w0 : world) (o : oracle) (opts : options)
    (fdsp : block) :
  b ≠ Threads →
  preserves (agree true w0) (create (ops_of b) o opts fdsp) (fun _ => True).
Proof.
  pose proof select_create_agree. pose proof poll_create_agree.
  pose proof epoll_do_create_agree. pose proof io_uring_create_agree.
  intros Hb. destruct b; [..|done]; simpl; unfold map_result; pres.
Qed.

(** ** The thread-per-descriptor engine switches its descriptors to blocking mode *)

Section Blocking.

Lemma nonblocking_cleared (fl : Z) : nonblocking (Z.land fl (Z.lnot O_NONBLOCK)) = false.
Proof.
  unfold nonblocking.
  rewrite <- Z.land_assoc, (Z.land_comm (Z.lnot _)), Z.land_lnot_diag, Z.land_0_r.
  reflexivity.
Qed.

Lemma all_blocking_same_flags (X : list Z) (w w' : world) :
  fdflags w' = fdflags w → all_blocking X w → all_blocking X w'.
Proof. unfold all_blocking. intros ->. auto. Qed.

Lemma all_blocking_setfl (X : list Z) (fd fl : Z) (w : world) :
  all_blocking X w →
  all_blocking X (log (EvSetFl fd (Z.land fl (Z.lnot O_NONBLOCK)))
                    (set_fdflags (alter (fun _ => Z.land fl (Z.lnot O_NONBLOCK)) fd (fdflags w)) w)).
Proof.
  intros HX fd' fl' Hin. simpl. destruct (decide (fd = fd')) as [<-|Hne].
  - rewrite lookup_alter_eq. destruct (fdflags w !! fd); simpl; [|done].
    intros [= <-]. apply nonblocking_cleared.
  - rewrite lookup_alter_ne by done. by apply HX.
Qed.

Lemma all_blocking_setfl_new (X : list Z) (fd fl : Z) (w : world) :
  all_blocking X w →
  all_blocking (fd :: X)
    (log (EvSetFl fd (Z.land fl (Z.lnot O_NONBLOCK)))
       (set_fdflags (alter (fun _ => Z.land fl (Z.lnot O_NONBLOCK)) fd (fdflags w)) w)).
Proof.
  intros HX fd' fl' [->|Hin]%elem_of_cons.
  - simpl. rewrite lookup_alter_eq. destruct (fdflags w !! fd); simpl; [|done].
    intros [= <-]. apply nonblocking_cleared.
  - exact (all_blocking_setfl X fd fl w HX fd' fl' Hin).
Qed.

Context (X : list Z).

Local Abbreviation K := (all_blocking X).

Lemma blocking_sem_wait_loop (rs : list (Z * Z)) : preserves K (sem_wait_loop rs) (fun _ => True).
Proof.
  induction rs as [|[r e] rs IH]; simpl; [by intros w ?|].
  eapply preserves_bind with (Q := fun _ => True).
  - intros w Hw. split; [|done]. by eapply all_blocking_same_flags.
  - intros _ _. destruct ((r =? -1) && (e =? EINTR)); [done|]. by apply preserves_ret.
Qed.

End Blocking.

(** The spawn loop, started at index [i] with every earlier descriptor
    blocking, ends without error only with all of them blocking. *)
Lemma spawn_threads_blocking (o : oracle) (ta fdsp : block) (xs : list Z) (w0 : world) :
  heap w0 !! fdsp = Some (VInts xs) → heap w0 !! ta = None →
  ∀ (n i : nat) (X : list Z) (w : world),
    agree false w0 w → all_blocking X w →
    match ThreadsEngine.spawn_threads o ta fdsp i n w with
    | Ret None w' => agree false w0 w' ∧ all_blocking (take n (drop i xs) ++ X) w'
    | _ => True
    end.
Proof.
  intros Hfds Hta. induction n as [|n IH]; intros i X w Hw HX.
  { simpl. by split. }
  simpl. unfold bind at 1. unfold load_int at 1.
  unfold bind at 1. unfold fcntl_getfl at 1.
  unfold bind at 1. unfold fcntl_setfl at 1.
  assert (Hload : heap w !! fdsp = Some (VInts xs)) by by apply Hw.
  rewrite Hload. simpl ints_of.
  set (fd := default 0 (xs !! i)).
  set (fl := default (-1) (fdflags w !! fd)).
  set (w1 := log _ _).
  assert (Hw1 : agree false w0 w1).
  { apply agree_log, agree_set_fdflags; [|done]. done. }
  assert (HX1 : all_blocking (fd :: X) w1) by by apply all_blocking_setfl_new.
  unfold bind at 1. unfold pthread_create at 1.
  destruct (pthread_create_ok o i).
  2:{ simpl. unfold bind.
      destruct (ThreadsEngine.cancel_threads ta i w1); done. }
  set (t := fresh _). set (w2 := log _ _).
  assert (Hw2 : agree false w0 w2) by by apply agree_log, agree_set_threads.
  assert (HX2 : all_blocking (fd :: X) w2) by by eapply all_blocking_same_flags.
  unfold bind at 1. unfold store_tid at 1.
  set (w3 := set_heap _ _).
  assert (Hw3 : agree false w0 w3) by by apply agree_alter.
  assert (HX3 : all_blocking (fd :: X) w3) by by eapply all_blocking_same_flags.
  unfold bind at 1.
  pose proof (preserves_sem_wait_loop false w0 (sem_waits o i) w3 Hw3) as Ha.
  pose proof (blocking_sem_wait_loop (fd :: X) (sem_waits o i) w3 HX3) as Hb.
  destruct (sem_wait_loop (sem_waits o i) w3) as [r w4|w4|w4]; [|done..].
  destruct Ha as [Hw4 _], Hb as [HX4 _].
  destruct (r <? 0).
  { unfold bind.
    destruct (load_tid ta i w4) as [t' w5|?|?]; [|done..].
    destruct (pthread_join t' w5) as [? w6|?|?]; [|done..].
    destruct (ThreadsEngine.cancel_threads ta i w6); done. }
  specialize (IH (S i) (fd :: X) w4 Hw4 HX4).
  destruct (ThreadsEngine.spawn_threads o ta fdsp (S i) n w4) as [[e|] w5|w5|w5]; try done.
  destruct IH as [Hw5 HX5]. split; [done|].
  intros fd' fl' Hin. apply HX5.
  rewrite elem_of_app in Hin. rewrite elem_of_app.
  destruct Hin as [Hin|Hin]; [|right; by apply elem_of_cons; right].
  destruct (xs !! i) as [x|] eqn:Hx.
  - rewrite (drop_S _ x) in Hin by done. simpl in Hin.
    apply elem_of_cons in Hin as [->|Hin].
    + right. apply elem_of_cons. by left.
    + by left.
  - rewrite drop_ge in Hin by by apply lookup_ge_None.
    rewrite take_nil in Hin. by apply elem_of_nil in Hin.
Qed.

Lemma threads_create_blocking (o : oracle) (opts : options) (fdsp : block) (w : world)
    (e : ThreadsEngine.threads_engine) (w' : world) (xs : list Z) :
  heap w !! fdsp = Some (VInts xs) →
  ThreadsEngine.threads_create o opts fdsp w = Ret (Created e) w' →
  all_blocking (take (Z.to_nat (num_fds opts)) xs) w'.
Proof.
  intros Hfds. unfold ThreadsEngine.threads_create.
  unfold bind at 1.
  pose proof (preserves_malloc false w (alloc_ok o 0) VStruct w (agree_refl _ _)) as H1.
  destruct (malloc (alloc_ok o 0) VStruct w) as [[te|] w1|w1|w1]; try done.
  destruct H1 as [Hw1 Hte]. unfold bind at 1.
  pose proof (preserves_malloc false w (alloc_ok o 1)
                (VBytes (replicate (Z.to_nat (msg_size opts)) 0)) w1 Hw1) as H2.
  destruct (malloc (alloc_ok o 1) _ w1) as [[mb|] w2|w2|w2]; try done.
  destruct H2 as [Hw2 Hmb]. unfold bind at 1.
  pose proof (preserves_malloc false w (alloc_ok o 2)
                (VTids (replicate (Z.to_nat (num_fds opts)) 0%nat)) w2 Hw2) as H3.
  destruct (malloc (alloc_ok o 2) _ w2) as [[ta|] w3|w3|w3]; try done.
  destruct H3 as [Hw3 Hta]. unfold bind at 1.
  pose proof (preserves_sem_init false w (sem_init_ok o) te w3 Hw3) as H4.
  destruct (sem_init (sem_init_ok o) te w3) as [r w4|w4|w4]; try done.
  destruct H4 as [Hw4 _].
  destruct (r <? 0); [done|].
  unfold bind at 1.
  assert (HX : all_blocking [] w4) by (intros ? ? Hin; by apply elem_of_nil in Hin).
  pose proof (spawn_threads_blocking o ta fdsp xs w Hfds Hta
                (Z.to_nat (num_fds opts)) 0 [] w4 Hw4 HX) as H5.
  destruct (ThreadsEngine.spawn_threads o ta fdsp 0 (Z.to_nat (num_fds opts)) w4)
    as [[err|] w5|w5|w5]; try done.
  destruct H5 as [_ H5]. rewrite drop_0, app_nil_r in H5.
  unfold ret. intros [= _ <-]. exact H5.
Qed.

(** ** C10: [create] does not modify the caller's descriptor array *)

(** C10.  For every backend and every behaviour of the environment,
    whether [create] returns a handle, fails, or never returns, the block
    holding the caller's array [fds] has afterwards exactly the contents it
    had before the call: the engines write only to blocks they allocated
    themselves. *)
Theorem create_keeps_caller_fds (b : backend) (o : oracle) (opts : options)
    (fdsp : block) (w : world) (v : blockval) :
  heap w !! fdsp = Some v →
  heap (final_world (create (ops_of b) o opts fdsp w)) !! fdsp = Some v.
Proof.
  intros Hv.
  pose proof (preserves_final _ _ _ w (create_agree_heap b w o opts fdsp) (agree_refl _ _))
    as [Hheap _].
  by apply Hheap.
Qed.

Lemma create_keeps_caller_fds_witness :
  heap w0 !! 7%nat = Some (VInts [3; 4]) ∧
  heap (final_world (create (ops_of Select) all_ok (opts0 Select false) 7%nat w0)) !! 7%nat
    = Some (VInts [3; 4]).
Proof.
  split; [reflexivity|].
  apply (create_keeps_caller_fds Select all_ok (opts0 Select false) 7%nat w0 (VInts [3; 4])).
  reflexivity.
Defined.

(** ** [iogen_init] sets up the blocking modes *)

Lemma make_pairs_modes (g : iogen) (ok : nat → bool) :
  engine_fds g ≠ iogen_fds g →
  ∀ (n i : nat) (w : world) (es cs : list Z),
    heap w !! engine_fds g = Some (VInts es) →
    heap w !! iogen_fds g = Some (VInts cs) →
    length es = (i + n)%nat → length cs = (i + n)%nat →
    channels_ready es cs i w →
    ∀ w', make_pairs g ok i n w = Ret None w' →
      ∃ es' cs', heap w' !! engine_fds g = Some (VInts es') ∧
                 heap w' !! iogen_fds g = Some (VInts cs') ∧
                 channels_ready es' cs' (i + n) w'.
Proof.
  intros Hne. induction n as [|n IH]; intros i w es cs Hes Hcs Hles Hlcs Hready w'; simpl.
  { unfold ret. intros [= <-]. exists es, cs. by rewrite Nat.add_0_r. }
  destruct (ok i); simpl.
  2:{ unfold socketpair_failed. destruct i as [|j]; [done|].
      unfold bind, load_int, close, free, ret. simpl. done. }
  unfold bind at 1. unfold open_fd at 1. unfold bind at 1. unfold open_fd at 1.
  simpl fdflags.
  set (fd0 := fresh (dom (fdflags w))).
  set (fd1 := fresh (dom (<[fd0 := O_RDWR]> (fdflags w)))).
  assert (Hfd0 : fdflags w !! fd0 = None) by apply not_elem_of_dom, is_fresh.
  assert (Hfd1 : <[fd0 := O_RDWR]> (fdflags w) !! fd1 = None)
    by apply not_elem_of_dom, is_fresh.
  assert (Hfd01 : fd0 ≠ fd1).
  { intros Heq. rewrite <- Heq, lookup_insert_eq in Hfd1. done. }
  assert (Hfd1' : fdflags w !! fd1 = None) by by rewrite lookup_insert_ne in Hfd1.
  unfold bind at 1. unfold store_int at 1. unfold bind at 1. unfold store_int at 1.
  unfold bind at 1. unfold load_int at 1. unfold bind at 1. unfold fcntl_getfl at 1.
  unfold bind at 1. unfold fcntl_setfl at 1. simpl.
  rewrite (lookup_alter_ne _ _ (iogen_fds g) (engine_fds g)) by done.
  rewrite lookup_alter_eq, Hes. simpl.
  rewrite list_lookup_insert_eq by lia. simpl.
  rewrite (lookup_insert_ne _ fd1 fd0) by done. rewrite lookup_insert_eq. simpl.
  intros Hrun.
  eapply (IH (S i) _ (<[i := fd0]> es) (<[i := fd1]> cs)) in Hrun.
  - destruct Hrun as (es' & cs' & ? & ? & Hr). exists es', cs'.
    by rewrite <- Nat.add_succ_comm.
  - simpl. rewrite lookup_alter_ne by done. by rewrite lookup_alter_eq, Hes.
  - simpl. rewrite lookup_alter_eq, lookup_alter_ne by done. by rewrite Hcs.
  - rewrite length_insert. lia.
  - rewrite length_insert. lia.
  - intros j Hj. simpl. destruct (decide (j = i)) as [->|Hji].
    + exists fd0, fd1, (Z.lor O_NONBLOCK O_RDWR), O_RDWR.
      rewrite !list_lookup_insert_eq by lia.
      rewrite lookup_alter_eq, (lookup_insert_ne _ fd1 fd0) by done.
      rewrite lookup_insert_eq. simpl.
      rewrite lookup_alter_ne by done. rewrite lookup_insert_eq. done.
    + destruct (Hready j) as (e & c & fe & fc & He & Hc & Hfe & Hnb & Hfc & Hb); [lia|].
      exists e, c, fe, fc. rewrite !list_lookup_insert_ne by done.
      assert (e ≠ fd0) by congruence. assert (e ≠ fd1) by congruence.
      assert (c ≠ fd0) by congruence. assert (c ≠ fd1) by congruence.
      rewrite !lookup_alter_ne, !lookup_insert_ne by done. done.
Qed.

Lemma iogen_init_modes (o : oracle) (pk : nat → bool) (g0 : iogen) (opts : options)
    (w w' : world) (g : iogen) :
  iogen_init o pk g0 opts w = Ret (g, None) w' →
  ∃ es cs, heap w' !! engine_fds g = Some (VInts es) ∧
           heap w' !! iogen_fds g = Some (VInts cs) ∧
           channels_ready es cs (Z.to_nat (num_fds opts)) w'.
Proof.
  unfold iogen_init. unfold bind at 1. unfold malloc at 1.
  destruct (alloc_ok o 0); unfold bind at 1; unfold malloc at 1;
    destruct (alloc_ok o 1); unfold bind at 1; unfold malloc at 1;
    destruct (alloc_ok o 2); simpl;
    try (unfold bind, free, ret; simpl; discriminate).
  set (ea := fresh (dom (heap w))).
  set (h1 := <[ea := _]> (heap w)).
  set (ia := fresh (dom h1)).
  set (h2 := <[ia := _]> h1).
  set (mb := fresh (dom h2)).
  assert (Hia : h1 !! ia = None) by apply not_elem_of_dom, is_fresh.
  assert (Hmb : h2 !! mb = None) by apply not_elem_of_dom, is_fresh.
  assert (Hne1 : ea ≠ ia).
  { intros Heq. subst h1. rewrite <- Heq, lookup_insert_eq in Hia. done. }
  assert (Hne2 : ia ≠ mb).
  { intros Heq. subst h2. rewrite <- Heq, lookup_insert_eq in Hmb. done. }
  assert (Hne3 : ea ≠ mb).
  { intros Heq. subst h2 h1. rewrite lookup_insert_ne, <- Heq, lookup_insert_eq in Hmb; done. }
  unfold bind.
  match goal with |- context [make_pairs ?g1 pk 0 ?n ?w1] =>
    pose proof (make_pairs_modes g1 pk Hne1 n 0 w1
                  (replicate n 0) (replicate n 0)) as Hpairs;
    destruct (make_pairs g1 pk 0 n w1) as [[e|] w2|w2|w2] eqn:Hrun; try discriminate
  end.
  unfold ret. intros [= <- <-].
  apply Hpairs; simpl; try done.
  - subst h2 h1. rewrite !lookup_insert_ne by done. by rewrite lookup_insert_eq.
  - subst h2. rewrite lookup_insert_ne by done. by rewrite lookup_insert_eq.
  - by rewrite length_replicate.
  - by rewrite length_replicate.
  - intros j Hj. lia.
Qed.

(** ** C7: blocking modes across [create] *)

(** C7, as the code has it.  A successful [iogen_init] leaves, for
    every channel, the engine-side descriptor open in non-blocking mode and
    the generator-side descriptor open in blocking mode.  The engines built
    on [select], [poll], [epoll] and [io_uring] leave the status flags of
    every descriptor that was open before [create] as they were, so that
    stays true.  The thread-per-descriptor engine clears [O_NONBLOCK] on
    each descriptor it is given: after a successful [threads_create] every
    [fds[i]], [i < num_fds], is in blocking mode. *)
Theorem create_blocking_modes :
  (∀ (o : oracle) (pk : nat → bool) (g0 g : iogen) (opts : options) (w w' : world),
     iogen_init o pk g0 opts w = Ret (g, None) w' →
     ∃ es cs, heap w' !! engine_fds g = Some (VInts es) ∧
              heap w' !! iogen_fds g = Some (VInts cs) ∧
              channels_ready es cs (Z.to_nat (num_fds opts)) w') ∧
  (∀ (b : backend) (o : oracle) (opts : options) (fdsp : block) (w : world) (fd fl : Z),
     b ≠ Threads → fdflags w !! fd = Some fl →
     fdflags (final_world (create (ops_of b) o opts fdsp w)) !! fd = Some fl) ∧
  (∀ (o : oracle) (opts : options) (fdsp : block) (w w' : world)
     (e : ThreadsEngine.threads_engine) (xs : list Z) (i : nat) (fd fl : Z),
     heap w !! fdsp = Some (VInts xs) →
     ThreadsEngine.threads_create o opts fdsp w = Ret (Created e) w' →
     (i < Z.to_nat (num_fds opts))%nat → xs !! i = Some fd →
     fdflags w' !! fd = Some fl → nonblocking fl = false).
Proof.
  split; [|split].
  - intros o pk g0 g opts w w'. apply iogen_init_modes.
  - intros b o opts fdsp w fd fl Hb Hfd.
    pose proof (preserves_final _ _ _ w (create_agree_flags b w o opts fdsp Hb)
                  (agree_refl _ _)) as [_ Hflags].
    by apply Hflags.
  - intros o opts fdsp w w' e xs i fd fl Hfds Hrun Hi Hx.
    apply (threads_create_blocking o opts fdsp w e w' xs Hfds Hrun).
    apply list_elem_of_lookup. exists i. by rewrite lookup_take_lt.
Qed.

Lemma create_blocking_modes_witness :
  (∃ es cs, heap (final_world generator_init) !! 0%nat = Some (VInts es) ∧
            heap (final_world generator_init) !! 1%nat = Some (VInts cs) ∧
            channels_ready es cs 2 (final_world generator_init)) ∧
  fdflags (final_world (create (ops_of Epoll) all_ok (opts0 Epoll false) 7%nat w0)) !! 3
    = Some (Z.lor O_RDWR O_NONBLOCK) ∧
  (∀ fl, fdflags (final_world threads_created) !! 4 = Some fl → nonblocking fl = false).
Proof.
  destruct create_blocking_modes as (Hinit & Hevent & Hthreads). split; [|split].
  - apply (Hinit all_ok (fun _ => true) stack_garbage (Iogen 0%nat 1%nat 2 2%nat 1 true 42)
             (Options Select 1 2 1 false 30) empty_world (final_world generator_init)).
    reflexivity.
  - apply Hevent; [discriminate|reflexivity].
  - destruct threads_created as [[e|msg] w'|w'|w'] eqn:Hrun; try discriminate Hrun.
    intros fl.
    apply (Hthreads all_ok (opts0 Threads false) 7%nat w0 w' e [3; 4] 1%nat 4 fl);
      [reflexivity|exact Hrun|simpl; lia|reflexivity].
Defined.

(** C7 as stated fails: [threads_create] is given descriptor 3 in
    non-blocking mode ([O_RDWR | O_NONBLOCK]) and leaves it, and
    descriptor 4, in blocking mode ([O_RDWR]). *)
Lemma threads_create_makes_engine_side_blocking :
  fdflags w0 !! 3 = Some (Z.lor O_RDWR O_NONBLOCK) ∧
  is_created <$> returned threads_created = Some true ∧
  fdflags (final_world threads_created) !! 3 = Some O_RDWR ∧
  fdflags (final_world threads_created) !! 4 = Some O_RDWR.
Proof. vm_compute. done. Qed.

(** ** C8: the descriptors [create] opens *)

Lemma count_opens_app (e1 e2 : list event) :
  count_opens (e1 ++ e2) = (count_opens e1 + count_opens e2)%nat.
Proof. unfold count_opens. by rewrite List.filter_app, length_app. Qed.

Lemma opens_le_ret {A} (a : A) (k : nat) : opens_le (ret a) k.
Proof. apply emits_ret. unfold count_opens. simpl. lia. Qed.

Lemma opens_le_hang {A} (k : nat) : opens_le (@hang A) k.
Proof. apply emits_hang. unfold count_opens. simpl. lia. Qed.

Lemma opens_le_undefined {A} (k : nat) : opens_le (@undefined A) k.
Proof. apply emits_undefined. unfold count_opens. simpl. lia. Qed.

Lemma opens_le_bind {A B} (m : M A) (f : A → M B) (k1 k2 : nat) :
  opens_le m k1 → (∀ a, opens_le (f a) k2) → opens_le (bind m f) (k1 + k2).
Proof.
  intros Hm Hf. eapply emits_bind; [exact Hm|exact Hf|..]; simpl.
  - intros. lia.
  - intros e1 e2 ? ?. rewrite count_opens_app. lia.
Qed.

Lemma opens_le_bind0 {A B} (m : M A) (f : A → M B) (k : nat) :
  opens_le m 0 → (∀ a, opens_le (f a) k) → opens_le (bind m f) k.
Proof. apply (opens_le_bind m f 0 k). Qed.

Lemma opens_le_bind1 {A B} (m : M A) (f : A → M B) (k : nat) :
  opens_le m 1 → (∀ a, opens_le (f a) k) → opens_le (bind m f) (S k).
Proof. apply (opens_le_bind m f 1 k). Qed.

Lemma opens_le_map_result {A B} (f : A → B) (m : M (create_result A)) (k : nat) :
  opens_le m k → opens_le (map_result f m) k.
Proof.
  intros Hm. unfold map_result. rewrite <- (Nat.add_0_r k).
  apply opens_le_bind; [done|]. intros a. apply opens_le_ret.
Qed.

(** A computation whose world differs from the initial one by a log entry
    that is not an [EvOpen], or not at all. *)
Lemma opens_le_silent {A} (m : M A) :
  (∀ w, trace (final_world (m w)) = trace w ∨
        ∃ e, is_open e = false ∧ trace (final_world (m w)) = trace w ++ [e]) →
  opens_le m 0.
Proof.
  intros H w. destruct (H w) as [Hw|(e & He & Hw)].
  - exists []. rewrite Hw, app_nil_r. split; [done|]. unfold count_opens. simpl. lia.
  - exists [e]. split; [done|]. unfold count_opens. simpl. rewrite He. simpl. lia.
Qed.

Ltac one_entry := right; refine (ex_intro _ _ (conj _ eq_refl)); reflexivity.

Lemma opens_le_emit (e : event) : is_open e = false → opens_le (emit e) 0.
Proof. intros He. apply opens_le_silent. intros w. right. by exists e. Qed.

Lemma opens_le_malloc (ok : bool) (init : blockval) : opens_le (malloc ok init) 0.
Proof.
  apply opens_le_silent. intros w. unfold malloc. destruct ok; [one_entry|by left].
Qed.

Lemma opens_le_free (b : block) : opens_le (free b) 0.
Proof. apply opens_le_silent. intros w. one_entry. Qed.

Lemma opens_le_load_int (p : block) (i : nat) : opens_le (load_int p i) 0.
Proof. apply opens_le_silent. intros w. by left. Qed.

Lemma opens_le_load_ints (p : block) (n : nat) : opens_le (load_ints p n) 0.
Proof. apply opens_le_silent. intros w. by left. Qed.

Lemma opens_le_load_pollfd (p : block) (i : nat) : opens_le (load_pollfd p i) 0.
Proof. apply opens_le_silent. intros w. by left. Qed.

Lemma opens_le_load_tid (p : block) (i : nat) : opens_le (load_tid p i) 0.
Proof. apply opens_le_silent. intros w. by left. Qed.

Lemma opens_le_store_int (p : block) (i : nat) (v : Z) : opens_le (store_int p i v) 0.
Proof. apply opens_le_silent. intros w. by left. Qed.

Lemma opens_le_store_ints (p : block) (vs : list Z) (off : nat) :
  opens_le (store_ints p off vs) 0.
Proof.
  revert off. induction vs as [|v vs IH]; intros off; simpl; [apply opens_le_ret|].
  apply opens_le_bind0; [apply opens_le_store_int|]. intros _. apply IH.
Qed.

Lemma opens_le_store_pollfd (p : block) (i : nat) (v : pollfd) :
  opens_le (store_pollfd p i v) 0.
Proof. apply opens_le_silent. intros w. by left. Qed.

Lemma opens_le_store_tid (p : block) (i : nat) (t : tid) : opens_le (store_tid p i t) 0.
Proof. apply opens_le_silent. intros w. by left. Qed.

Lemma opens_le_open_fd (ok : bool) (flags : Z) : opens_le (open_fd ok flags) 1.
Proof.
  intros w. unfold open_fd. destruct ok; simpl.
  - eexists [_]. split; [done|]. unfold count_opens. simpl. lia.
  - exists []. rewrite app_nil_r. split; [done|]. unfold count_opens. simpl. lia.
Qed.

Lemma opens_le_close (fd : Z) : opens_le (close fd) 0.
Proof. apply opens_le_silent. intros w. one_entry. Qed.

Lemma opens_le_fcntl_getfl (fd : Z) : opens_le (fcntl_getfl fd) 0.
Proof. apply opens_le_silent. intros w. by left. Qed.

Lemma opens_le_fcntl_setfl (fd flags : Z) : opens_le (fcntl_setfl fd flags) 0.
Proof. apply opens_le_silent. intros w. one_entry. Qed.

Lemma opens_le_sem_init (ok : bool) (b : block) : opens_le (sem_init ok b) 0.
Proof.
  apply opens_le_silent. intros w. unfold sem_init. destruct ok; [one_entry|by left].
Qed.

Lemma opens_le_sem_destroy (b : block) : opens_le (sem_destroy b) 0.
Proof. by apply opens_le_emit. Qed.

Lemma opens_le_pthread_create (ok : bool) (ctl : option Z) :
  opens_le (pthread_create ok ctl) 0.
Proof.
  apply opens_le_silent. intros w. unfold pthread_create. destruct ok; [one_entry|by left].
Qed.

Lemma opens_le_pthread_cancel (t : tid) : opens_le (pthread_cancel t) 0.
Proof. apply opens_le_silent. intros w. one_entry. Qed.

Lemma opens_le_pthread_join (t : tid) : opens_le (pthread_join t) 0.
Proof.
  apply opens_le_silent. intros w. right. exists (EvJoin t). split; [done|].
  unfold pthread_join. by destruct (threads w !! t) as [[? []]|].
Qed.

Lemma opens_le_sem_wait_loop (rs : list (Z * Z)) : opens_le (sem_wait_loop rs) 0.
Proof.
  induction rs as [|[r e] rs IH]; simpl; [apply opens_le_hang|].
  apply opens_le_bind0; [by apply opens_le_emit|]. intros _.
  destruct ((r =? -1) && (e =? EINTR)); [done|apply opens_le_ret].
Qed.

Create HintDb opens.

#[local] Hint Resolve opens_le_ret opens_le_hang opens_le_undefined opens_le_malloc
  opens_le_free opens_le_load_int opens_le_load_ints opens_le_load_pollfd opens_le_load_tid
  opens_le_store_int opens_le_store_ints opens_le_store_pollfd opens_le_store_tid
  opens_le_close opens_le_fcntl_getfl opens_le_fcntl_setfl opens_le_sem_init
  opens_le_sem_destroy opens_le_pthread_create opens_le_pthread_cancel opens_le_pthread_join
  opens_le_sem_wait_loop : opens.

#[local] Hint Extern 1 (opens_le (emit _) 0) => (apply opens_le_emit; reflexivity) : opens.

Ltac opens_step :=
  first
    [ apply opens_le_ret
    | apply opens_le_bind0; [ solve [eauto with opens] | intros ? ]
    | apply opens_le_bind1; [ solve [eauto with opens] | intros ? ]
    | match goal with
      | |- opens_le (if ?c then _ else _) _ => destruct c
      | |- opens_le (match ?x with _ => _ end) _ => destruct x
      end ].

Ltac opens := repeat opens_step; eauto with opens.

Lemma select_create_opens (o : oracle) (opts : options) (fdsp : block) :
  opens_le (SelectEngine.select_create o opts fdsp) 1.
Proof.
  pose proof opens_le_open_fd.
  unfold SelectEngine.select_create, SelectEngine.err_pthread_join,
    SelectEngine.err_sem_destroy, SelectEngine.err_close_eventfd,
    SelectEngine.err_free_fds, SelectEngine.err_free_msgbuf, SelectEngine.err_free_se.
  opens.
Qed.

Lemma poll_register_fds_opens (pa fdsp : block) (n i : nat) :
  opens_le (PollEngine.register_fds pa fdsp i n) 0.
Proof. revert i. induction n as [|n IH]; intros i; simpl; opens. Qed.

Lemma poll_create_opens (o : oracle) (opts : options) (fdsp : block) :
  opens_le (PollEngine.poll_create o opts fdsp) 1.
Proof.
  pose proof opens_le_open_fd. pose proof poll_register_fds_opens.
  unfold PollEngine.poll_create, PollEngine.err_pthread_join,
    PollEngine.err_sem_destroy, PollEngine.err_close_eventfd,
    PollEngine.err_free_pollfds, PollEngine.err_free_msgbuf, PollEngine.err_free_se.
  opens.
Qed.

Lemma epoll_ctl_add_opens (o : oracle) (ep fd events : Z) :
  opens_le (EpollEngine.epoll_ctl_add o ep fd events) 0.
Proof. unfold EpollEngine.epoll_ctl_add. opens. Qed.

Lemma epoll_register_fds_opens (o : oracle) (ep events : Z) (fdsp : block) (n i : nat) :
  opens_le (EpollEngine.register_fds o ep events fdsp i n) 0.
Proof.
  pose proof epoll_ctl_add_opens.
  revert i. induction n as [|n IH]; intros i; simpl; opens.
Qed.

Lemma epoll_do_create_opens (o : oracle) (opts : options) (fdsp : block) :
  opens_le (EpollEngine.epoll_do_create o opts fdsp) 2.
Proof.
  pose proof opens_le_open_fd. pose proof epoll_ctl_add_opens.
  pose proof epoll_register_fds_opens.
  unfold EpollEngine.epoll_do_create, EpollEngine.err_pthread_join,
    EpollEngine.err_sem_destroy, EpollEngine.err_close_eventfd,
    EpollEngine.err_close_epfd, EpollEngine.err_free_msgbuf, EpollEngine.err_free_se.
  opens.
Qed.

Lemma io_uring_submit_opens (o : oracle) (pending : nat) :
  opens_le (IoUringEngine.io_uring_submit o pending) 0.
Proof. unfold IoUringEngine.io_uring_submit. opens. Qed.

Lemma io_uring_add_poll_sqe_opens (o : oracle) (mask fd : Z) (pending : nat) :
  opens_le (IoUringEngine.io_uring_add_poll_sqe o mask fd pending) 0.
Proof.
  pose proof io_uring_submit_opens.
  unfold IoUringEngine.io_uring_add_poll_sqe. opens.
Qed.

Lemma io_uring_register_fds_opens (o : oracle) (mask : Z) (fdsp : block) (n i p : nat) :
  opens_le (IoUringEngine.register_fds o mask fdsp i n p) 0.
Proof.
  pose proof io_uring_add_poll_sqe_opens.
  revert i p. induction n as [|n IH]; intros i p; simpl; opens.
Qed.

Lemma io_uring_queue_init_opens (o : oracle) (pe : block) :
  opens_le (IoUringEngine.io_uring_queue_init o pe) 1.
Proof.
  pose proof opens_le_open_fd.
  unfold IoUringEngine.io_uring_queue_init. opens.
Qed.

Lemma io_uring_queue_exit_opens (pe : block) (rfd : Z) :
  opens_le (IoUringEngine.io_uring_queue_exit pe rfd) 0.
Proof. unfold IoUringEngine.io_uring_queue_exit. opens. Qed.

Lemma io_uring_create_opens (o : oracle) (opts : options) (fdsp : block) :
  opens_le (IoUringEngine.io_uring_create o opts fdsp) 2.
Proof.
  pose proof opens_le_open_fd. pose proof io_uring_submit_opens.
  pose proof io_uring_add_poll_sqe_opens. pose proof io_uring_register_fds_opens.
  pose proof io_uring_queue_init_opens. pose proof io_uring_queue_exit_opens.
  unfold IoUringEngine.io_uring_create, IoUringEngine.err_pthread_join,
    IoUringEngine.err_sem_destroy, IoUringEngine.err_close_eventfd,
    IoUringEngine.err_queue_exit, IoUringEngine.err_free_msgbuf,
    IoUringEngine.err_free_se.
  opens.
Qed.

Lemma cancel_threads_opens (ta : block) (i : nat) :
  opens_le (ThreadsEngine.cancel_threads ta i) 0.
Proof. induction i as [|i IH]; simpl; opens. Qed.

Lemma spawn_threads_opens (o : oracle) (ta fdsp : block) (n i : nat) :
  opens_le (ThreadsEngine.spawn_threads o ta fdsp i n) 0.
Proof.
  pose proof cancel_threads_opens.
  revert i. induction n as [|n IH]; intros i; simpl; opens.
Qed.

Lemma threads_create_opens (o : oracle) (opts : options) (fdsp : block) :
  opens_le (ThreadsEngine.threads_create o opts fdsp) 0.
Proof.
  pose proof spawn_threads_opens.
  unfold ThreadsEngine.threads_create, ThreadsEngine.err_sem_destroy,
    ThreadsEngine.err_free_threads, ThreadsEngine.err_free_msgbuf,
    ThreadsEngine.err_free_se.
  opens.
Qed.

(** C8, as the code has it.  Whatever the environment does, one call of
    [create] opens at most one descriptor for the [select] and [poll]
    engines (the control eventfd), none for the thread-per-descriptor
    engine, and at most two for the [epoll] and [io_uring] engines: the
    descriptor of the notification primitive itself ([epoll_create1], the
    ring of [io_uring_queue_init]) and the control eventfd. *)
Theorem create_opens_at_most (b : backend) (o : oracle) (opts : options)
    (fdsp : block) (w : world) :
  (count_opens (emitted w (final_world (create (ops_of b) o opts fdsp w))) ≤ max_opens b)%nat.
Proof.
  apply (emits_emitted (create (ops_of b) o opts fdsp)
           (fun evs => (count_opens evs ≤ max_opens b)%nat) w).
  change (opens_le (create (ops_of b) o opts fdsp) (max_opens b)).
  destruct b; simpl; apply opens_le_map_result;
    auto using select_create_opens, poll_create_opens, epoll_do_create_opens,
      io_uring_create_opens, threads_create_opens.
Qed.

(** C8 as stated fails: a successful [epoll_do_create] opens two
    descriptors, the epoll descriptor 5 and the eventfd 6, and both are
    open when it returns. *)
Lemma epoll_create_opens_two_descriptors :
  is_created <$> returned (create (ops_of Epoll) all_ok (opts0 Epoll false) 7%nat w0)
    = Some true ∧
  List.filter is_open
    (emitted w0 (final_world (create (ops_of Epoll) all_ok (opts0 Epoll false) 7%nat w0)))
    = [EvOpen 5; EvOpen 6] ∧
  elements (dom (fdflags (final_world
     (create (ops_of Epoll) all_ok (opts0 Epoll false) 7%nat w0))) ∖ dom (fdflags w0))
    = [5; 6].
Proof. vm_compute. done. Qed.

(** ** C2: shutdown *)

(** Bring a trace built by successive [log]s into the form [trace w ++ _]. *)
Ltac trace_of_run :=
  unfold emitted; simpl; rewrite <- ?app_assoc; simpl; rewrite drop_app_length.


















(** ** C1: what the workers do with a short read *)

(** The handles used below are the ones [create] returns in [w0]. *)
Lemma handles_as_created :
  returned select_created = Some (Created se0) ∧
  returned (PollEngine.poll_create all_ok (opts0 Poll false) 7%nat w0) = Some (Created pe0) ∧
  returned (EpollEngine.epoll_do_create all_ok (opts0 Epoll false) 7%nat w0)
    = Some (Created ee0) ∧
  returned (IoUringEngine.io_uring_create all_ok (opts0 IoUring false) 7%nat w0)
    = Some (Created ue0) ∧
  returned threads_created = Some (Created te0).
Proof. vm_compute. done. Qed.

(** C1, evaluated where the code departs from it.  The message size is
    4, the buffer holds four zero bytes, the data descriptor 3 is reported
    readable and [read] delivers only the two bytes 7, 7.  The workers of
    the [select], [poll], [epoll] and [io_uring] engines test
    [read(...) <= 0]; they do not skip the short read but write four bytes
    back, two of them stale.  The worker of the thread-per-descriptor
    engine tests [ret != msg_size] and skips it. *)
Theorem short_read_is_echoed :
  emitted (final_world select_created)
    (final_world (SelectEngine.select_scan se0 short_wakeup 0 3 1 (final_world select_created)))
    = [EvRead 3 4 2; EvWrite 3 [7; 7; 0; 0]] ∧
  emitted poll_short_world
    (final_world (PollEngine.poll_scan pe0 short_wakeup 0 3 1 poll_short_world))
    = [EvRead 3 4 2; EvWrite 3 [7; 7; 0; 0]] ∧
  emitted epoll_world
    (final_world (EpollEngine.epoll_scan ee0 short_wakeup 0 [3] epoll_world))
    = [EvRead 3 4 2; EvWrite 3 [7; 7; 0; 0]] ∧
  emitted io_uring_world
    (final_world (IoUringEngine.io_uring_scan all_ok ue0 short_wakeup 0 [3] 0 io_uring_world))
    = [EvRead 3 4 2; EvWrite 3 [7; 7; 0; 0]; EvPollSqe 3 1] ∧
  emitted (final_world threads_created)
    (final_world (ThreadsEngine.threads_fd_loop te0 3 [Some [7; 7]] (final_world threads_created)))
    = [EvRead 3 4 2].
Proof. vm_compute. done. Qed.

(** The test the four event workers apply: any read that returns a
    positive count is echoed with [msg_size] bytes of the buffer. *)
Lemma epoll_scan_echoes_any_positive_read (pe : EpollEngine.epoll_engine) (wk : wakeup)
    (i : nat) (fd : Z) (w : world) :
  fd ≠ EpollEngine.efd pe →
  0 < read_ret (EpollEngine.ee_msg_size pe) (wk_read wk i) →
  ∃ bytes, emitted w (final_world (EpollEngine.epoll_scan pe wk i [fd] w))
           = [EvRead fd (EpollEngine.ee_msg_size pe)
                (read_ret (EpollEngine.ee_msg_size pe) (wk_read wk i));
              EvWrite fd bytes].
Proof.
  intros Hfd Hpos. simpl. apply Z.eqb_neq in Hfd. rewrite Hfd.
  unfold bind at 1. unfold sys_read at 1.
  assert (Hle : (read_ret (EpollEngine.ee_msg_size pe) (wk_read wk i) <=? 0) = false)
    by (apply Z.leb_gt; lia).
  rewrite Hle. unfold bind, sys_write, ret. simpl.
  eexists. by trace_of_run.
Qed.

(** The thread-per-descriptor worker echoes exactly the complete reads. *)
Lemma threads_fd_loop_skips_incomplete (te : ThreadsEngine.threads_engine) (fd : Z)
    (r : option (list Z)) (w : world) :
  read_ret (ThreadsEngine.te_msg_size te) r ≠ ThreadsEngine.te_msg_size te →
  emitted w (final_world (ThreadsEngine.threads_fd_loop te fd [r] w))
  = [EvRead fd (ThreadsEngine.te_msg_size te) (read_ret (ThreadsEngine.te_msg_size te) r)].
Proof.
  intros Hne. simpl. unfold bind at 1. unfold sys_read at 1.
  apply Z.eqb_neq in Hne. rewrite Hne. simpl. by trace_of_run.
Qed.

(** ** C4: unwinding a failed [create] *)

(** C4, evaluated where the code departs from it.  When every step of
    [create] succeeds and the handshake [sem_wait] then fails (returns [-1]
    with [errno = EINVAL]), each backend goes to its unwind label and calls
    [pthread_join] on a worker that is inside its loop and has not been
    asked to stop: the control descriptor has not been written, the thread
    has not been cancelled.  [create] never returns; it reports no error
    and releases nothing. *)
Theorem create_hangs_when_handshake_fails (b : backend) :
  let run := create (ops_of b) sem_wait_fails (opts0 b false) 7%nat w0 in
  run = Hang (final_world run) ∧
  last (emitted w0 (final_world run)) = Some (EvJoin 0%nat) ∧
  List.filter (fun e => is_ctl_write e || is_cancel e || is_release e)
    (emitted w0 (final_world run)) = [].
Proof. destruct b; vm_compute; done. Qed.

(** At every earlier failure the unwind labels do what the claim says:
    [create] returns the error and has released, in reverse order, what it
    had acquired. *)
Lemma create_unwinds_early_failures (b : backend) :
  forallb (fun o => unwound w0 (create (ops_of b) o (opts0 b false) 7%nat w0))
    (early_failures b) = true.
Proof. destruct b; vm_compute; reflexivity. Qed.

(** Shutdown does first what the failure path omits: [destroy] after a
    successful [create] returns and leaves the heap and the descriptor
    table as they were before [create]. *)
Lemma create_then_destroy_returns (b : backend) :
  ∃ (e : engine_handle) (w1 w2 : world),
    create (ops_of b) all_ok (opts0 b false) 7%nat w0 = Ret (Created e) w1 ∧
    destroy (ops_of b) e w1 = Ret tt w2 ∧
    heap w2 = heap w0 ∧ dom (fdflags w2) = dom (fdflags w0) ∧ threads w2 = threads w0.
Proof.
  destruct b; eexists; eexists; eexists;
    (split; [vm_compute; reflexivity|]); (split; [vm_compute; reflexivity|]);
    vm_compute; done.
Qed.

(** ** C5: exclusive wake-up on a backend without it *)

(** The option loop only writes to standard error. *)
Lemma parse_loop_only_logs (args : list opt) :
  ∀ (opts : options) (w : world),
    ∃ r w', parse_loop opts args w = Ret r w' ∧
            heap w' = heap w ∧ fdflags w' = fdflags w ∧ threads w' = threads w.
Proof.
  induction args as [|a args IH]; intros opts w; simpl.
  { exists (Some opts), w. by unfold ret. }
  destruct a; simpl;
    repeat match goal with
           | |- context [match ?x with _ => _ end] => destruct x
           | |- context [if ?x then _ else _] => destruct x
           end;
    try apply IH; unfold bind, usage, emit, ret; simpl; eauto 10.
Qed.




(** ** C6: the round-trip counter *)

(** [iogen_init] does not assign [num_ios]: the counter keeps whatever
    the caller's structure held. *)
Lemma iogen_init_keeps_num_ios (o : oracle) (pk : nat → bool) (g0 : iogen) (opts : options)
    (w w' : world) (g : iogen) (e : option string) :
  iogen_init o pk g0 opts w = Ret (g, e) w' → num_ios g = num_ios g0.
Proof.
  unfold iogen_init. unfold bind at 1. unfold malloc at 1.
  destruct (alloc_ok o 0); unfold bind at 1; unfold malloc at 1;
    destruct (alloc_ok o 1); unfold bind at 1; unfold malloc at 1;
    destruct (alloc_ok o 2); simpl;
    try (unfold bind, free, ret; simpl; by inversion 1).
  unfold bind.
  match goal with |- context [make_pairs ?g ?ok ?i ?n ?w1] =>
    destruct (make_pairs g ok i n w1) end; try done.
  unfold ret. by inversion 1.
Qed.

Lemma count_draws_app (e1 e2 : list event) :
  count_draws (e1 ++ e2) = count_draws e1 + count_draws e2.
Proof. unfold count_draws. rewrite List.filter_app, length_app. lia. Qed.

(** The loop adds one to the counter, modulo [2^64], for every completed
    round trip, that is, for every value it takes from [random_r]. *)
Lemma iogen_loop_counts (rounds : list round) :
  ∀ (g : iogen) (fd : Z) (w : world) (out : outcome iogen),
    out = iogen_loop g fd rounds w →
    ∃ evs, trace (final_world out) = trace w ++ evs ∧
           ∀ g' w', out = Ret g' w' →
                    num_ios g' mod ULONG_MODULUS
                    = (num_ios g + count_draws evs) mod ULONG_MODULUS.
Proof.
  induction rounds as [|r rounds IH]; intros g fd w out Hout; simpl in Hout.
  { subst out. exists []. rewrite app_nil_r. split; [done|]. by intros ? ?. }
  destruct (stop_head r).
  { subst out. exists []. rewrite app_nil_r. split; [done|].
    unfold ret. intros ? ? [= <- <-]. by rewrite Z.add_0_r. }
  unfold bind at 1 in Hout. unfold load_int at 1 in Hout.
  unfold bind at 1 in Hout. unfold sys_write at 1 in Hout.
  destruct (stop_after_write r).
  { subst out. eexists [_]. split; [done|].
    unfold ret. intros ? ? [= <- <-]. by rewrite Z.add_0_r. }
  destruct (negb (write_ret r =? g_msg_size g)).
  { subst out. eexists [_; _]. unfold bind, emit, ret. simpl. rewrite <- app_assoc.
    split; [done|]. intros ? ? [= <- <-]. by rewrite Z.add_0_r. }
  unfold bind at 1 in Hout. unfold load_int at 1 in Hout.
  unfold bind at 1 in Hout. unfold sys_read at 1 in Hout.
  destruct (stop_after_read r).
  { subst out. eexists [_; _]. simpl. rewrite <- app_assoc.
    split; [done|]. unfold ret. intros ? ? [= <- <-]. by rewrite Z.add_0_r. }
  cbv beta in Hout.
  destruct (negb (read_ret (g_msg_size g) (read_data r) =? g_msg_size g)).
  { subst out. eexists [_; _; _]. unfold bind, emit, ret. simpl. rewrite <- !app_assoc.
    split; [done|]. intros ? ? [= <- <-]. by rewrite Z.add_0_r. }
  unfold bind at 1 in Hout. unfold emit at 1 in Hout.
  match type of Hout with _ = iogen_loop ?g1 ?fd1 rounds ?w1 =>
    destruct (IH g1 fd1 w1 out Hout) as (evs & Hevs & Hcount) end.
  eexists ([_; _; EvRandom (random_val r)] ++ evs). split.
  { rewrite Hevs. simpl. by rewrite <- !app_assoc. }
  intros g' w' Hrun. rewrite (Hcount g' w' Hrun). simpl num_ios.
  rewrite count_draws_app. change (count_draws [_; _; EvRandom _]) with 1.
  rewrite Zplus_mod_idemp_l. f_equal. lia.
Qed.

(** C6, evaluated where the code departs from it.  [main] declares
    [struct iogen iogen] without an initialiser and [iogen_init] assigns
    every field except [num_ios].  With 42 left in that place by the stack,
    a run that completes two round trips ends with the counter at 44 and
    reports 44 as Total Roundtrips. *)
Theorem counter_starts_at_stack_garbage :
  num_ios stack_garbage = 42 ∧
  num_ios <$> returned generator_run = Some 44 ∧
  reported (trace (final_world generator_run)) = [44] ∧
  count_draws (trace (final_world generator_run)) = 2.
Proof. vm_compute. done. Qed.

(** ** C9: the channel of each round trip *)







(** ** C3: the start-up handshake *)

(** *** Every worker's program posts once, first *)

Lemma quiet_ret {A} (a : A) : quiet (ret a).
Proof. by apply emits_ret. Qed.

Lemma quiet_hang {A} : quiet (@hang A).
Proof. by apply emits_hang. Qed.

Lemma quiet_bind {A B} (m : M A) (k : A → M B) :
  quiet m → (∀ a, quiet (k a)) → quiet (bind m k).
Proof.
  intros Hm Hk. eapply emits_bind; [exact Hm|exact Hk|..]; simpl; [done|].
  intros e1 e2 H1 H2. by rewrite forallb_app, H1, H2.
Qed.

Lemma quiet_silent {A} (m : M A) :
  (∀ w, trace (final_world (m w)) = trace w ∨
        ∃ e, is_post e = false ∧ trace (final_world (m w)) = trace w ++ [e]) →
  quiet m.
Proof.
  intros H w. destruct (H w) as [Hw|(e & He & Hw)].
  - exists []. by rewrite Hw, app_nil_r.
  - exists [e]. split; [done|]. simpl. by rewrite He.
Qed.

Lemma quiet_emit (e : event) : is_post e = false → quiet (emit e).
Proof. intros He. apply quiet_silent. intros w. right. by exists e. Qed.

Lemma quiet_load_int (p : block) (i : nat) : quiet (load_int p i).
Proof. apply quiet_silent. intros w. by left. Qed.

Lemma quiet_load_pollfd (p : block) (i : nat) : quiet (load_pollfd p i).
Proof. apply quiet_silent. intros w. by left. Qed.

Lemma quiet_store_pollfd (p : block) (i : nat) (v : pollfd) : quiet (store_pollfd p i v).
Proof. apply quiet_silent. intros w. by left. Qed.

Lemma quiet_sys_read (fd : Z) (buf : block) (len : Z) (r : option (list Z)) :
  quiet (sys_read fd buf len r).
Proof. apply quiet_silent. intros w. one_entry. Qed.

Lemma quiet_read_ctl (fd : Z) (r : option (list Z)) : quiet (read_ctl fd r).
Proof. apply quiet_silent. intros w. one_entry. Qed.

Lemma quiet_sys_write (fd : Z) (buf : block) (len : Z) : quiet (sys_write fd buf len).
Proof. apply quiet_silent. intros w. one_entry. Qed.

Create HintDb quiet.

#[local] Hint Resolve quiet_ret quiet_hang quiet_load_int quiet_load_pollfd
  quiet_store_pollfd quiet_sys_read quiet_read_ctl quiet_sys_write : quiet.

#[local] Hint Extern 1 (quiet (emit _)) => (apply quiet_emit; reflexivity) : quiet.

Ltac quiet_step :=
  first
    [ apply quiet_ret
    | apply quiet_bind; [ solve [eauto with quiet] | intros ? ]
    | match goal with
      | |- quiet (if ?c then _ else _) => destruct c
      | |- quiet (match ?x with _ => _ end) => destruct x
      end ].

Ltac quiet := repeat quiet_step; eauto with quiet.

Lemma quiet_select_scan (se : SelectEngine.select_engine) (wk : wakeup) (n : nat) :
  ∀ (i : nat) (r : Z), quiet (SelectEngine.select_scan se wk i n r).
Proof. induction n as [|n IH]; intros i r; simpl; quiet. Qed.

Lemma quiet_select_loop (se : SelectEngine.select_engine) (nfds : Z) (wks : list wakeup) :
  quiet (SelectEngine.select_loop se nfds wks).
Proof.
  pose proof quiet_select_scan.
  induction wks as [|wk wks IH]; simpl; quiet.
Qed.

Lemma quiet_poll_scan (pe : PollEngine.poll_engine) (wk : wakeup) (n : nat) :
  ∀ (i : nat) (r : Z), quiet (PollEngine.poll_scan pe wk i n r).
Proof. induction n as [|n IH]; intros i r; simpl; quiet. Qed.

Lemma quiet_set_revents (pa : block) (wk : wakeup) (n : nat) :
  ∀ i : nat, quiet (PollEngine.set_revents pa wk i n).
Proof. induction n as [|n IH]; intros i; simpl; quiet. Qed.

Lemma quiet_poll_loop (pe : PollEngine.poll_engine) (wks : list wakeup) :
  quiet (PollEngine.poll_loop pe wks).
Proof.
  pose proof quiet_poll_scan. pose proof quiet_set_revents.
  induction wks as [|wk wks IH]; simpl; quiet.
Qed.

Lemma quiet_epoll_scan (pe : EpollEngine.epoll_engine) (wk : wakeup) (evs : list Z) :
  ∀ i : nat, quiet (EpollEngine.epoll_scan pe wk i evs).
Proof. induction evs as [|fd evs IH]; intros i; simpl; quiet. Qed.

Lemma quiet_epoll_loop (pe : EpollEngine.epoll_engine) (wks : list wakeup) :
  quiet (EpollEngine.epoll_loop pe wks).
Proof.
  pose proof quiet_epoll_scan.
  induction wks as [|wk wks IH]; simpl; quiet.
Qed.

Lemma quiet_io_uring_submit (o : oracle) (pending : nat) :
  quiet (IoUringEngine.io_uring_submit o pending).
Proof. unfold IoUringEngine.io_uring_submit. quiet. Qed.

Lemma quiet_io_uring_add_poll_sqe (o : oracle) (mask fd : Z) (pending : nat) :
  quiet (IoUringEngine.io_uring_add_poll_sqe o mask fd pending).
Proof.
  pose proof quiet_io_uring_submit.
  unfold IoUringEngine.io_uring_add_poll_sqe. quiet.
Qed.

Lemma quiet_io_uring_scan (o : oracle) (pe : IoUringEngine.io_uring_engine) (wk : wakeup)
    (cqes : list Z) :
  ∀ (i p : nat), quiet (IoUringEngine.io_uring_scan o pe wk i cqes p).
Proof.
  pose proof quiet_io_uring_add_poll_sqe.
  induction cqes as [|fd cqes IH]; intros i p; simpl; quiet.
Qed.

Lemma quiet_io_uring_loop (o : oracle) (pe : IoUringEngine.io_uring_engine)
    (wks : list wakeup) :
  ∀ p : nat, quiet (IoUringEngine.io_uring_loop o pe wks p).
Proof.
  pose proof quiet_io_uring_scan.
  induction wks as [|wk wks IH]; intros p; simpl; quiet.
Qed.

Lemma quiet_threads_fd_loop (te : ThreadsEngine.threads_engine) (fd : Z)
    (reads : list (option (list Z))) :
  quiet (ThreadsEngine.threads_fd_loop te fd reads).
Proof. induction reads as [|r reads IH]; simpl; quiet. Qed.

(** A thread function that posts and then runs a body that does not. *)
Lemma post_then_quiet {A} (body : M A) (w : world) :
  quiet body →
  posts_once_first (emitted w (final_world ((emit EvSemPost ;; body) w))) = true.
Proof.
  intros Hbody. unfold bind, emit.
  destruct (Hbody (log EvSemPost w)) as (evs & Hevs & Hq).
  rewrite (emitted_app w _ (EvSemPost :: evs)); [done|].
  rewrite Hevs. simpl. by rewrite <- app_assoc.
Qed.

(** The five thread functions, for every engine structure and every
    sequence of wake-ups: the program posts the semaphore first and only
    once. *)
Lemma workers_post_once_first :
  (∀ se wks w, posts_once_first
                 (emitted w (final_world (SelectEngine.select_thread se wks w))) = true) ∧
  (∀ pe wks w, posts_once_first
                 (emitted w (final_world (PollEngine.poll_thread pe wks w))) = true) ∧
  (∀ pe wks w, posts_once_first
                 (emitted w (final_world (EpollEngine.epoll_thread pe wks w))) = true) ∧
  (∀ o pe wks w, posts_once_first
                   (emitted w (final_world (IoUringEngine.io_uring_thread o pe wks w))) = true) ∧
  (∀ te fd reads w, posts_once_first
                      (emitted w (final_world (ThreadsEngine.threads_fd_thread te fd reads w)))
                    = true).
Proof.
  repeat split; intros.
  - unfold SelectEngine.select_thread. unfold bind at 1. unfold load_ints at 1.
    apply post_then_quiet, quiet_select_loop.
  - apply post_then_quiet, quiet_poll_loop.
  - apply post_then_quiet, quiet_epoll_loop.
  - apply post_then_quiet, quiet_io_uring_loop.
  - apply post_then_quiet, quiet_threads_fd_loop.
Qed.

(** * Further properties of the code *)

(** ** The worker loops *)

Lemma echoes_answer_reads_app (is_ctl complete : Z → bool) (e1 e2 : list event) :
  ∀ prev,
    echoes_answer_reads is_ctl complete prev (e1 ++ e2)
    = echoes_answer_reads is_ctl complete prev e1 &&
      echoes_answer_reads is_ctl complete
        (match last e1 with Some e => Some e | None => prev end) e2.
Proof.
  induction e1 as [|e e1 IH]; intros prev; [done|].
  change ((e :: e1) ++ e2) with (e :: (e1 ++ e2)).
  cbn [echoes_answer_reads]. rewrite IH, last_cons, andb_assoc.
  by destruct (last e1).
Qed.

Lemma count_echoes_app (e1 e2 : list event) :
  count_echoes (e1 ++ e2) = (count_echoes e1 + count_echoes e2)%nat.
Proof. unfold count_echoes. by rewrite List.filter_app, length_app. Qed.

Ltac echo_count := unfold count_echoes in *; simpl in *; lia.

(** What one scan of the [select] worker does, whatever is readable. *)
Lemma select_scan_trace (se : SelectEngine.select_engine) (wk : wakeup) (n : nat) :
  ∀ (i : nat) (r : Z) (w : world) (prev : option event)
    (out : outcome bool),
    out = SelectEngine.select_scan se wk i n r w →
    ∃ tr, trace (final_world out) = trace w ++ tr ∧
          echoes_answer_reads (fun _ => false) (Z.ltb 0) prev tr = true ∧
          (count_echoes tr ≤ Z.to_nat r)%nat ∧
          (returned out = Some true →
           last tr = Some (EvRead (default 0 (ints_of (heap (final_world out)
                                                        !! SelectEngine.fds se) !! 0%nat))
                             SIZEOF_UINT64 SIZEOF_UINT64)).
Proof.
  induction n as [|n IH]; intros i r w prev out Hout; simpl in Hout.
  { subst out. exists []. simpl. rewrite app_nil_r. repeat split; [echo_count|done]. }
  destruct (0 <? r) eqn:Hr; simpl in Hout;
    [|subst out; exists []; simpl; rewrite app_nil_r; repeat split; [echo_count|done]].
  apply Z.ltb_lt in Hr.
  unfold bind at 1 in Hout. unfold load_int at 1 in Hout.
  destruct (wk_ready wk _); simpl in Hout; [|by apply (IH _ _ _ prev out Hout)].
  destruct (i =? 0)%nat eqn:Hi.
  - apply Nat.eqb_eq in Hi. subst i.
    unfold bind at 1 in Hout. unfold read_ctl, bind, emit, ret in Hout.
    destruct (read_ret SIZEOF_UINT64 (wk_read wk 0) =? SIZEOF_UINT64) eqn:Hgot;
      simpl in Hout.
    + apply Z.eqb_eq in Hgot. rewrite Hgot in Hout. subst out.
      eexists [_]. simpl. repeat split. echo_count.
    + destruct (IH _ _ _ (Some (EvRead (default 0 (ints_of (heap w !! SelectEngine.fds se)
                                                     !! 0%nat))
                                  SIZEOF_UINT64 (read_ret SIZEOF_UINT64 (wk_read wk 0))))
                  out Hout)
        as (tr & Htr & Hchk & Hcnt & Hlast).
      eexists (_ :: tr). rewrite Htr. simpl. rewrite <- app_assoc.
      repeat split; [done|done|].
      intros Hret. by rewrite last_cons, (Hlast Hret).
  - unfold bind at 1 in Hout. unfold sys_read at 1 in Hout.
    destruct (read_ret _ _ <=? 0) eqn:Hgot.
    + match type of Hout with
      | _ = SelectEngine.select_scan _ _ _ _ _ (log ?e _) =>
          destruct (IH _ _ _ (Some e) out Hout) as (tr & Htr & Hchk & Hcnt & Hlast)
      end.
      eexists (_ :: tr). rewrite Htr. simpl. rewrite <- app_assoc.
      repeat split; [done|done|].
      intros Hret. by rewrite last_cons, (Hlast Hret).
    + unfold bind at 1 in Hout. unfold sys_write at 1 in Hout.
      match type of Hout with
      | _ = SelectEngine.select_scan _ _ _ _ _ (log ?e _) =>
          destruct (IH _ _ _ (Some e) out Hout) as (tr & Htr & Hchk & Hcnt & Hlast)
      end.
      eexists (_ :: _ :: tr). rewrite Htr. simpl. rewrite <- !app_assoc.
      apply Z.leb_gt in Hgot.
      split; [done|]. split; [|split; [echo_count|]].
      * rewrite Z.eqb_refl. simpl in Hchk |- *.
        rewrite Hchk, andb_true_r. by apply Z.ltb_lt.
      * intros Hret. by rewrite !last_cons, (Hlast Hret).
Qed.

Lemma poll_scan_trace (pe : PollEngine.poll_engine) (wk : wakeup) (n : nat) :
  ∀ (i : nat) (r : Z) (w : world) (prev : option event)
    (out : outcome bool),
    out = PollEngine.poll_scan pe wk i n r w →
    ∃ tr, trace (final_world out) = trace w ++ tr ∧
          echoes_answer_reads (fun _ => false) (Z.ltb 0) prev tr = true ∧
          (count_echoes tr ≤ Z.to_nat r)%nat ∧
          (returned out = Some true →
           last tr = Some (EvRead (pfd_fd (default (Pollfd 0 0 0)
                                             (pollfds_of (heap (final_world out)
                                                            !! PollEngine.pollfds pe)
                                                !! 0%nat)))
                             SIZEOF_UINT64 SIZEOF_UINT64)).
Proof.
  induction n as [|n IH]; intros i r w prev out Hout; simpl in Hout.
  { subst out. exists []. simpl. rewrite app_nil_r. repeat split; [echo_count|done]. }
  destruct (0 <? r) eqn:Hr; simpl in Hout;
    [|subst out; exists []; simpl; rewrite app_nil_r; repeat split; [echo_count|done]].
  apply Z.ltb_lt in Hr.
  unfold bind at 1 in Hout. unfold load_pollfd at 1 in Hout. cbv beta in Hout.
  destruct (Z.land _ POLLIN =? 0); [by apply (IH _ _ _ prev out Hout)|].
  destruct (i =? 0)%nat eqn:Hi.
  - apply Nat.eqb_eq in Hi. subst i.
    unfold bind at 1 in Hout. unfold read_ctl, bind, emit, ret in Hout.
    destruct (read_ret SIZEOF_UINT64 (wk_read wk 0) =? SIZEOF_UINT64) eqn:Hgot;
      simpl in Hout.
    + apply Z.eqb_eq in Hgot. rewrite Hgot in Hout. subst out.
      eexists [_]. simpl. repeat split. echo_count.
    + match type of Hout with
      | _ = PollEngine.poll_scan _ _ _ _ _ (log ?e _) =>
          destruct (IH _ _ _ (Some e) out Hout) as (tr & Htr & Hchk & Hcnt & Hlast)
      end.
      eexists (_ :: tr). rewrite Htr. simpl. rewrite <- app_assoc.
      repeat split; [done|done|].
      intros Hret. by rewrite last_cons, (Hlast Hret).
  - unfold bind at 1 in Hout. unfold sys_read at 1 in Hout.
    destruct (read_ret _ _ <=? 0) eqn:Hgot.
    + match type of Hout with
      | _ = PollEngine.poll_scan _ _ _ _ _ (log ?e _) =>
          destruct (IH _ _ _ (Some e) out Hout) as (tr & Htr & Hchk & Hcnt & Hlast)
      end.
      eexists (_ :: tr). rewrite Htr. simpl. rewrite <- app_assoc.
      repeat split; [done|done|].
      intros Hret. by rewrite last_cons, (Hlast Hret).
    + unfold bind at 1 in Hout. unfold sys_write at 1 in Hout.
      match type of Hout with
      | _ = PollEngine.poll_scan _ _ _ _ _ (log ?e _) =>
          destruct (IH _ _ _ (Some e) out Hout) as (tr & Htr & Hchk & Hcnt & Hlast)
      end.
      eexists (_ :: _ :: tr). rewrite Htr. simpl. rewrite <- !app_assoc.
      apply Z.leb_gt in Hgot.
      split; [done|]. split; [|split; [echo_count|]].
      * rewrite Z.eqb_refl. simpl in Hchk |- *.
        rewrite Hchk, andb_true_r. by apply Z.ltb_lt.
      * intros Hret. by rewrite !last_cons, (Hlast Hret).
Qed.

Lemma epoll_scan_trace (pe : EpollEngine.epoll_engine) (wk : wakeup) (evs : list Z) :
  ∀ (i : nat) (w : world) (prev : option event) (out : outcome bool),
    out = EpollEngine.epoll_scan pe wk i evs w →
    ∃ tr, trace (final_world out) = trace w ++ tr ∧
          echoes_answer_reads (fun fd => fd =? EpollEngine.efd pe) (Z.ltb 0) prev tr = true ∧
          (count_echoes tr ≤ length evs)%nat ∧
          (returned out = Some true →
           last tr = Some (EvRead (EpollEngine.efd pe) SIZEOF_UINT64 SIZEOF_UINT64)).
Proof.
  induction evs as [|fd evs IH]; intros i w prev out Hout; simpl in Hout.
  { subst out. exists []. simpl. rewrite app_nil_r. repeat split; [echo_count|done]. }
  destruct (fd =? EpollEngine.efd pe) eqn:Hfd.
  - apply Z.eqb_eq in Hfd. subst fd.
    unfold bind at 1 in Hout. unfold read_ctl, bind, emit, ret in Hout.
    destruct (read_ret SIZEOF_UINT64 (wk_read wk i) =? SIZEOF_UINT64) eqn:Hgot;
      simpl in Hout.
    + apply Z.eqb_eq in Hgot. rewrite Hgot in Hout. subst out.
      eexists [_]. simpl. repeat split. echo_count.
    + match type of Hout with
      | _ = EpollEngine.epoll_scan _ _ _ _ (log ?e _) =>
          destruct (IH _ _ (Some e) out Hout) as (tr & Htr & Hchk & Hcnt & Hlast)
      end.
      eexists (_ :: tr). rewrite Htr. simpl. rewrite <- app_assoc.
      repeat split; [done|echo_count|].
      intros Hret. by rewrite last_cons, (Hlast Hret).
  - unfold bind at 1 in Hout. unfold sys_read at 1 in Hout.
    destruct (read_ret _ _ <=? 0) eqn:Hgot.
    + match type of Hout with
      | _ = EpollEngine.epoll_scan _ _ _ _ (log ?e _) =>
          destruct (IH _ _ (Some e) out Hout) as (tr & Htr & Hchk & Hcnt & Hlast)
      end.
      eexists (_ :: tr). rewrite Htr. simpl. rewrite <- app_assoc.
      repeat split; [done|echo_count|].
      intros Hret. by rewrite last_cons, (Hlast Hret).
    + unfold bind at 1 in Hout. unfold sys_write at 1 in Hout.
      match type of Hout with
      | _ = EpollEngine.epoll_scan _ _ _ _ (log ?e _) =>
          destruct (IH _ _ (Some e) out Hout) as (tr & Htr & Hchk & Hcnt & Hlast)
      end.
      eexists (_ :: _ :: tr). rewrite Htr. simpl. rewrite <- !app_assoc.
      apply Z.leb_gt in Hgot.
      split; [done|]. split; [|split; [echo_count|]].
      * rewrite Hfd, Z.eqb_refl. simpl in Hchk |- *.
        rewrite Hchk, andb_true_r. by apply Z.ltb_lt.
      * intros Hret. by rewrite !last_cons, (Hlast Hret).
Qed.

Lemma echoes_answer_reads_no_echo (is_ctl complete : Z → bool) (evs : list event) :
  forallb (fun e => negb (is_echo e)) evs = true →
  ∀ prev, echoes_answer_reads is_ctl complete prev evs = true.
Proof.
  induction evs as [|e evs IH]; [done|]. simpl.
  intros [He Hevs]%andb_true_iff prev. rewrite (IH Hevs). by destruct e.
Qed.

(** [io_uring_add_poll_sqe] always returns; it touches nothing but the
    submission queue and [stderr]. *)
Lemma io_uring_add_poll_sqe_run (o : oracle) (mask fd : Z) (p : nat) (w : world) :
  ∃ p' es, IoUringEngine.io_uring_add_poll_sqe o mask fd p w
           = Ret p' (World (heap w) (fdflags w) (threads w) (trace w ++ es)) ∧
           es ≠ [] ∧ forallb (fun e => negb (is_echo e)) es = true.
Proof.
  unfold IoUringEngine.io_uring_add_poll_sqe, IoUringEngine.io_uring_submit.
  destruct (IoUringEngine.io_uring_get_sqe p).
  { by eexists _, [_]. }
  destruct (submit_ok o).
  - unfold bind, emit, ret, log. simpl.
    destruct (Z.of_nat p <? 0); eexists _, [_; _]; simpl; rewrite <- app_assoc; done.
  - by eexists _, [_].
Qed.

Lemma io_uring_scan_trace (o : oracle) (pe : IoUringEngine.io_uring_engine) (wk : wakeup)
    (cqes : list Z) :
  ∀ (i p : nat) (w : world) (prev : option event) (out : outcome (bool * nat)),
    out = IoUringEngine.io_uring_scan o pe wk i cqes p w →
    ∃ tr, trace (final_world out) = trace w ++ tr ∧
          echoes_answer_reads (fun fd => fd =? IoUringEngine.efd pe) (Z.ltb 0) prev tr = true ∧
          (count_echoes tr ≤ length cqes)%nat ∧
          (fst <$> returned out = Some true →
           last tr = Some (EvRead (IoUringEngine.efd pe) SIZEOF_UINT64 SIZEOF_UINT64)).
Proof.
  induction cqes as [|fd cqes IH]; intros i p w prev out Hout; simpl in Hout.
  { subst out. exists []. simpl. rewrite app_nil_r. repeat split; [echo_count|done]. }
  assert (Hrequeue : ∀ (w1 : world) (pre : list event) (out : outcome (bool * nat)),
             out = (do p' <- IoUringEngine.io_uring_add_poll_sqe o (IoUringEngine.poll_mask pe)
                               fd p;
                    IoUringEngine.io_uring_scan o pe wk (S i) cqes p') w1 →
             trace w1 = trace w ++ pre →
             echoes_answer_reads (fun fd => fd =? IoUringEngine.efd pe) (Z.ltb 0) prev pre
             = true →
             ∃ tr, trace (final_world out) = trace w ++ tr ∧
                   echoes_answer_reads (fun fd => fd =? IoUringEngine.efd pe) (Z.ltb 0) prev tr
                   = true ∧
                   (count_echoes tr ≤ count_echoes pre + length cqes)%nat ∧
                   (fst <$> returned out = Some true →
                    last tr = Some (EvRead (IoUringEngine.efd pe)
                                      SIZEOF_UINT64 SIZEOF_UINT64))).
  { intros w1 pre out1 Hout1 Hw1 Hpre. unfold bind at 1 in Hout1.
    destruct (io_uring_add_poll_sqe_run o (IoUringEngine.poll_mask pe) fd p w1)
      as (p' & es & Hrun & Hnil & Hes).
    rewrite Hrun in Hout1.
    destruct (IH _ _ _ (match last es with Some e => Some e | None => None end) out1 Hout1)
      as (tr & Htr & Hchk & Hcnt & Hlast).
    exists (pre ++ es ++ tr). simpl in Htr. rewrite Htr, Hw1, <- !app_assoc.
    split; [done|]. split; [|split].
    - rewrite echoes_answer_reads_app, Hpre. simpl.
      rewrite echoes_answer_reads_app, (echoes_answer_reads_no_echo _ _ _ Hes). simpl.
      destruct (last es) eqn:Hl; [done|]. by apply last_None in Hl.
    - rewrite !count_echoes_app.
      assert (count_echoes es = 0%nat); [|lia].
      unfold count_echoes. clear -Hes. induction es as [|e es IHes]; [done|].
      simpl in Hes. apply andb_true_iff in Hes as [He Hes]. simpl.
      destruct (is_echo e); [done|]. by apply IHes.
    - intros Hret. rewrite !last_app, (Hlast Hret). done. }
  destruct (fd =? IoUringEngine.efd pe) eqn:Hfd.
  - apply Z.eqb_eq in Hfd.
    unfold bind at 1 in Hout. unfold read_ctl at 1 in Hout. unfold bind at 1 in Hout.
    unfold emit at 1 in Hout. unfold ret at 1 in Hout.
    destruct (read_ret SIZEOF_UINT64 (wk_read wk i) =? SIZEOF_UINT64) eqn:Hgot;
      simpl in Hout.
    + apply Z.eqb_eq in Hgot. rewrite Hgot in Hout. subst out fd.
      eexists [_]. simpl. repeat split. echo_count.
    + destruct (Hrequeue _ [EvRead fd SIZEOF_UINT64 (read_ret SIZEOF_UINT64 (wk_read wk i))]
                  out Hout eq_refl eq_refl)
        as (tr & Htr & Hchk & Hcnt & Hlast).
      exists tr. repeat split; [done|done|echo_count|done].
  - unfold bind at 1 in Hout. unfold sys_read at 1 in Hout.
    destruct (read_ret _ _ <=? 0) eqn:Hgot.
    + destruct (Hrequeue _ [EvRead fd (IoUringEngine.ue_msg_size pe)
                              (read_ret (IoUringEngine.ue_msg_size pe) (wk_read wk i))]
                  out Hout eq_refl eq_refl)
        as (tr & Htr & Hchk & Hcnt & Hlast).
      exists tr. repeat split; [done|done|echo_count|done].
    + unfold bind at 1 in Hout. unfold sys_write at 1 in Hout.
      apply Z.leb_gt in Hgot.
      match type of Hout with
      | _ = _ (log ?e2 (log ?e1 _)) =>
          destruct (Hrequeue _ [e1; e2] out Hout) as (tr & Htr & Hchk & Hcnt & Hlast)
      end.
      { simpl. by rewrite <- app_assoc. }
      { simpl. rewrite Hfd, Z.eqb_refl. simpl. rewrite andb_true_r. by apply Z.ltb_lt. }
      exists tr. repeat split; [done|done|echo_count|done].
Qed.

Lemma threads_fd_loop_trace (te : ThreadsEngine.threads_engine) (fd : Z)
    (reads : list (option (list Z))) :
  ∀ (w : world) (prev : option event) (out : outcome unit),
    out = ThreadsEngine.threads_fd_loop te fd reads w →
    ∃ tr, trace (final_world out) = trace w ++ tr ∧
          echoes_answer_reads (fun _ => false)
            (fun got => got =? ThreadsEngine.te_msg_size te) prev tr = true ∧
          returned out = None.
Proof.
  induction reads as [|r reads IH]; intros w prev out Hout; simpl in Hout.
  { subst out. exists []. simpl. by rewrite app_nil_r. }
  unfold bind at 1 in Hout. unfold sys_read at 1 in Hout.
  destruct (read_ret _ _ =? _) eqn:Hgot; simpl in Hout.
  - unfold bind at 1 in Hout. unfold sys_write at 1 in Hout.
    match type of Hout with
    | _ = ThreadsEngine.threads_fd_loop _ _ _ (log ?e _) =>
        destruct (IH _ (Some e) out Hout) as (tr & Htr & Hchk & Hret)
    end.
    eexists (_ :: _ :: tr). rewrite Htr. simpl. rewrite <- !app_assoc.
    split; [done|]. split; [|done].
    rewrite Z.eqb_refl, Hgot. simpl in Hchk |- *. by rewrite Hchk.
  - match type of Hout with
    | _ = ThreadsEngine.threads_fd_loop _ _ _ (log ?e _) =>
        destruct (IH _ (Some e) out Hout) as (tr & Htr & Hchk & Hret)
    end.
    eexists (_ :: tr). rewrite Htr. simpl. rewrite <- !app_assoc. done.
Qed.

Lemma select_loop_trace (se : SelectEngine.select_engine) (nfds : Z) (wks : list wakeup) :
  ∀ (w : world) (prev : option event) (out : outcome unit),
    out = SelectEngine.select_loop se nfds wks w →
    ∃ tr, trace (final_world out) = trace w ++ tr ∧
          echoes_answer_reads (fun _ => false) (Z.ltb 0) prev tr = true ∧
          (returned out = Some tt →
           last tr = Some (EvRead (default 0 (ints_of (heap (final_world out)
                                                        !! SelectEngine.fds se) !! 0%nat))
                             SIZEOF_UINT64 SIZEOF_UINT64)).
Proof.
  induction wks as [|wk wks IH]; intros w prev out Hout; simpl in Hout.
  { subst out. eexists [_]. by simpl. }
  unfold bind at 1 in Hout. unfold emit at 1 in Hout. unfold bind at 1 in Hout.
  match type of Hout with
  | _ = match SelectEngine.select_scan _ _ ?i ?n ?r ?w0 with _ => _ end =>
      destruct (select_scan_trace se wk n i r w0 (Some (EvWait nfds)) _ eq_refl)
        as (ts & Hts & Hchk & _ & Hlast)
  end.
  match type of Hout with
  | _ = match ?scan with _ => _ end => destruct scan as [[|] w1|w1|w1]
  end; simpl in Hts, Hlast.
  - subst out. exists (EvWait nfds :: ts). simpl. rewrite Hts, <- app_assoc.
    repeat split; [done|]. intros _. by rewrite last_cons, Hlast.
  - destruct (IH _ (match last (EvWait nfds :: ts) with Some e => Some e | None => prev end)
                out Hout) as (tr & Htr & Hchk' & Hlast').
    exists ((EvWait nfds :: ts) ++ tr).
    split; [rewrite Htr, Hts; simpl; by rewrite <- !app_assoc|]. split.
    + rewrite echoes_answer_reads_app, Hchk'. simpl. by rewrite Hchk.
    + intros Hret. by rewrite last_app, (Hlast' Hret).
  - subst out. exists (EvWait nfds :: ts). simpl. rewrite Hts, <- app_assoc. done.
  - subst out. exists (EvWait nfds :: ts). simpl. rewrite Hts, <- app_assoc. done.
Qed.

Lemma set_revents_run (pa : block) (wk : wakeup) (n : nat) :
  ∀ (i : nat) (w : world),
    ∃ w', PollEngine.set_revents pa wk i n w = Ret tt w' ∧ trace w' = trace w.
Proof.
  induction n as [|n IH]; intros i w; simpl; [by exists w|].
  unfold bind at 1. unfold load_pollfd at 1. unfold bind at 1. unfold store_pollfd at 1.
  match goal with |- context [PollEngine.set_revents _ _ _ _ ?w1] =>
    destruct (IH (S i) w1) as (w' & -> & Htr) end.
  by exists w'.
Qed.

Lemma poll_loop_trace (pe : PollEngine.poll_engine) (wks : list wakeup) :
  ∀ (w : world) (prev : option event) (out : outcome unit),
    out = PollEngine.poll_loop pe wks w →
    ∃ tr, trace (final_world out) = trace w ++ tr ∧
          echoes_answer_reads (fun _ => false) (Z.ltb 0) prev tr = true ∧
          (returned out = Some tt →
           last tr = Some (EvRead (pfd_fd (default (Pollfd 0 0 0)
                                             (pollfds_of (heap (final_world out)
                                                            !! PollEngine.pollfds pe)
                                                !! 0%nat)))
                             SIZEOF_UINT64 SIZEOF_UINT64)).
Proof.
  induction wks as [|wk wks IH]; intros w prev out Hout; simpl in Hout.
  { subst out. eexists [_]. by simpl. }
  unfold bind at 1 in Hout. unfold emit at 1 in Hout. unfold bind at 1 in Hout.
  match type of Hout with
  | context [PollEngine.set_revents ?pa _ ?i ?n ?w0] =>
      destruct (set_revents_run pa wk n i w0) as (w1 & Hrev & Htr1)
  end.
  rewrite Hrev in Hout. unfold bind at 1 in Hout. simpl in Htr1.
  match type of Hout with
  | _ = match PollEngine.poll_scan _ _ ?i ?n ?r _ with _ => _ end =>
      destruct (poll_scan_trace pe wk n i r w1 (Some (EvWait (PollEngine.pe_num_fds pe)))
                  _ eq_refl)
        as (ts & Hts & Hchk & _ & Hlast)
  end.
  rewrite Htr1 in Hts.
  match type of Hout with
  | _ = match ?scan with _ => _ end => destruct scan as [[|] w2|w2|w2]
  end; simpl in Hts, Hlast.
  - subst out. exists (EvWait (PollEngine.pe_num_fds pe) :: ts). simpl.
    rewrite Hts, <- app_assoc.
    repeat split; [done|]. intros _. by rewrite last_cons, Hlast.
  - destruct (IH _ (match last (EvWait (PollEngine.pe_num_fds pe) :: ts) with
                    | Some e => Some e | None => prev end)
                out Hout) as (tr & Htr & Hchk' & Hlast').
    exists ((EvWait (PollEngine.pe_num_fds pe) :: ts) ++ tr).
    split; [rewrite Htr, Hts; simpl; by rewrite <- !app_assoc|]. split.
    + rewrite echoes_answer_reads_app, Hchk'. simpl. by rewrite Hchk.
    + intros Hret. by rewrite last_app, (Hlast' Hret).
  - subst out. eexists (_ :: ts). simpl. rewrite Hts, <- app_assoc. done.
  - subst out. eexists (_ :: ts). simpl. rewrite Hts, <- app_assoc. done.
Qed.

Lemma epoll_loop_trace (pe : EpollEngine.epoll_engine) (wks : list wakeup) :
  ∀ (w : world) (prev : option event) (out : outcome unit),
    out = EpollEngine.epoll_loop pe wks w →
    ∃ tr, trace (final_world out) = trace w ++ tr ∧
          echoes_answer_reads (fun fd => fd =? EpollEngine.efd pe) (Z.ltb 0) prev tr = true ∧
          (returned out = Some tt →
           last tr = Some (EvRead (EpollEngine.efd pe) SIZEOF_UINT64 SIZEOF_UINT64)).
Proof.
  induction wks as [|wk wks IH]; intros w prev out Hout; simpl in Hout.
  { subst out. eexists [_]. by simpl. }
  unfold bind at 1 in Hout. unfold emit at 1 in Hout. unfold bind at 1 in Hout.
  match type of Hout with
  | _ = match EpollEngine.epoll_scan _ _ ?i ?evs ?w0 with _ => _ end =>
      destruct (epoll_scan_trace pe wk evs i w0 (Some (EvWait EpollEngine.maxevents))
                  _ eq_refl)
        as (ts & Hts & Hchk & _ & Hlast)
  end.
  match type of Hout with
  | _ = match ?scan with _ => _ end => destruct scan as [[|] w1|w1|w1]
  end; simpl in Hts, Hlast.
  - subst out. eexists (_ :: ts). simpl. rewrite Hts, <- app_assoc.
    repeat split; [done|]. intros _. by rewrite last_cons, Hlast.
  - destruct (IH _ (match last (EvWait EpollEngine.maxevents :: ts) with
                    | Some e => Some e | None => prev end)
                out Hout) as (tr & Htr & Hchk' & Hlast').
    exists ((EvWait EpollEngine.maxevents :: ts) ++ tr).
    split; [rewrite Htr, Hts; simpl; by rewrite <- !app_assoc|]. split.
    + rewrite echoes_answer_reads_app, Hchk'. simpl. by rewrite Hchk.
    + intros Hret. by rewrite last_app, (Hlast' Hret).
  - subst out. eexists (_ :: ts). simpl. rewrite Hts, <- app_assoc. done.
  - subst out. eexists (_ :: ts). simpl. rewrite Hts, <- app_assoc. done.
Qed.

Lemma io_uring_loop_trace (o : oracle) (pe : IoUringEngine.io_uring_engine)
    (wks : list wakeup) :
  ∀ (p : nat) (w : world) (prev : option event) (out : outcome unit),
    out = IoUringEngine.io_uring_loop o pe wks p w →
    ∃ tr, trace (final_world out) = trace w ++ tr ∧
          echoes_answer_reads (fun fd => fd =? IoUringEngine.efd pe) (Z.ltb 0) prev tr = true ∧
          (returned out = Some tt →
           last tr = Some (EvRead (IoUringEngine.efd pe) SIZEOF_UINT64 SIZEOF_UINT64)).
Proof.
  induction wks as [|wk wks IH]; intros p w prev out Hout; simpl in Hout.
  { subst out. eexists [_]. by simpl. }
  unfold bind at 1 in Hout. unfold emit at 1 in Hout. unfold bind at 1 in Hout.
  match type of Hout with
  | _ = match IoUringEngine.io_uring_scan _ _ _ ?i ?cqes ?p0 ?w0 with _ => _ end =>
      destruct (io_uring_scan_trace o pe wk cqes i p0 w0 (Some (EvWait 1)) _ eq_refl)
        as (ts & Hts & Hchk & _ & Hlast)
  end.
  match type of Hout with
  | _ = match ?scan with _ => _ end => destruct scan as [[[|] p1] w1|w1|w1]
  end; simpl in Hts, Hlast, Hout.
  - subst out. eexists (_ :: ts). simpl. rewrite Hts, <- app_assoc.
    repeat split; [done|]. intros _. by rewrite last_cons, Hlast.
  - destruct (IH _ _ (match last (EvWait 1 :: ts) with
                      | Some e => Some e | None => prev end)
                out Hout) as (tr & Htr & Hchk' & Hlast').
    exists ((EvWait 1 :: ts) ++ tr).
    split; [rewrite Htr, Hts; simpl; by rewrite <- !app_assoc|]. split.
    + rewrite echoes_answer_reads_app, Hchk'. simpl. by rewrite Hchk.
    + intros Hret. by rewrite last_app, (Hlast' Hret).
  - subst out. eexists (_ :: ts). simpl. rewrite Hts, <- app_assoc. done.
  - subst out. eexists (_ :: ts). simpl. rewrite Hts, <- app_assoc. done.
Qed.

(** X1.  A worker thread function returns only right after it has read
    the complete 8-byte counter from its control descriptor: for [select]
    and [poll] the descriptor stored at index 0 of the instance's array,
    for [epoll] and [io_uring] the instance's [efd].  The worker of the
    thread-per-descriptor engine never returns. *)
Theorem worker_returns_only_after_control_read :
  (∀ se wks w w',
     SelectEngine.select_thread se wks w = Ret tt w' →
     ∃ fd, control_fd (HSelect se) w' = Some fd ∧
           last (emitted w w') = Some (EvRead fd SIZEOF_UINT64 SIZEOF_UINT64)) ∧
  (∀ pe wks w w',
     PollEngine.poll_thread pe wks w = Ret tt w' →
     ∃ fd, control_fd (HPoll pe) w' = Some fd ∧
           last (emitted w w') = Some (EvRead fd SIZEOF_UINT64 SIZEOF_UINT64)) ∧
  (∀ pe wks w w',
     EpollEngine.epoll_thread pe wks w = Ret tt w' →
     last (emitted w w') = Some (EvRead (EpollEngine.efd pe) SIZEOF_UINT64 SIZEOF_UINT64)) ∧
  (∀ o pe wks w w',
     IoUringEngine.io_uring_thread o pe wks w = Ret tt w' →
     last (emitted w w') = Some (EvRead (IoUringEngine.efd pe) SIZEOF_UINT64 SIZEOF_UINT64)) ∧
  (∀ te fd reads w, returned (ThreadsEngine.threads_fd_thread te fd reads w) = None).
Proof.
  split; [|split; [|split; [|split]]].
  - intros se wks w w' Hrun. unfold SelectEngine.select_thread in Hrun.
    unfold bind at 1 in Hrun. unfold load_ints at 1 in Hrun.
    unfold bind at 1 in Hrun. unfold emit at 1 in Hrun.
    destruct (select_loop_trace se _ wks _ None _ (eq_sym Hrun)) as (tr & Htr & _ & Hlast).
    eexists. split; [reflexivity|]. simpl in Htr, Hlast.
    rewrite (emitted_app w w' (EvSemPost :: tr)); [|by rewrite Htr, <- app_assoc].
    by rewrite last_cons, Hlast.
  - intros pe wks w w' Hrun. unfold PollEngine.poll_thread in Hrun.
    unfold bind at 1 in Hrun. unfold emit at 1 in Hrun.
    destruct (poll_loop_trace pe wks _ None _ (eq_sym Hrun)) as (tr & Htr & _ & Hlast).
    eexists. split; [reflexivity|]. simpl in Htr, Hlast.
    rewrite (emitted_app w w' (EvSemPost :: tr)); [|by rewrite Htr, <- app_assoc].
    by rewrite last_cons, Hlast.
  - intros pe wks w w' Hrun. unfold EpollEngine.epoll_thread in Hrun.
    unfold bind at 1 in Hrun. unfold emit at 1 in Hrun.
    destruct (epoll_loop_trace pe wks _ None _ (eq_sym Hrun)) as (tr & Htr & _ & Hlast).
    simpl in Htr, Hlast.
    rewrite (emitted_app w w' (EvSemPost :: tr)); [|by rewrite Htr, <- app_assoc].
    by rewrite last_cons, Hlast.
  - intros o pe wks w w' Hrun. unfold IoUringEngine.io_uring_thread in Hrun.
    unfold bind at 1 in Hrun. unfold emit at 1 in Hrun.
    destruct (io_uring_loop_trace o pe wks _ _ None _ (eq_sym Hrun)) as (tr & Htr & _ & Hlast).
    simpl in Htr, Hlast.
    rewrite (emitted_app w w' (EvSemPost :: tr)); [|by rewrite Htr, <- app_assoc].
    by rewrite last_cons, Hlast.
  - intros te fd reads w. unfold ThreadsEngine.threads_fd_thread.
    unfold bind at 1. unfold emit at 1.
    by destruct (threads_fd_loop_trace te fd reads (log EvSemPost w) None _ eq_refl)
      as (tr & _ & _ & Hret).
Qed.

Lemma worker_returns_only_after_control_read_witness :
  (let w := final_world select_created in
   let w' := final_world (SelectEngine.select_thread se0 [stop_wakeup 5] w) in
   SelectEngine.select_thread se0 [stop_wakeup 5] w = Ret tt w' ∧
   ∃ fd, control_fd (HSelect se0) w' = Some fd ∧
         last (emitted w w') = Some (EvRead fd SIZEOF_UINT64 SIZEOF_UINT64)) ∧
  (let w := final_world (PollEngine.poll_create all_ok (opts0 Poll false) 7%nat w0) in
   let w' := final_world (PollEngine.poll_thread pe0 [stop_wakeup 5] w) in
   PollEngine.poll_thread pe0 [stop_wakeup 5] w = Ret tt w' ∧
   ∃ fd, control_fd (HPoll pe0) w' = Some fd ∧
         last (emitted w w') = Some (EvRead fd SIZEOF_UINT64 SIZEOF_UINT64)) ∧
  (let w' := final_world (EpollEngine.epoll_thread ee0 [stop_wakeup 6] epoll_world) in
   EpollEngine.epoll_thread ee0 [stop_wakeup 6] epoll_world = Ret tt w' ∧
   last (emitted epoll_world w') = Some (EvRead 6 SIZEOF_UINT64 SIZEOF_UINT64)) ∧
  (let w' := final_world (IoUringEngine.io_uring_thread all_ok ue0 [stop_wakeup 6]
                            io_uring_world) in
   IoUringEngine.io_uring_thread all_ok ue0 [stop_wakeup 6] io_uring_world = Ret tt w' ∧
   last (emitted io_uring_world w') = Some (EvRead 6 SIZEOF_UINT64 SIZEOF_UINT64)).
Proof.
  destruct worker_returns_only_after_control_read as (H1 & H2 & H3 & H4 & _).
  split; [|split; [|split]].
  - split; [vm_compute; reflexivity|]. apply (H1 se0 [stop_wakeup 5]). vm_compute. reflexivity.
  - split; [vm_compute; reflexivity|]. apply (H2 pe0 [stop_wakeup 5]). vm_compute. reflexivity.
  - split; [vm_compute; reflexivity|].
    apply (H3 ee0 [stop_wakeup 6] epoll_world). vm_compute. reflexivity.
  - split; [vm_compute; reflexivity|].
    apply (H4 all_ok ue0 [stop_wakeup 6] io_uring_world). vm_compute. reflexivity.
Defined.

(** X2.  Whatever becomes readable and whatever the reads deliver, every
    [write] of a worker directly follows a [read] on the same descriptor
    whose return value passed the worker's test: positive for the four
    event engines, equal to [msg_size] for the thread-per-descriptor
    engine.  The [epoll] and [io_uring] workers never write to the
    control descriptor. *)
Theorem workers_echo_only_what_they_read :
  (∀ se wks w,
     echoes_answer_reads (fun _ => false) (Z.ltb 0) None
       (emitted w (final_world (SelectEngine.select_thread se wks w))) = true) ∧
  (∀ pe wks w,
     echoes_answer_reads (fun _ => false) (Z.ltb 0) None
       (emitted w (final_world (PollEngine.poll_thread pe wks w))) = true) ∧
  (∀ pe wks w,
     echoes_answer_reads (fun fd => fd =? EpollEngine.efd pe) (Z.ltb 0) None
       (emitted w (final_world (EpollEngine.epoll_thread pe wks w))) = true) ∧
  (∀ o pe wks w,
     echoes_answer_reads (fun fd => fd =? IoUringEngine.efd pe) (Z.ltb 0) None
       (emitted w (final_world (IoUringEngine.io_uring_thread o pe wks w))) = true) ∧
  (∀ te fd reads w,
     echoes_answer_reads (fun _ => false) (fun got => got =? ThreadsEngine.te_msg_size te) None
       (emitted w (final_world (ThreadsEngine.threads_fd_thread te fd reads w))) = true).
Proof.
  split; [|split; [|split; [|split]]].
  - intros se wks w. unfold SelectEngine.select_thread.
    unfold bind at 1. unfold load_ints at 1. unfold bind at 1. unfold emit at 1.
    match goal with |- context [SelectEngine.select_loop _ ?nfds _] =>
      destruct (select_loop_trace se nfds wks (log EvSemPost w) (Some EvSemPost) _ eq_refl)
        as (tr & Htr & Hchk & _) end.
    simpl in Htr.
    rewrite (emitted_app w _ (EvSemPost :: tr)); [|by rewrite Htr, <- app_assoc].
    simpl. exact Hchk.
  - intros pe wks w. unfold PollEngine.poll_thread. unfold bind at 1. unfold emit at 1.
    destruct (poll_loop_trace pe wks (log EvSemPost w) (Some EvSemPost) _ eq_refl)
      as (tr & Htr & Hchk & _).
    simpl in Htr.
    rewrite (emitted_app w _ (EvSemPost :: tr)); [|by rewrite Htr, <- app_assoc].
    simpl. exact Hchk.
  - intros pe wks w. unfold EpollEngine.epoll_thread. unfold bind at 1. unfold emit at 1.
    destruct (epoll_loop_trace pe wks (log EvSemPost w) (Some EvSemPost) _ eq_refl)
      as (tr & Htr & Hchk & _).
    simpl in Htr.
    rewrite (emitted_app w _ (EvSemPost :: tr)); [|by rewrite Htr, <- app_assoc].
    simpl. exact Hchk.
  - intros o pe wks w. unfold IoUringEngine.io_uring_thread. unfold bind at 1.
    unfold emit at 1.
    destruct (io_uring_loop_trace o pe wks 0 (log EvSemPost w) (Some EvSemPost) _ eq_refl)
      as (tr & Htr & Hchk & _).
    simpl in Htr.
    rewrite (emitted_app w _ (EvSemPost :: tr)); [|by rewrite Htr, <- app_assoc].
    simpl. exact Hchk.
  - intros te fd reads w. unfold ThreadsEngine.threads_fd_thread. unfold bind at 1.
    unfold emit at 1.
    destruct (threads_fd_loop_trace te fd reads (log EvSemPost w) (Some EvSemPost) _ eq_refl)
      as (tr & Htr & Hchk & _).
    simpl in Htr.
    rewrite (emitted_app w _ (EvSemPost :: tr)); [|by rewrite Htr, <- app_assoc].
    simpl. exact Hchk.
Qed.

(** X3.  After one return of the wait primitive with value [r], the
    scans of the [select] and [poll] workers echo at most [r] messages
    (each echo decrements the count, and the scan stops at zero), and the
    scan of the [epoll] worker, which looks at the first [r] reported
    events, echoes at most [r] as well. *)
Theorem scan_echoes_at_most_ready_count :
  (∀ se wk i n r w,
     (count_echoes (emitted w (final_world (SelectEngine.select_scan se wk i n r w)))
      ≤ Z.to_nat r)%nat) ∧
  (∀ pe wk i n r w,
     (count_echoes (emitted w (final_world (PollEngine.poll_scan pe wk i n r w)))
      ≤ Z.to_nat r)%nat) ∧
  (∀ pe wk w,
     (count_echoes
        (emitted w (final_world (EpollEngine.epoll_scan pe wk 0
                                   (take (Z.to_nat (wk_ret wk)) (wk_events wk)) w)))
      ≤ Z.to_nat (wk_ret wk))%nat).
Proof.
  split; [|split].
  - intros se wk i n r w.
    destruct (select_scan_trace se wk n i r w None _ eq_refl) as (tr & Htr & _ & Hcnt & _).
    by rewrite (emitted_app _ _ _ Htr).
  - intros pe wk i n r w.
    destruct (poll_scan_trace pe wk n i r w None _ eq_refl) as (tr & Htr & _ & Hcnt & _).
    by rewrite (emitted_app _ _ _ Htr).
  - intros pe wk w.
    destruct (epoll_scan_trace pe wk (take (Z.to_nat (wk_ret wk)) (wk_events wk)) 0 w None
                _ eq_refl) as (tr & Htr & _ & Hcnt & _).
    rewrite (emitted_app _ _ _ Htr). rewrite length_take in Hcnt. lia.
Qed.

(** ** What a successful [create] leaves behind *)

Lemma alter_as_insert `{Countable K} {A} (f : A → A) (i : K) (x : A) (m : gmap K A) :
  m !! i = Some x → alter f i m = <[i := f x]> m.
Proof. intros Hx. rewrite <- (insert_id m i x) at 1 by done. apply alter_insert_eq. Qed.

Lemma set_heap_same (w : world) : set_heap (heap w) w = w.
Proof. by destruct w. Qed.

(** [memcpy] into an array of ints: the block keeps its length, the
    entries below [off] stay, the entries from [off] on are the copied
    ones as far as the array reaches. *)
Lemma store_ints_run (p : block) (vs : list Z) :
  ∀ (off : nat) (xs : list Z) (w : world),
    heap w !! p = Some (VInts xs) →
    ∃ xs', store_ints p off vs w = Ret tt (set_heap (<[p := VInts xs']> (heap w)) w) ∧
           length xs' = length xs ∧
           (∀ j, (j < off)%nat → xs' !! j = xs !! j) ∧
           (∀ j v, vs !! j = Some v → (off + j < length xs)%nat →
                   xs' !! (off + j)%nat = Some v).
Proof.
  induction vs as [|v vs IH]; intros off xs w Hp; simpl.
  { exists xs. unfold ret. rewrite insert_id, set_heap_same by done. by repeat split. }
  unfold bind at 1. unfold store_int at 1.
  rewrite (alter_as_insert _ _ _ _ Hp). simpl ints_of.
  match goal with |- context [store_ints p (S off) vs ?w1] =>
    destruct (IH (S off) (<[off := v]> xs) w1) as (xs' & -> & Hlen & Hlow & Hhigh)
  end.
  { simpl. by rewrite lookup_insert_eq. }
  exists xs'. simpl. rewrite insert_insert_eq. split; [done|].
  rewrite length_insert in Hlen. split; [done|]. split.
  - intros j Hj. rewrite Hlow by lia. apply list_lookup_insert_ne. lia.
  - intros [|j] v' Hv Hj; simpl in Hv.
    + injection Hv as <-. rewrite Nat.add_0_r, Hlow by lia.
      apply list_lookup_insert_eq. lia.
    + rewrite <- Nat.add_succ_comm. apply Hhigh; [done|]. rewrite length_insert. lia.
Qed.

(** The handshake loop changes nothing but the trace. *)
Lemma sem_wait_loop_run (rs : list (Z * Z)) :
  ∀ (w : world) (r : Z) (w' : world),
    sem_wait_loop rs w = Ret r w' →
    heap w' = heap w ∧ fdflags w' = fdflags w ∧ threads w' = threads w.
Proof.
  induction rs as [|[r0 e0] rs IH]; intros w r w'; simpl; [done|].
  unfold bind at 1. unfold emit at 1. destruct (_ && _).
  - intros Hrun. by destruct (IH _ _ _ Hrun) as (-> & -> & ->).
  - unfold ret. by intros [= <- <-].
Qed.

Ltac select_labels :=
  unfold SelectEngine.err_pthread_join, SelectEngine.err_sem_destroy,
    SelectEngine.err_close_eventfd, SelectEngine.err_free_fds,
    SelectEngine.err_free_msgbuf, SelectEngine.err_free_se,
    bind, pthread_join, sem_destroy, emit, close, free, store_int, ret;
  simpl; repeat case_match; done.

Lemma select_create_success (o : oracle) (opts : options) (fdsp : block) (w : world)
    (e : SelectEngine.select_engine) (w1 : world) :
  0 ≤ num_fds opts →
  SelectEngine.select_create o opts fdsp w = Ret (Created e) w1 →
  ∃ se mb fa efd t arr,
    e = SelectEngine.SE se t mb (msg_size opts) fa (num_fds opts + 1) ∧
    heap w !! se = None ∧ heap w !! mb = None ∧ heap w !! fa = None ∧
    se ≠ mb ∧ se ≠ fa ∧ mb ≠ fa ∧
    heap w1 = <[fa := VInts arr]>
                (<[mb := VBytes (replicate (Z.to_nat (msg_size opts)) 0)]>
                   (<[se := VStruct]> (heap w))) ∧
    length arr = Z.to_nat (num_fds opts + 1) ∧ arr !! 0%nat = Some efd ∧
    (∀ j fd, (j < Z.to_nat (num_fds opts))%nat →
             ints_of (heap w !! fdsp) !! j = Some fd →
             arr !! S j = Some fd ∧ fd < FD_SETSIZE) ∧
    exclusive opts = false ∧
    0 ≤ efd < FD_SETSIZE ∧ fdflags w !! efd = None ∧
    fdflags w1 = <[efd := Z.lor O_RDWR O_NONBLOCK]> (fdflags w) ∧
    threads w !! t = None ∧
    threads w1 = <[t := Thread (Some efd) false]> (threads w).
Proof.
  intros Hn. unfold SelectEngine.select_create.
  destruct (exclusive opts) eqn:Hex; [done|].
  unfold bind at 1. unfold load_ints at 1.
  destruct (existsb _ _) eqn:Hbig; [done|].
  unfold bind at 1. unfold malloc at 1. destruct (alloc_ok o 0); [|done].
  unfold bind at 1. unfold malloc at 1. destruct (alloc_ok o 1); [|select_labels].
  unfold bind at 1. unfold malloc at 1. destruct (alloc_ok o 2); [|select_labels].
  simpl.
  set (se := fresh (dom (heap w))).
  set (h1 := <[se := VStruct]> (heap w)).
  set (mb := fresh (dom h1)).
  set (h2 := <[mb := _]> h1).
  set (fa := fresh (dom h2)).
  assert (Hse : heap w !! se = None) by apply not_elem_of_dom, is_fresh.
  assert (Hmb : h1 !! mb = None) by apply not_elem_of_dom, is_fresh.
  assert (Hfa : h2 !! fa = None) by apply not_elem_of_dom, is_fresh.
  assert (Hne1 : se ≠ mb).
  { intros Heq. subst h1. rewrite <- Heq, lookup_insert_eq in Hmb. done. }
  assert (Hne2 : mb ≠ fa).
  { intros Heq. subst h2. rewrite <- Heq, lookup_insert_eq in Hfa. done. }
  assert (Hne3 : se ≠ fa).
  { intros Heq. subst h2 h1. rewrite lookup_insert_ne, <- Heq, lookup_insert_eq in Hfa; done. }
  assert (Hmb' : heap w !! mb = None) by (subst h1; by rewrite lookup_insert_ne in Hmb).
  assert (Hfa' : heap w !! fa = None)
    by (subst h2 h1; by rewrite !lookup_insert_ne in Hfa).
  unfold bind at 1. unfold load_ints at 1. simpl.
  unfold bind at 1.
  match goal with |- context [store_ints fa 1 ?src ?w3] =>
    destruct (store_ints_run fa src 1 (replicate (Z.to_nat (num_fds opts + 1)) 0) w3)
      as (arr & -> & Hlen & Hlow & Hhigh)
  end.
  { simpl. by rewrite lookup_insert_eq. }
  rewrite length_replicate in Hlen, Hhigh.
  simpl. rewrite insert_insert_eq.
  unfold bind at 1. unfold open_fd at 1. destruct (eventfd_ok o); [|select_labels].
  simpl. set (efd := fresh (dom (fdflags w))).
  assert (Hefd : fdflags w !! efd = None) by apply not_elem_of_dom, is_fresh.
  unfold bind at 1. unfold store_int at 1. simpl.
  rewrite (alter_as_insert _ _ (VInts arr)) by by rewrite lookup_insert_eq.
  rewrite insert_insert_eq. simpl ints_of.
  destruct (efd <? 0) eqn:Hneg; [select_labels|].
  destruct (FD_SETSIZE <=? efd) eqn:Hmax; [select_labels|].
  unfold bind at 1. unfold sem_init at 1. destruct (sem_init_ok o); simpl; [|select_labels].
  unfold bind at 1. unfold pthread_create at 1.
  destruct (pthread_create_ok o 0); [|select_labels].
  simpl. set (t := fresh (dom (threads w))).
  assert (Ht : threads w !! t = None) by apply not_elem_of_dom, is_fresh.
  unfold bind at 1.
  destruct (sem_wait_loop _ _) as [r w5|w5|w5] eqn:Hsw; [|done..].
  apply sem_wait_loop_run in Hsw as (Hh & Hf & Hth). simpl in Hh, Hf, Hth.
  destruct (r <? 0); [select_labels|].
  unfold ret. intros [= <- <-].
  exists se, mb, fa, efd, t, (<[0%nat := efd]> arr).
  apply Z.ltb_ge in Hneg. apply Z.leb_gt in Hmax.
  split_and!; try done; try lia.
  - rewrite length_insert. lia.
  - apply list_lookup_insert_eq. lia.
  - intros j fd Hj Hfd.
    destruct (heap w !! fdsp) as [[| |xs| |]|] eqn:Hfdsp; simpl in Hfd; try done.
    assert (fdsp ≠ se ∧ fdsp ≠ mb ∧ fdsp ≠ fa) as (? & ? & ?)
      by (split_and!; congruence).
    split.
    + rewrite list_lookup_insert_ne by done.
      apply (Hhigh j fd); [|lia].
      subst h2 h1. rewrite !lookup_insert_ne, Hfdsp by done. simpl.
      by rewrite lookup_take_lt.
    + destruct (FD_SETSIZE <=? fd) eqn:Hge; [|by apply Z.leb_gt].
      assert (existsb (fun fd => FD_SETSIZE <=? fd) (take (Z.to_nat (num_fds opts)) xs) = true)
        as Hex'; [|simpl in Hbig; congruence].
      apply existsb_exists. exists fd. split; [|done].
      apply list_elem_of_In, list_elem_of_lookup. exists j. by rewrite lookup_take_lt.
Qed.

Lemma request_stop_domain (fd : Z) (T : gmap tid thread) :
  dom (request_stop fd <$> T) = dom T.
Proof. apply dom_fmap_L. Qed.

Lemma select_create_destroy (o : oracle) (opts : options) (fdsp : block) (w : world)
    (e : SelectEngine.select_engine) (w1 : world) :
  0 ≤ num_fds opts →
  SelectEngine.select_create o opts fdsp w = Ret (Created e) w1 →
  ∃ w2, SelectEngine.select_destroy e w1 = Ret tt w2 ∧
        heap w2 = heap w ∧ fdflags w2 = fdflags w ∧ dom (threads w2) = dom (threads w).
Proof.
  intros Hn Hrun.
  destruct (select_create_success o opts fdsp w e w1 Hn Hrun)
    as (se & mb & fa & efd & t & arr & -> & Hse & Hmb & Hfa & Hne1 & Hne2 & Hne3 &
        Hheap & Hlen & Harr & _ & _ & _ & Hefd & Hflags & Ht & Hthreads).
  destruct w1 as [h f T tr]. simpl in Hheap, Hflags, Hthreads. subst h f T.
  unfold SelectEngine.select_destroy. simpl.
  unfold bind, load_int, write_ctl, pthread_join, sem_destroy, emit, close, free. simpl.
  rewrite !lookup_insert_eq. simpl. rewrite Harr. simpl.
  rewrite lookup_fmap, lookup_insert_eq. simpl.
  unfold request_stop at 1. simpl. rewrite decide_True by done. simpl.
  rewrite !lookup_insert_eq. simpl. rewrite Harr. simpl.
  eexists. split; [reflexivity|]. simpl. split_and!.
  - rewrite delete_insert_id by by rewrite !lookup_insert_ne.
    rewrite delete_insert_id by by rewrite !lookup_insert_ne.
    by rewrite delete_insert_id.
  - by rewrite delete_insert_id.
  - rewrite fmap_insert, delete_insert_id by by rewrite lookup_fmap, Ht.
    apply request_stop_domain.
Qed.

Lemma poll_register_fds_run (pa fdsp : block) (n : nat) :
  ∀ (i : nat) (ps : list pollfd) (w : world),
    heap w !! pa = Some (VPollfds ps) →
    ∃ ps', PollEngine.register_fds pa fdsp i n w
           = Ret tt (set_heap (<[pa := VPollfds ps']> (heap w)) w) ∧
           length ps' = length ps ∧
           (∀ j, (j ≤ i)%nat → ps' !! j = ps !! j) ∧
           (fdsp ≠ pa →
            ∀ j old, (j < n)%nat → ps !! S (i + j) = Some old →
                     ps' !! S (i + j)
                     = Some (Pollfd (default 0 (ints_of (heap w !! fdsp) !! (i + j)%nat))
                               POLLIN (pfd_revents old))).
Proof.
  induction n as [|n IH]; intros i ps w Hpa; simpl.
  { exists ps. unfold ret. rewrite insert_id, set_heap_same by done.
    split_and!; try done. intros _ j old Hj. lia. }
  unfold bind at 1. unfold load_int at 1. unfold bind at 1. unfold load_pollfd at 1.
  unfold bind at 1. unfold store_pollfd at 1.
  rewrite (alter_as_insert _ _ _ _ Hpa), Hpa. simpl pollfds_of.
  set (fd := default 0 (ints_of (heap w !! fdsp) !! i)).
  set (old0 := default (Pollfd 0 0 0) (ps !! S i)).
  match goal with |- context [PollEngine.register_fds pa fdsp (S i) n ?w1] =>
    destruct (IH (S i) (<[S i := Pollfd fd POLLIN (pfd_revents old0)]> ps) w1)
      as (ps' & -> & Hlen & Hlow & Hhigh)
  end.
  { simpl. by rewrite lookup_insert_eq. }
  exists ps'. simpl. rewrite insert_insert_eq. split; [done|].
  rewrite length_insert in Hlen. split; [done|]. split.
  - intros j Hj. rewrite Hlow by lia. apply list_lookup_insert_ne. lia.
  - intros Hne [|j] old Hj Hold.
    + rewrite Nat.add_0_r in Hold |- *. rewrite Hlow by lia.
      rewrite list_lookup_insert_eq by (by eapply lookup_lt_Some).
      subst old0 fd. by rewrite Hold.
    + rewrite <- Nat.add_succ_comm in Hold |- *.
      rewrite (Hhigh Hne j old); [|lia|].
      * simpl. by rewrite lookup_insert_ne.
      * rewrite list_lookup_insert_ne by lia. done.
Qed.

Ltac poll_labels :=
  unfold PollEngine.err_pthread_join, PollEngine.err_sem_destroy,
    PollEngine.err_close_eventfd, PollEngine.err_free_pollfds,
    PollEngine.err_free_msgbuf, PollEngine.err_free_se,
    bind, pthread_join, sem_destroy, emit, close, free, store_pollfd, load_pollfd, ret;
  simpl; repeat case_match; done.

Lemma poll_create_success (o : oracle) (opts : options) (fdsp : block) (w : world)
    (e : PollEngine.poll_engine) (w1 : world) :
  0 ≤ num_fds opts →
  PollEngine.poll_create o opts fdsp w = Ret (Created e) w1 →
  ∃ pe mb pa efd t ps,
    e = PollEngine.PE pe t mb (msg_size opts) pa (num_fds opts + 1) ∧
    heap w !! pe = None ∧ heap w !! mb = None ∧ heap w !! pa = None ∧
    pe ≠ mb ∧ pe ≠ pa ∧ mb ≠ pa ∧
    heap w1 = <[pa := VPollfds ps]>
                (<[mb := VBytes (replicate (Z.to_nat (msg_size opts)) 0)]>
                   (<[pe := VStruct]> (heap w))) ∧
    length ps = Z.to_nat (num_fds opts + 1) ∧ ps !! 0%nat = Some (Pollfd efd POLLIN 0) ∧
    (∀ j fd, (j < Z.to_nat (num_fds opts))%nat →
             ints_of (heap w !! fdsp) !! j = Some fd →
             ps !! S j = Some (Pollfd fd POLLIN 0)) ∧
    0 ≤ efd ∧ fdflags w !! efd = None ∧
    fdflags w1 = <[efd := Z.lor O_RDWR O_NONBLOCK]> (fdflags w) ∧
    threads w !! t = None ∧
    threads w1 = <[t := Thread (Some efd) false]> (threads w).
Proof.
  intros Hn. unfold PollEngine.poll_create.
  unfold bind at 1. unfold malloc at 1. destruct (alloc_ok o 0); [|done].
  unfold bind at 1. unfold malloc at 1. destruct (alloc_ok o 1); [|poll_labels].
  unfold bind at 1. unfold malloc at 1. destruct (alloc_ok o 2); [|poll_labels].
  simpl.
  set (pe := fresh (dom (heap w))).
  set (h1 := <[pe := VStruct]> (heap w)).
  set (mb := fresh (dom h1)).
  set (h2 := <[mb := _]> h1).
  set (pa := fresh (dom h2)).
  assert (Hpe : heap w !! pe = None) by apply not_elem_of_dom, is_fresh.
  assert (Hmb : h1 !! mb = None) by apply not_elem_of_dom, is_fresh.
  assert (Hpa : h2 !! pa = None) by apply not_elem_of_dom, is_fresh.
  assert (Hne1 : pe ≠ mb).
  { intros Heq. subst h1. rewrite <- Heq, lookup_insert_eq in Hmb. done. }
  assert (Hne2 : mb ≠ pa).
  { intros Heq. subst h2. rewrite <- Heq, lookup_insert_eq in Hpa. done. }
  assert (Hne3 : pe ≠ pa).
  { intros Heq. subst h2 h1. rewrite lookup_insert_ne, <- Heq, lookup_insert_eq in Hpa; done. }
  assert (Hmb' : heap w !! mb = None) by (subst h1; by rewrite lookup_insert_ne in Hmb).
  assert (Hpa' : heap w !! pa = None)
    by (subst h2 h1; by rewrite !lookup_insert_ne in Hpa).
  unfold bind at 1.
  match goal with |- context [PollEngine.register_fds pa fdsp 0 ?n ?w3] =>
    destruct (poll_register_fds_run pa fdsp n 0
                (replicate (Z.to_nat (num_fds opts + 1)) (Pollfd 0 0 0)) w3)
      as (ps & -> & Hlen & Hlow & Hhigh)
  end.
  { simpl. by rewrite lookup_insert_eq. }
  rewrite length_replicate in Hlen.
  simpl. rewrite insert_insert_eq.
  unfold bind at 1. unfold open_fd at 1. destruct (eventfd_ok o); [|poll_labels].
  simpl. set (efd := fresh (dom (fdflags w))).
  assert (Hefd : fdflags w !! efd = None) by apply not_elem_of_dom, is_fresh.
  unfold bind at 1. unfold load_pollfd at 1. simpl. rewrite lookup_insert_eq. simpl.
  assert (H0 : ps !! 0%nat = Some (Pollfd 0 0 0)).
  { rewrite Hlow by lia. apply lookup_replicate_2. lia. }
  rewrite H0. simpl.
  unfold bind at 1. unfold store_pollfd at 1. simpl.
  rewrite (alter_as_insert _ _ (VPollfds ps)) by by rewrite lookup_insert_eq.
  rewrite insert_insert_eq. simpl pollfds_of.
  destruct (efd <? 0) eqn:Hneg; [poll_labels|].
  unfold bind at 1. unfold store_pollfd at 1. simpl.
  rewrite (alter_as_insert _ _ (VPollfds (<[0%nat := Pollfd efd 0 0]> ps)))
    by by rewrite lookup_insert_eq.
  rewrite insert_insert_eq. simpl pollfds_of. rewrite list_insert_insert_eq.
  unfold bind at 1. unfold sem_init at 1. destruct (sem_init_ok o); simpl; [|poll_labels].
  unfold bind at 1. unfold pthread_create at 1.
  destruct (pthread_create_ok o 0); [|poll_labels].
  simpl. set (t := fresh (dom (threads w))).
  assert (Ht : threads w !! t = None) by apply not_elem_of_dom, is_fresh.
  unfold bind at 1.
  destruct (sem_wait_loop _ _) as [r w5|w5|w5] eqn:Hsw; [|done..].
  apply sem_wait_loop_run in Hsw as (Hh & Hf & Hth). simpl in Hh, Hf, Hth.
  destruct (r <? 0); [poll_labels|].
  unfold ret. intros [= <- <-].
  exists pe, mb, pa, efd, t, (<[0%nat := Pollfd efd POLLIN 0]> ps).
  apply Z.ltb_ge in Hneg.
  split_and!; try done; try lia.
  - rewrite length_insert. lia.
  - apply list_lookup_insert_eq. lia.
  - intros j fd Hj Hfd. rewrite list_lookup_insert_ne by done.
    destruct (heap w !! fdsp) as [[| |xs| |]|] eqn:Hfdsp; simpl in Hfd; try done.
    assert (fdsp ≠ pe ∧ fdsp ≠ mb ∧ fdsp ≠ pa) as (? & ? & ?)
      by (split_and!; congruence).
    assert (Hold : replicate (Z.to_nat (num_fds opts + 1)) (Pollfd 0 0 0) !! S (0 + j)
                   = Some (Pollfd 0 0 0)) by (apply lookup_replicate_2; lia).
    pose proof (Hhigh ltac:(done) j (Pollfd 0 0 0) Hj Hold) as Hreg.
    simpl in Hreg. rewrite Hreg.
    subst h2 h1. rewrite !lookup_insert_ne, Hfdsp by done. simpl. by rewrite Hfd.
Qed.

Lemma poll_create_destroy (o : oracle) (opts : options) (fdsp : block) (w : world)
    (e : PollEngine.poll_engine) (w1 : world) :
  0 ≤ num_fds opts →
  PollEngine.poll_create o opts fdsp w = Ret (Created e) w1 →
  ∃ w2, PollEngine.poll_destroy e w1 = Ret tt w2 ∧
        heap w2 = heap w ∧ fdflags w2 = fdflags w ∧ dom (threads w2) = dom (threads w).
Proof.
  intros Hn Hrun.
  destruct (poll_create_success o opts fdsp w e w1 Hn Hrun)
    as (pe & mb & pa & efd & t & ps & -> & Hpe & Hmb & Hpa & Hne1 & Hne2 & Hne3 &
        Hheap & Hlen & Hps & _ & _ & Hefd & Hflags & Ht & Hthreads).
  destruct w1 as [h f T tr]. simpl in Hheap, Hflags, Hthreads. subst h f T.
  unfold PollEngine.poll_destroy. simpl.
  unfold bind, load_pollfd, write_ctl, pthread_join, sem_destroy, emit, close, free. simpl.
  rewrite !lookup_insert_eq. simpl. rewrite Hps. simpl.
  rewrite lookup_fmap, lookup_insert_eq. simpl.
  unfold request_stop at 1. simpl. rewrite decide_True by done. simpl.
  rewrite !lookup_insert_eq. simpl. rewrite Hps. simpl.
  eexists. split; [reflexivity|]. simpl. split_and!.
  - rewrite delete_insert_id by by rewrite !lookup_insert_ne.
    rewrite delete_insert_id by by rewrite !lookup_insert_ne.
    by rewrite delete_insert_id.
  - by rewrite delete_insert_id.
  - rewrite fmap_insert, delete_insert_id by by rewrite lookup_fmap, Ht.
    apply request_stop_domain.
Qed.

Lemma sem_wait_loop_trace (rs : list (Z * Z)) :
  ∀ (w : world) (r : Z) (w' : world),
    sem_wait_loop rs w = Ret r w' →
    ∃ sw, trace w' = trace w ++ sw ∧ forallb is_sem_wait sw = true.
Proof.
  induction rs as [|[r0 e0] rs IH]; intros w r w'; simpl; [done|].
  unfold bind at 1. unfold emit at 1. destruct (_ && _).
  - intros Hrun. destruct (IH _ _ _ Hrun) as (sw & -> & Hsw).
    exists (EvSemWait r0 e0 :: sw). simpl. by rewrite <- app_assoc.
  - unfold ret. intros [= <- <-]. by exists [EvSemWait r0 e0].
Qed.

Lemma epoll_register_fds_run (o : oracle) (ep events : Z) (fdsp : block) (n : nat) :
  ∀ (i : nat) (w : world),
    ∃ ok es, EpollEngine.register_fds o ep events fdsp i n w
             = Ret ok (World (heap w) (fdflags w) (threads w) (trace w ++ es)) ∧
             (ok = true →
              es = map (fun j => EvEpollAdd ep (default 0 (ints_of (heap w !! fdsp) !! j)) events)
                     (seq i n)).
Proof.
  induction n as [|n IH]; intros i w; simpl.
  { exists true, []. unfold ret. rewrite app_nil_r. by destruct w. }
  unfold bind at 1. unfold load_int at 1. unfold bind at 1.
  unfold EpollEngine.epoll_ctl_add at 1.
  destruct (epoll_ctl_ret o _ <? 0) eqn:Hr.
  - unfold ret. rewrite Hr. exists false, []. rewrite app_nil_r. by destruct w.
  - unfold bind, emit, ret. rewrite Hr.
    match goal with |- context [EpollEngine.register_fds _ _ _ _ (S i) n ?w1] =>
      destruct (IH (S i) w1) as (ok & es & -> & Hes) end.
    exists ok. eexists (_ :: es). simpl. rewrite <- app_assoc. split; [done|].
    intros Hok. by rewrite (Hes Hok).
Qed.

Ltac epoll_labels :=
  unfold EpollEngine.err_pthread_join, EpollEngine.err_sem_destroy,
    EpollEngine.err_close_eventfd, EpollEngine.err_close_epfd,
    EpollEngine.err_free_msgbuf, EpollEngine.err_free_se,
    bind, pthread_join, sem_destroy, emit, close, free, ret;
  simpl; repeat case_match; done.

Lemma epoll_create_success (o : oracle) (opts : options) (fdsp : block) (w : world)
    (e : EpollEngine.epoll_engine) (w1 : world) :
  EpollEngine.epoll_do_create o opts fdsp w = Ret (Created e) w1 →
  ∃ pe mb ep ef t sw,
    e = EpollEngine.EE pe t mb (msg_size opts) ef ep ∧
    heap w !! pe = None ∧ heap w !! mb = None ∧ pe ≠ mb ∧
    heap w1 = <[mb := VBytes (replicate (Z.to_nat (msg_size opts)) 0)]>
                (<[pe := VStruct]> (heap w)) ∧
    fdflags w !! ep = None ∧ fdflags w !! ef = None ∧ ep ≠ ef ∧
    fdflags w1 = <[ef := Z.lor O_RDWR O_NONBLOCK]> (<[ep := O_RDWR]> (fdflags w)) ∧
    threads w !! t = None ∧
    threads w1 = <[t := Thread (Some ef) false]> (threads w) ∧
    let events := Z.lor EPOLLIN (if exclusive opts then EPOLLEXCLUSIVE else 0) in
    trace w1 = trace w ++
      [EvMalloc pe; EvMalloc mb; EvOpen ep] ++
      map (fun j => EvEpollAdd ep (default 0 (ints_of (heap w !! fdsp) !! j)) events)
        (seq 0 (Z.to_nat (num_fds opts))) ++
      [EvOpen ef; EvEpollAdd ep ef events; EvSemInit pe; EvSpawn t] ++ sw ∧
    forallb is_sem_wait sw = true.
Proof.
  unfold EpollEngine.epoll_do_create.
  unfold bind at 1. unfold malloc at 1. destruct (alloc_ok o 0); [|done].
  unfold bind at 1. unfold malloc at 1. destruct (alloc_ok o 1); [|epoll_labels].
  simpl.
  set (pe := fresh (dom (heap w))).
  set (h1 := <[pe := VStruct]> (heap w)).
  set (mb := fresh (dom h1)).
  assert (Hpe : heap w !! pe = None) by apply not_elem_of_dom, is_fresh.
  assert (Hmb : h1 !! mb = None) by apply not_elem_of_dom, is_fresh.
  assert (Hne1 : pe ≠ mb).
  { intros Heq. subst h1. rewrite <- Heq, lookup_insert_eq in Hmb. done. }
  assert (Hmb' : heap w !! mb = None) by (subst h1; by rewrite lookup_insert_ne in Hmb).
  unfold bind at 1. unfold open_fd at 1. destruct (epoll_create1_ok o); [|epoll_labels].
  simpl. set (ep := fresh (dom (fdflags w))).
  assert (Hep : fdflags w !! ep = None) by apply not_elem_of_dom, is_fresh.
  destruct (ep <? 0); [epoll_labels|].
  unfold bind at 1.
  match goal with |- context [EpollEngine.register_fds o ep ?events fdsp 0 ?n ?w3] =>
    destruct (epoll_register_fds_run o ep events fdsp n 0 w3) as (ok & es & -> & Hes)
  end.
  destruct ok; simpl; [|epoll_labels]. specialize (Hes eq_refl).
  unfold bind at 1. unfold open_fd at 1. destruct (eventfd_ok o); [|epoll_labels].
  simpl. set (ef := fresh (dom (<[ep := O_RDWR]> (fdflags w)))).
  assert (Hef : <[ep := O_RDWR]> (fdflags w) !! ef = None) by apply not_elem_of_dom, is_fresh.
  assert (Hne2 : ep ≠ ef).
  { intros Heq. rewrite <- Heq, lookup_insert_eq in Hef. done. }
  assert (Hef' : fdflags w !! ef = None) by by rewrite lookup_insert_ne in Hef.
  destruct (ef <? 0); [epoll_labels|].
  unfold bind at 1. unfold EpollEngine.epoll_ctl_add at 1.
  destruct (epoll_ctl_ret o ef <? 0) eqn:Hr.
  { unfold ret. rewrite Hr. epoll_labels. }
  unfold bind at 1. unfold emit at 1. unfold ret at 1. rewrite Hr.
  unfold bind at 1. unfold sem_init at 1. destruct (sem_init_ok o); simpl; [|epoll_labels].
  unfold bind at 1. unfold pthread_create at 1.
  destruct (pthread_create_ok o 0); [|epoll_labels].
  simpl. set (t := fresh (dom (threads w))).
  assert (Ht : threads w !! t = None) by apply not_elem_of_dom, is_fresh.
  unfold bind at 1.
  destruct (sem_wait_loop _ _) as [r w5|w5|w5] eqn:Hsw; [|done..].
  destruct (sem_wait_loop_trace _ _ _ _ Hsw) as (sw & Htr & Hsws).
  apply sem_wait_loop_run in Hsw as (Hh & Hf & Hth). simpl in Hh, Hf, Hth, Htr.
  destruct (r <? 0); [epoll_labels|].
  unfold ret. intros [= <- <-].
  exists pe, mb, ep, ef, t, sw.
  split_and!; try done.
  rewrite Htr, Hes. simpl. rewrite <- !app_assoc. simpl.
  assert (Hints : ints_of (<[mb := VBytes (replicate (Z.to_nat (msg_size opts)) 0)]> h1
                           !! fdsp) = ints_of (heap w !! fdsp)).
  { subst h1. destruct (decide (fdsp = mb)) as [->|?].
    - by rewrite lookup_insert_eq, Hmb'.
    - rewrite lookup_insert_ne by done. destruct (decide (fdsp = pe)) as [->|?].
      + by rewrite lookup_insert_eq, Hpe.
      + by rewrite lookup_insert_ne. }
  by rewrite Hints.
Qed.

Lemma epoll_create_destroy (o : oracle) (opts : options) (fdsp : block) (w : world)
    (e : EpollEngine.epoll_engine) (w1 : world) :
  EpollEngine.epoll_do_create o opts fdsp w = Ret (Created e) w1 →
  ∃ w2, EpollEngine.epoll_destroy e w1 = Ret tt w2 ∧
        heap w2 = heap w ∧ fdflags w2 = fdflags w ∧ dom (threads w2) = dom (threads w).
Proof.
  intros Hrun.
  destruct (epoll_create_success o opts fdsp w e w1 Hrun)
    as (pe & mb & ep & ef & t & sw & -> & Hpe & Hmb & Hne1 & Hheap & Hep & Hef & Hne2 &
        Hflags & Ht & Hthreads & _).
  destruct w1 as [h f T tr]. simpl in Hheap, Hflags, Hthreads. subst h f T.
  unfold EpollEngine.epoll_destroy. simpl.
  unfold bind, write_ctl, pthread_join, sem_destroy, emit, close, free. simpl.
  rewrite lookup_fmap, lookup_insert_eq. simpl.
  unfold request_stop at 1. simpl. rewrite decide_True by done. simpl.
  eexists. split; [reflexivity|]. simpl. split_and!.
  - rewrite delete_insert_id by by rewrite !lookup_insert_ne.
    by rewrite delete_insert_id.
  - rewrite delete_insert_id by by rewrite !lookup_insert_ne.
    by rewrite delete_insert_id.
  - rewrite fmap_insert, delete_insert_id by by rewrite lookup_fmap, Ht.
    apply request_stop_domain.
Qed.

Lemma poll_sqes_app (e1 e2 : list event) : poll_sqes (e1 ++ e2) = poll_sqes e1 ++ poll_sqes e2.
Proof. apply omap_app. Qed.

Lemma poll_sqes_sem_waits (sw : list event) : forallb is_sem_wait sw = true → poll_sqes sw = [].
Proof.
  induction sw as [|e sw IH]; [done|]. simpl. intros [He Hsw]%andb_true_iff.
  destruct e; try done. by apply IH.
Qed.

(** One call of [io_uring_add_poll_sqe] queues exactly one poll request
    for its descriptor when a submission-queue entry is free or
    [io_uring_submit] succeeds. *)
Lemma io_uring_add_poll_sqe_queued (o : oracle) (mask fd : Z) (p : nat) (w : world) :
  ∃ p' es, IoUringEngine.io_uring_add_poll_sqe o mask fd p w
           = Ret p' (World (heap w) (fdflags w) (threads w) (trace w ++ es)) ∧
           (submit_ok o = true ∨ (p < IoUringEngine.SQ_ENTRIES)%nat →
            poll_sqes es = [(fd, mask)] ∧ (p' ≤ S p)%nat).
Proof.
  unfold IoUringEngine.io_uring_add_poll_sqe, IoUringEngine.io_uring_submit,
    IoUringEngine.io_uring_get_sqe.
  destruct (p <? IoUringEngine.SQ_ENTRIES)%nat eqn:Hp.
  { eexists _, [_]. split; [reflexivity|]. intros _. split; [done|lia]. }
  apply Nat.ltb_ge in Hp.
  destruct (submit_ok o).
  - unfold bind, emit, ret, log. simpl.
    destruct (Z.of_nat p <? 0) eqn:Hneg; [apply Z.ltb_lt in Hneg; lia|].
    eexists _, [_; _]. simpl. rewrite <- app_assoc. split; [reflexivity|].
    intros _. split; [done|lia].
  - eexists _, [_]. split; [reflexivity|]. intros [?|?]; [done|lia].
Qed.

Lemma io_uring_register_fds_run (o : oracle) (mask : Z) (fdsp : block) (n : nat) :
  ∀ (i p : nat) (w : world),
    ∃ p' es, IoUringEngine.register_fds o mask fdsp i n p w
             = Ret p' (World (heap w) (fdflags w) (threads w) (trace w ++ es)) ∧
             (submit_ok o = true ∨ (p + n ≤ IoUringEngine.SQ_ENTRIES)%nat →
              poll_sqes es
              = map (fun j => (default 0 (ints_of (heap w !! fdsp) !! j), mask)) (seq i n) ∧
              (p' ≤ p + n)%nat).
Proof.
  induction n as [|n IH]; intros i p w; simpl.
  { exists p, []. unfold ret. rewrite app_nil_r. split; [by destruct w|].
    intros _. split; [done|lia]. }
  unfold bind at 1. unfold load_int at 1. unfold bind at 1.
  destruct (io_uring_add_poll_sqe_queued o mask
              (default 0 (ints_of (heap w !! fdsp) !! i)) p w) as (p1 & es1 & -> & H1).
  match goal with |- context [IoUringEngine.register_fds _ _ _ (S i) n p1 ?w1] =>
    destruct (IH (S i) p1 w1) as (p2 & es2 & -> & H2) end.
  exists p2, (es1 ++ es2). simpl. rewrite <- app_assoc. split; [done|].
  intros Hok.
  destruct H1 as [Hes1 Hp1]; [destruct Hok; [by left|right; lia]|].
  destruct H2 as [Hes2 Hp2]; [destruct Hok; [by left|right; lia]|].
  simpl in Hes2. rewrite poll_sqes_app, Hes1, Hes2. split; [done|lia].
Qed.

Ltac io_uring_labels :=
  unfold IoUringEngine.err_pthread_join, IoUringEngine.err_sem_destroy,
    IoUringEngine.err_close_eventfd, IoUringEngine.err_queue_exit,
    IoUringEngine.io_uring_queue_exit,
    IoUringEngine.err_free_msgbuf, IoUringEngine.err_free_se,
    bind, pthread_join, sem_destroy, emit, close, free, ret;
  simpl; repeat case_match; done.

Lemma io_uring_create_success (o : oracle) (opts : options) (fdsp : block) (w : world)
    (e : IoUringEngine.io_uring_engine) (w1 : world) :
  IoUringEngine.io_uring_create o opts fdsp w = Ret (Created e) w1 →
  ∃ pe mb rfd ef t tr,
    let mask := if exclusive opts then Z.lor POLLIN EPOLLEXCLUSIVE else POLLIN in
    e = IoUringEngine.UE pe t mb (msg_size opts) rfd ef mask ∧
    heap w !! pe = None ∧ heap w !! mb = None ∧ pe ≠ mb ∧
    heap w1 = <[mb := VBytes (replicate (Z.to_nat (msg_size opts)) 0)]>
                (<[pe := VStruct]> (heap w)) ∧
    fdflags w !! rfd = None ∧ fdflags w !! ef = None ∧ rfd ≠ ef ∧
    fdflags w1 = <[ef := Z.lor O_RDWR O_NONBLOCK]> (<[rfd := O_RDWR]> (fdflags w)) ∧
    threads w !! t = None ∧
    threads w1 = <[t := Thread (Some ef) false]> (threads w) ∧
    trace w1 = trace w ++ tr ∧
    (submit_ok o = true ∨ num_fds opts < Z.of_nat IoUringEngine.SQ_ENTRIES →
     poll_sqes tr
     = map (fun j => (default 0 (ints_of (heap w !! fdsp) !! j), mask))
         (seq 0 (Z.to_nat (num_fds opts))) ++ [(ef, mask)]).
Proof.
  unfold IoUringEngine.io_uring_create.
  unfold bind at 1. unfold malloc at 1. destruct (alloc_ok o 0); [|done].
  unfold bind at 1. unfold malloc at 1. destruct (alloc_ok o 1); [|io_uring_labels].
  simpl.
  set (pe := fresh (dom (heap w))).
  set (h1 := <[pe := VStruct]> (heap w)).
  set (mb := fresh (dom h1)).
  assert (Hpe : heap w !! pe = None) by apply not_elem_of_dom, is_fresh.
  assert (Hmb : h1 !! mb = None) by apply not_elem_of_dom, is_fresh.
  assert (Hne1 : pe ≠ mb).
  { intros Heq. subst h1. rewrite <- Heq, lookup_insert_eq in Hmb. done. }
  assert (Hmb' : heap w !! mb = None) by (subst h1; by rewrite lookup_insert_ne in Hmb).
  unfold bind at 1. unfold IoUringEngine.io_uring_queue_init at 1.
  unfold bind at 1. unfold open_fd at 1. destruct (queue_init_ok o); [|io_uring_labels].
  simpl. set (rfd := fresh (dom (fdflags w))).
  assert (Hrfd : fdflags w !! rfd = None) by apply not_elem_of_dom, is_fresh.
  destruct (rfd <? 0) eqn:Hneg.
  { unfold ret. rewrite Hneg. io_uring_labels. }
  unfold bind at 1. unfold emit at 1. unfold ret at 1. rewrite Hneg.
  unfold bind at 1.
  match goal with |- context [IoUringEngine.register_fds o ?mask fdsp 0 ?n 0 ?w3] =>
    destruct (io_uring_register_fds_run o mask fdsp n 0 0 w3) as (p1 & es1 & -> & Hes1)
  end.
  simpl in Hes1 |- *.
  unfold bind at 1. unfold open_fd at 1. destruct (eventfd_ok o); [|io_uring_labels].
  simpl. set (ef := fresh (dom (<[rfd := O_RDWR]> (fdflags w)))).
  assert (Hef : <[rfd := O_RDWR]> (fdflags w) !! ef = None) by apply not_elem_of_dom, is_fresh.
  assert (Hne2 : rfd ≠ ef).
  { intros Heq. rewrite <- Heq, lookup_insert_eq in Hef. done. }
  assert (Hef' : fdflags w !! ef = None) by by rewrite lookup_insert_ne in Hef.
  destruct (ef <? 0); [io_uring_labels|].
  unfold bind at 1.
  match goal with |- context [IoUringEngine.io_uring_add_poll_sqe o ?mask ef p1 ?w4] =>
    destruct (io_uring_add_poll_sqe_queued o mask ef p1 w4) as (p2 & es2 & -> & Hes2)
  end.
  simpl in Hes2 |- *.
  unfold bind at 1.
  assert (Hsub : ∃ es3, poll_sqes es3 = [] ∧
            ∀ w5, ∃ rp, IoUringEngine.io_uring_submit o p2 w5
                        = Ret rp (World (heap w5) (fdflags w5) (threads w5) (trace w5 ++ es3))).
  { unfold IoUringEngine.io_uring_submit. destruct (submit_ok o).
    - exists [EvSubmit]. split; [done|]. intros w5. by eexists.
    - exists []. split; [done|]. intros w5. eexists. unfold ret. rewrite app_nil_r.
      by destruct w5. }
  destruct Hsub as (es3 & Hes3 & Hsub).
  match goal with |- context [IoUringEngine.io_uring_submit o p2 ?w5] =>
    destruct (Hsub w5) as (rp & ->) end.
  simpl.
  unfold bind at 1. unfold sem_init at 1. destruct (sem_init_ok o); simpl; [|io_uring_labels].
  unfold bind at 1. unfold pthread_create at 1.
  destruct (pthread_create_ok o 0); [|io_uring_labels].
  simpl. set (t := fresh (dom (threads w))).
  assert (Ht : threads w !! t = None) by apply not_elem_of_dom, is_fresh.
  unfold bind at 1.
  destruct (sem_wait_loop _ _) as [r w6|w6|w6] eqn:Hsw; [|done..].
  destruct (sem_wait_loop_trace _ _ _ _ Hsw) as (sw & Htr & Hsws).
  apply sem_wait_loop_run in Hsw as (Hh & Hf & Hth). simpl in Hh, Hf, Hth, Htr.
  destruct (r <? 0); [io_uring_labels|].
  unfold ret. intros [= <- <-].
  exists pe, mb, rfd, ef, t. eexists. simpl.
  split_and!; try done.
  { rewrite Htr, <- !app_assoc. reflexivity. }
  intros Hok.
  destruct Hes1 as [Hes1 Hp1]; [destruct Hok; [by left|right; lia]|].
  destruct Hes2 as [Hes2 Hp2].
  { destruct Hok; [by left|right]. unfold IoUringEngine.SQ_ENTRIES in *. lia. }
  assert (Hints : ints_of (<[mb := VBytes (replicate (Z.to_nat (msg_size opts)) 0)]> h1
                           !! fdsp) = ints_of (heap w !! fdsp)).
  { subst h1. destruct (decide (fdsp = mb)) as [->|?].
    - by rewrite lookup_insert_eq, Hmb'.
    - rewrite lookup_insert_ne by done. destruct (decide (fdsp = pe)) as [->|?].
      + by rewrite lookup_insert_eq, Hpe.
      + by rewrite lookup_insert_ne. }
  rewrite Hints in Hes1.
  simpl. rewrite poll_sqes_app, Hes1. f_equal.
  change (poll_sqes (es2 ++ es3 ++ EvSemInit pe :: EvSpawn t :: sw)
          = [(ef, if exclusive opts then Z.lor POLLIN EPOLLEXCLUSIVE else POLLIN)]).
  rewrite !poll_sqes_app, Hes2, Hes3.
  change (poll_sqes (EvSemInit pe :: EvSpawn t :: sw)) with (poll_sqes sw).
  by rewrite (poll_sqes_sem_waits _ Hsws).
Qed.

Lemma io_uring_create_destroy (o : oracle) (opts : options) (fdsp : block) (w : world)
    (e : IoUringEngine.io_uring_engine) (w1 : world) :
  IoUringEngine.io_uring_create o opts fdsp w = Ret (Created e) w1 →
  ∃ w2, IoUringEngine.io_uring_destroy e w1 = Ret tt w2 ∧
        heap w2 = heap w ∧ fdflags w2 = fdflags w ∧ dom (threads w2) = dom (threads w).
Proof.
  intros Hrun.
  destruct (io_uring_create_success o opts fdsp w e w1 Hrun)
    as (pe & mb & rfd & ef & t & tr0 & -> & Hpe & Hmb & Hne1 & Hheap & Hrfd & Hef & Hne2 &
        Hflags & Ht & Hthreads & _).
  destruct w1 as [h f T tr]. simpl in Hheap, Hflags, Hthreads. subst h f T.
  unfold IoUringEngine.io_uring_destroy, IoUringEngine.io_uring_queue_exit. simpl.
  unfold bind, write_ctl, pthread_join, sem_destroy, emit, close, free. simpl.
  rewrite lookup_fmap, lookup_insert_eq. simpl.
  unfold request_stop at 1. simpl. rewrite decide_True by done. simpl.
  eexists. split; [reflexivity|]. simpl. split_and!.
  - rewrite delete_insert_id by by rewrite !lookup_insert_ne.
    by rewrite delete_insert_id.
  - rewrite delete_insert_id by by rewrite !lookup_insert_ne.
    by rewrite delete_insert_id.
  - rewrite fmap_insert, delete_insert_id by by rewrite lookup_fmap, Ht.
    apply request_stop_domain.
Qed.

(** The spawn loop of [threads_create], when it runs to the end: the
    array holds the new threads, which are exactly what the thread table
    gained; no descriptor was opened or closed. *)
Lemma spawn_threads_run (o : oracle) (ta fdsp : block) (n : nat) :
  ∀ (i : nat) (ts : list tid) (w w' : world),
    heap w !! ta = Some (VTids ts) → (i + n ≤ length ts)%nat →
    ThreadsEngine.spawn_threads o ta fdsp i n w = Ret None w' →
    ∃ ts', heap w' = <[ta := VTids ts']> (heap w) ∧ length ts' = length ts ∧
           (∀ j, (j < i)%nat → ts' !! j = ts !! j) ∧
           dom (fdflags w') = dom (fdflags w) ∧
           dom (threads w') = dom (threads w) ∪ list_to_set (take n (drop i ts')) ∧
           (∀ t, t ∈ take n (drop i ts') → t ∉ dom (threads w)).
Proof.
  induction n as [|n IH]; intros i ts w w' Hta Hlen; simpl.
  { unfold ret. intros [= <-]. exists ts. rewrite insert_id by done.
    split_and!; try done; [set_solver|]. intros t Ht. by apply elem_of_nil in Ht. }
  unfold bind at 1. unfold load_int at 1.
  unfold bind at 1. unfold fcntl_getfl at 1.
  unfold bind at 1. unfold fcntl_setfl at 1.
  unfold bind at 1. unfold pthread_create at 1.
  destruct (pthread_create_ok o i).
  2:{ unfold bind. destruct (ThreadsEngine.cancel_threads _ _ _); done. }
  simpl. set (t := fresh (dom (threads w))).
  assert (Ht : t ∉ dom (threads w)) by apply is_fresh.
  unfold bind at 1. unfold store_tid at 1. simpl.
  rewrite (alter_as_insert _ _ _ _ Hta). simpl tids_of.
  unfold bind at 1.
  destruct (sem_wait_loop _ _) as [r w4|w4|w4] eqn:Hsw; [|done..].
  apply sem_wait_loop_run in Hsw as (Hh & Hf & Hth). simpl in Hh, Hf, Hth.
  destruct (r <? 0).
  { unfold bind. destruct (load_tid _ _ _) as [t' w5|?|?]; [|done..].
    destruct (pthread_join _ _) as [? w6|?|?]; [|done..].
    destruct (ThreadsEngine.cancel_threads _ _ _); done. }
  intros Hrun.
  destruct (IH (S i) (<[i := t]> ts) w4 w') as (ts' & Hheap & Hlen' & Hlow & Hfl & Hdom & Hnew);
    [by rewrite Hh, lookup_insert_eq|rewrite length_insert; lia|done|].
  rewrite length_insert in Hlen'.
  assert (Hi : ts' !! i = Some t).
  { rewrite Hlow by lia. apply list_lookup_insert_eq. lia. }
  exists ts'. rewrite Hheap, Hh, insert_insert_eq. split; [done|]. split; [done|].
  rewrite (drop_S _ _ _ Hi). simpl. split_and!.
  - intros j Hj. rewrite Hlow by lia. apply list_lookup_insert_ne. lia.
  - by rewrite Hfl, Hf, dom_alter_L.
  - rewrite Hdom, Hth, dom_insert_L. set_solver.
  - intros t' [->|Hin]%elem_of_cons; [done|].
    apply Hnew in Hin. rewrite Hth, dom_insert_L in Hin. set_solver.
Qed.

(** The loop of [threads_destroy] always returns: it cancels every thread
    before it joins it. *)
Lemma stop_threads_run (ta : block) (n : nat) :
  ∀ (i : nat) (ts : list tid) (w : world),
    heap w !! ta = Some (VTids ts) → (i + n ≤ length ts)%nat →
    ∃ w', ThreadsEngine.stop_threads ta i n w = Ret tt w' ∧
          heap w' = heap w ∧ fdflags w' = fdflags w ∧
          dom (threads w') = dom (threads w) ∖ list_to_set (take n (drop i ts)).
Proof.
  induction n as [|n IH]; intros i ts w Hta Hlen; simpl.
  { exists w. split_and!; try done. set_solver. }
  unfold bind at 1. unfold load_tid at 1. unfold bind at 1. unfold pthread_cancel at 1.
  unfold bind at 1. unfold load_tid at 1. simpl heap. rewrite Hta. simpl tids_of.
  destruct (ts !! i) as [t|] eqn:Hi; [|apply lookup_ge_None in Hi; unfold tid in *; lia].
  simpl default.
  unfold bind at 1. unfold pthread_join at 1. simpl threads.
  unfold tid in *. rewrite (drop_S _ _ _ Hi). simpl.
  rewrite lookup_alter_eq.
  match goal with |- context [_ <$> ?l] => destruct l as [th|] eqn:Hth end; simpl.
  - match goal with |- context [ThreadsEngine.stop_threads ta (S i) n ?w1] =>
      destruct (IH (S i) ts w1) as (w' & -> & Hh & Hf & Hdom); [done|lia|] end.
    exists w'. split; [done|]. simpl in Hh, Hf, Hdom.
    split_and!; try done. rewrite Hdom, dom_delete_L, dom_alter_L. set_solver.
  - match goal with |- context [ThreadsEngine.stop_threads ta (S i) n ?w1] =>
      destruct (IH (S i) ts w1) as (w' & -> & Hh & Hf & Hdom); [done|lia|] end.
    exists w'. split; [done|]. simpl in Hh, Hf, Hdom.
    split_and!; try done. rewrite Hdom, dom_alter_L.
    apply not_elem_of_dom in Hth. set_solver.
Qed.

Ltac threads_labels :=
  unfold ThreadsEngine.err_sem_destroy, ThreadsEngine.err_free_threads,
    ThreadsEngine.err_free_msgbuf, ThreadsEngine.err_free_se,
    bind, sem_destroy, emit, free, ret;
  simpl; repeat case_match; done.

Lemma threads_create_success (o : oracle) (opts : options) (fdsp : block) (w : world)
    (e : ThreadsEngine.threads_engine) (w1 : world) :
  ThreadsEngine.threads_create o opts fdsp w = Ret (Created e) w1 →
  ∃ te mb ta ts,
    e = ThreadsEngine.TE te ta mb (msg_size opts) (num_fds opts) ∧
    heap w !! te = None ∧ heap w !! mb = None ∧ heap w !! ta = None ∧
    te ≠ mb ∧ te ≠ ta ∧ mb ≠ ta ∧
    heap w1 = <[ta := VTids ts]>
                (<[mb := VBytes (replicate (Z.to_nat (msg_size opts)) 0)]>
                   (<[te := VStruct]> (heap w))) ∧
    length ts = Z.to_nat (num_fds opts) ∧
    dom (fdflags w1) = dom (fdflags w) ∧
    dom (threads w1) = dom (threads w) ∪ list_to_set ts ∧
    (∀ t, t ∈ ts → t ∉ dom (threads w)).
Proof.
  unfold ThreadsEngine.threads_create.
  unfold bind at 1. unfold malloc at 1. destruct (alloc_ok o 0); [|done].
  unfold bind at 1. unfold malloc at 1. destruct (alloc_ok o 1); [|threads_labels].
  unfold bind at 1. unfold malloc at 1. destruct (alloc_ok o 2); [|threads_labels].
  simpl.
  set (te := fresh (dom (heap w))).
  set (h1 := <[te := VStruct]> (heap w)).
  set (mb := fresh (dom h1)).
  set (h2 := <[mb := _]> h1).
  set (ta := fresh (dom h2)).
  assert (Hte : heap w !! te = None) by apply not_elem_of_dom, is_fresh.
  assert (Hmb : h1 !! mb = None) by apply not_elem_of_dom, is_fresh.
  assert (Hta : h2 !! ta = None) by apply not_elem_of_dom, is_fresh.
  assert (Hne1 : te ≠ mb).
  { intros Heq. subst h1. rewrite <- Heq, lookup_insert_eq in Hmb. done. }
  assert (Hne2 : mb ≠ ta).
  { intros Heq. subst h2. rewrite <- Heq, lookup_insert_eq in Hta. done. }
  assert (Hne3 : te ≠ ta).
  { intros Heq. subst h2 h1. rewrite lookup_insert_ne, <- Heq, lookup_insert_eq in Hta; done. }
  assert (Hmb' : heap w !! mb = None) by (subst h1; by rewrite lookup_insert_ne in Hmb).
  assert (Hta' : heap w !! ta = None)
    by (subst h2 h1; by rewrite !lookup_insert_ne in Hta).
  unfold bind at 1. unfold sem_init at 1. destruct (sem_init_ok o); simpl; [|threads_labels].
  unfold bind at 1.
  destruct (ThreadsEngine.spawn_threads _ _ _ _ _ _) as [[err|] w4|w4|w4] eqn:Hspawn;
    [threads_labels| |done..].
  unfold ret. intros [= <- <-].
  eapply (spawn_threads_run _ _ _ _ _ (replicate (Z.to_nat (num_fds opts)) 0%nat)) in Hspawn
    as (ts & Hheap & Hlen & _ & Hfl & Hdom & Hnew);
    [|simpl; by rewrite lookup_insert_eq|rewrite length_replicate; lia].
  rewrite length_replicate in Hlen.
  rewrite drop_0, take_ge in Hdom, Hnew by lia.
  simpl in Hheap, Hfl, Hdom, Hnew. rewrite insert_insert_eq in Hheap.
  exists te, mb, ta, ts. split_and!; done.
Qed.

Lemma threads_create_destroy (o : oracle) (opts : options) (fdsp : block) (w : world)
    (e : ThreadsEngine.threads_engine) (w1 : world) :
  ThreadsEngine.threads_create o opts fdsp w = Ret (Created e) w1 →
  ∃ w2, ThreadsEngine.threads_destroy e w1 = Ret tt w2 ∧
        heap w2 = heap w ∧ dom (fdflags w2) = dom (fdflags w) ∧
        dom (threads w2) = dom (threads w).
Proof.
  intros Hrun.
  destruct (threads_create_success o opts fdsp w e w1 Hrun)
    as (te & mb & ta & ts & -> & Hte & Hmb & Hta & Hne1 & Hne2 & Hne3 & Hheap & Hlen &
        Hfl & Hdom & Hnew).
  unfold ThreadsEngine.threads_destroy. simpl.
  destruct (stop_threads_run ta (Z.to_nat (num_fds opts)) 0 ts w1) as (w2 & Hstop & Hh & Hf & Hd);
    [by rewrite Hheap, lookup_insert_eq|lia|].
  unfold bind at 1. rewrite Hstop.
  unfold bind, sem_destroy, emit, free. simpl.
  eexists. split; [reflexivity|]. simpl.
  rewrite drop_0, take_ge in Hd by lia.
  split_and!.
  - rewrite Hh, Hheap.
    rewrite delete_insert_id by by rewrite !lookup_insert_ne.
    rewrite delete_insert_id by by rewrite !lookup_insert_ne.
    by rewrite delete_insert_id.
  - by rewrite Hf.
  - rewrite Hd, Hdom. set_solver.
Qed.

(** X4.  Every backend: when [create] has returned a handle and
    [destroy] on that handle returns, the heap is what it was before
    [create], the set of open descriptors is the same (for the four event
    engines with the same status flags), and no thread is left over.
    Whether [destroy] returns depends on the worker leaving its loop; that
    is not part of this statement. *)
Theorem create_then_destroy_restores (b : backend) (o : oracle) (opts : options)
    (fdsp : block) (w : world) (e : engine_handle) (w1 w2 : world) :
  0 ≤ num_fds opts →
  create (ops_of b) o opts fdsp w = Ret (Created e) w1 →
  destroy (ops_of b) e w1 = Ret tt w2 →
  heap w2 = heap w ∧
  dom (fdflags w2) = dom (fdflags w) ∧
  (b ≠ Threads → fdflags w2 = fdflags w) ∧
  dom (threads w2) = dom (threads w).
Proof.
  intros Hn.
  destruct b; simpl; unfold map_result, bind.
  - destruct (SelectEngine.select_create o opts fdsp w) as [[e'|] w'|w'|w'] eqn:Hrun;
      try done.
    unfold ret. intros [= <- <-].
    destruct (select_create_destroy _ _ _ _ _ _ Hn Hrun) as (w3 & -> & Hh & Hf & Ht).
    intros [= <-]. by rewrite Hf.
  - destruct (PollEngine.poll_create o opts fdsp w) as [[e'|] w'|w'|w'] eqn:Hrun;
      try done.
    unfold ret. intros [= <- <-].
    destruct (poll_create_destroy _ _ _ _ _ _ Hn Hrun) as (w3 & -> & Hh & Hf & Ht).
    intros [= <-]. by rewrite Hf.
  - destruct (EpollEngine.epoll_do_create o opts fdsp w) as [[e'|] w'|w'|w'] eqn:Hrun;
      try done.
    unfold ret. intros [= <- <-].
    destruct (epoll_create_destroy _ _ _ _ _ _ Hrun) as (w3 & -> & Hh & Hf & Ht).
    intros [= <-]. by rewrite Hf.
  - destruct (IoUringEngine.io_uring_create o opts fdsp w) as [[e'|] w'|w'|w'] eqn:Hrun;
      try done.
    unfold ret. intros [= <- <-].
    destruct (io_uring_create_destroy _ _ _ _ _ _ Hrun) as (w3 & -> & Hh & Hf & Ht).
    intros [= <-]. by rewrite Hf.
  - destruct (ThreadsEngine.threads_create o opts fdsp w) as [[e'|] w'|w'|w'] eqn:Hrun;
      try done.
    unfold ret. intros [= <- <-].
    destruct (threads_create_destroy _ _ _ _ _ _ Hrun) as (w3 & -> & Hh & Hf & Ht).
    intros [= <-]. done.
Qed.

Lemma create_then_destroy_restores_witness :
  0 ≤ num_fds (opts0 Select false) ∧
  create (ops_of Select) all_ok (opts0 Select false) 7%nat w0
  = Ret (Created (HSelect se0)) (final_world select_created) ∧
  is_Some (returned (destroy (ops_of Select) (HSelect se0) (final_world select_created))) ∧
  let w2 := final_world (destroy (ops_of Select) (HSelect se0) (final_world select_created)) in
  heap w2 = heap w0 ∧
  dom (fdflags w2) = dom (fdflags w0) ∧
  (Select ≠ Threads → fdflags w2 = fdflags w0) ∧
  dom (threads w2) = dom (threads w0).
Proof.
  split; [vm_compute; discriminate|]. split; [vm_compute; reflexivity|].
  split; [vm_compute; by eexists|].
  apply (create_then_destroy_restores Select all_ok (opts0 Select false) 7%nat w0
           (HSelect se0) (final_world select_created)).
  - vm_compute. discriminate.
  - vm_compute. reflexivity.
  - vm_compute. reflexivity.
Defined.

Lemma caller_fds_by_index (w : world) (fdsp : block) (n : Z) :
  (Z.to_nat n ≤ length (ints_of (heap w !! fdsp)))%nat →
  map (fun j => default 0 (ints_of (heap w !! fdsp) !! j)) (seq 0 (Z.to_nat n))
  = caller_fds w fdsp n.
Proof.
  intros Hlen. unfold caller_fds. apply list_eq. intros j.
  rewrite list_lookup_fmap.
  destruct (decide (j < Z.to_nat n)%nat) as [Hj|Hj].
  - rewrite lookup_seq_lt, lookup_take_lt by done. simpl.
    destruct (lookup_lt_is_Some_2 (ints_of (heap w !! fdsp)) j) as [x Hx]; [lia|].
    by rewrite Hx.
  - rewrite lookup_seq_ge, lookup_take_ge by lia. done.
Qed.

Lemma epoll_adds_app (e1 e2 : list event) :
  epoll_adds (e1 ++ e2) = epoll_adds e1 ++ epoll_adds e2.
Proof. apply omap_app. Qed.

Lemma epoll_adds_map (ep ev : Z) (f : nat → Z) (l : list nat) :
  epoll_adds (map (fun j => EvEpollAdd ep (f j) ev) l) = map (fun j => (ep, f j, ev)) l.
Proof. induction l as [|j l IH]; [done|]. cbn. by f_equal. Qed.

Lemma epoll_adds_sem_waits (sw : list event) :
  forallb is_sem_wait sw = true → epoll_adds sw = [].
Proof.
  induction sw as [|e sw IH]; [done|]. simpl. intros [He Hsw]%andb_true_iff.
  destruct e; try done. by apply IH.
Qed.

(** X5.  What a successful [create] has registered, for an array [fds]
    that holds at least [num_fds] descriptors.  [select]: the instance's
    array is the fresh eventfd followed by the [num_fds] descriptors, all
    below [FD_SETSIZE].  [poll]: the instance's array has one entry per
    descriptor, eventfd first, each asking for [POLLIN].  [epoll]: one
    [EPOLL_CTL_ADD] per descriptor and then one for the eventfd, each with
    [EPOLLIN], and [EPOLLEXCLUSIVE] exactly when the option is set.
    [io_uring]: one poll request per descriptor and then one for the
    eventfd, with the same mask, provided [io_uring_submit] succeeds or
    fewer than 64 descriptors are given. *)
Theorem create_registers_every_descriptor (o : oracle) (opts : options) (fdsp : block)
    (w w1 : world) :
  0 ≤ num_fds opts →
  (Z.to_nat (num_fds opts) ≤ length (ints_of (heap w !! fdsp)))%nat →
  let data := caller_fds w fdsp (num_fds opts) in
  (∀ e, SelectEngine.select_create o opts fdsp w = Ret (Created e) w1 →
        ∃ efd, fdflags w !! efd = None ∧
               heap w1 !! SelectEngine.fds e = Some (VInts (efd :: data)) ∧
               SelectEngine.se_num_fds e = num_fds opts + 1 ∧
               Forall (fun fd => fd < FD_SETSIZE) (efd :: data)) ∧
  (∀ e, PollEngine.poll_create o opts fdsp w = Ret (Created e) w1 →
        ∃ efd, fdflags w !! efd = None ∧
               heap w1 !! PollEngine.pollfds e
               = Some (VPollfds (map (fun fd => Pollfd fd POLLIN 0) (efd :: data))) ∧
               PollEngine.pe_num_fds e = num_fds opts + 1) ∧
  (∀ e, EpollEngine.epoll_do_create o opts fdsp w = Ret (Created e) w1 →
        epoll_adds (emitted w w1)
        = map (fun fd => (EpollEngine.epfd e, fd,
                          Z.lor EPOLLIN (if exclusive opts then EPOLLEXCLUSIVE else 0)))
            (data ++ [EpollEngine.efd e])) ∧
  (∀ e, IoUringEngine.io_uring_create o opts fdsp w = Ret (Created e) w1 →
        submit_ok o = true ∨ num_fds opts < Z.of_nat IoUringEngine.SQ_ENTRIES →
        poll_sqes (emitted w w1)
        = map (fun fd => (fd, if exclusive opts then Z.lor POLLIN EPOLLEXCLUSIVE else POLLIN))
            (data ++ [IoUringEngine.efd e])).
Proof.
  intros Hn Hlen data. split_and!.
  - intros e Hrun.
    destruct (select_create_success o opts fdsp w e w1 Hn Hrun)
      as (se & mb & fa & efd & t & arr & -> & _ & _ & _ & _ & _ & _ &
          Hheap & Hlarr & Harr & Hreg & _ & Hefd & Hfresh & _).
    exists efd. simpl. split; [done|].
    assert (Heq : arr = efd :: data).
    { apply list_eq. intros [|j]; [done|]. simpl. unfold data, caller_fds.
      destruct (decide (j < Z.to_nat (num_fds opts))%nat) as [Hj|Hj].
      - rewrite lookup_take_lt by done.
        destruct (lookup_lt_is_Some_2 (ints_of (heap w !! fdsp)) j) as [x Hx]; [lia|].
        rewrite Hx. by apply Hreg.
      - rewrite lookup_take_ge by lia. apply lookup_ge_None. lia. }
    split; [by rewrite Hheap, lookup_insert_eq, Heq|]. split; [done|].
    apply Forall_cons. split; [lia|].
    apply Forall_lookup. intros j fd Hfd. unfold data, caller_fds in Hfd.
    apply lookup_take_Some in Hfd as [Hfd Hj]. by apply (Hreg j fd).
  - intros e Hrun.
    destruct (poll_create_success o opts fdsp w e w1 Hn Hrun)
      as (pe & mb & pa & efd & t & ps & -> & _ & _ & _ & _ & _ & _ &
          Hheap & Hlps & Hps & Hreg & _ & Hfresh & _).
    exists efd. simpl. split; [done|]. split; [|done].
    rewrite Hheap, lookup_insert_eq. do 2 f_equal.
    apply list_eq. intros [|j]; [done|]. simpl. unfold data, caller_fds.
    rewrite list_lookup_fmap.
    destruct (decide (j < Z.to_nat (num_fds opts))%nat) as [Hj|Hj].
    + rewrite lookup_take_lt by done.
      destruct (lookup_lt_is_Some_2 (ints_of (heap w !! fdsp)) j) as [x Hx]; [lia|].
      rewrite Hx. by apply Hreg.
    + rewrite lookup_take_ge by lia. apply lookup_ge_None. lia.
  - intros e Hrun.
    destruct (epoll_create_success o opts fdsp w e w1 Hrun)
      as (pe & mb & ep & ef & t & sw & -> & _ & _ & _ & _ & _ & _ & _ & _ & _ & _ &
          Htr & Hsw).
    rewrite (emitted_app _ _ _ Htr). simpl.
    change (epoll_adds (?a :: ?b :: ?c :: ?l)) with (epoll_adds l).
    rewrite epoll_adds_app, epoll_adds_map. simpl.
    change (epoll_adds (?a :: ?b :: ?c :: ?l)) with (epoll_adds l).
    rewrite (epoll_adds_sem_waits _ Hsw). unfold data.
    rewrite <- (caller_fds_by_index w fdsp (num_fds opts) Hlen) by done.
    by rewrite map_app, !map_map.
  - intros e Hrun Hok.
    destruct (io_uring_create_success o opts fdsp w e w1 Hrun)
      as (pe & mb & rfd & ef & t & tr & -> & _ & _ & _ & _ & _ & _ & _ & _ & _ & _ &
          Htr & Hsqes).
    rewrite (emitted_app _ _ _ Htr), (Hsqes Hok). simpl. unfold data.
    rewrite <- (caller_fds_by_index w fdsp (num_fds opts) Hlen) by done.
    by rewrite map_app, !map_map.
Qed.

Lemma create_registers_every_descriptor_witness :
  (0 ≤ num_fds (opts0 Select false) ∧
   SelectEngine.select_create all_ok (opts0 Select false) 7%nat w0
   = Ret (Created se0) (final_world select_created) ∧
   ∃ efd, fdflags w0 !! efd = None ∧
          heap (final_world select_created) !! SelectEngine.fds se0
          = Some (VInts (efd :: caller_fds w0 7%nat (num_fds (opts0 Select false)))) ∧
          SelectEngine.se_num_fds se0 = num_fds (opts0 Select false) + 1 ∧
          Forall (fun fd => fd < FD_SETSIZE)
            (efd :: caller_fds w0 7%nat (num_fds (opts0 Select false)))) ∧
  (let w1 := final_world (EpollEngine.epoll_do_create all_ok (opts0 Epoll true) 7%nat w0) in
   EpollEngine.epoll_do_create all_ok (opts0 Epoll true) 7%nat w0 = Ret (Created ee0) w1 ∧
   epoll_adds (emitted w0 w1)
   = map (fun fd => (EpollEngine.epfd ee0, fd, Z.lor EPOLLIN EPOLLEXCLUSIVE))
       (caller_fds w0 7%nat 2 ++ [EpollEngine.efd ee0])).
Proof.
  split.
  - split; [vm_compute; discriminate|]. split; [vm_compute; reflexivity|].
    destruct (create_registers_every_descriptor all_ok (opts0 Select false) 7%nat w0
                (final_world select_created)) as (H & _);
      [vm_compute; discriminate|vm_compute; lia|].
    apply (H se0). vm_compute. reflexivity.
  - split; [vm_compute; reflexivity|].
    destruct (create_registers_every_descriptor all_ok (opts0 Epoll true) 7%nat w0
                (final_world (EpollEngine.epoll_do_create all_ok (opts0 Epoll true) 7%nat w0)))
      as (_ & _ & H & _);
      [vm_compute; discriminate|vm_compute; lia|].
    apply (H ee0). vm_compute. reflexivity.
Defined.

(** ** Echo fidelity *)

Lemma echo_of_complete_read (fd : Z) (buf : block) (len : Z) (bs : list Z) (w : world) :
  is_Some (heap w !! buf) → Z.of_nat (length bs) = len →
  ∃ wr, sys_read fd buf len (Some bs) w = Ret len wr ∧
        trace wr = trace w ++ [EvRead fd len len] ∧
        sys_write fd buf len wr = Ret tt (log (EvWrite fd bs) wr).
Proof.
  intros [bv Hbuf] Hlen. assert (Hn : Z.to_nat len = length bs) by lia.
  assert (Hret : read_ret len (Some bs) = len).
  { unfold read_ret. by rewrite Hn, (take_ge bs) by lia. }
  unfold sys_read. rewrite Hret. eexists. split; [reflexivity|]. split; [done|].
  unfold sys_write, read_into. simpl. rewrite lookup_alter_eq, Hbuf. simpl.
  rewrite Hn, (take_ge bs) by lia. by rewrite take_app_length.
Qed.

(** X6.  Echo fidelity.  When the message buffer exists and a [read] on
    a data descriptor delivers exactly [msg_size] bytes, each worker
    writes exactly those bytes back to the same descriptor: for the
    [epoll] and [io_uring] workers on any reported descriptor other than
    the control descriptor, for the [select] and [poll] workers on any
    ready entry past index 0, for the thread-per-descriptor worker on its
    own descriptor. *)
Theorem complete_read_is_echoed_unchanged (bs : list Z) :
  (∀ se wk i r w fd,
     is_Some (heap w !! SelectEngine.msgbuf se) →
     Z.of_nat (length bs) = SelectEngine.se_msg_size se →
     0 < SelectEngine.se_msg_size se → 0 < r → i ≠ 0%nat →
     ints_of (heap w !! SelectEngine.fds se) !! i = Some fd →
     wk_ready wk fd = true → wk_read wk i = Some bs →
     emitted w (final_world (SelectEngine.select_scan se wk i 1 r w))
     = [EvRead fd (SelectEngine.se_msg_size se) (SelectEngine.se_msg_size se);
        EvWrite fd bs]) ∧
  (∀ pe wk i r w p,
     is_Some (heap w !! PollEngine.msgbuf pe) →
     Z.of_nat (length bs) = PollEngine.pe_msg_size pe →
     0 < PollEngine.pe_msg_size pe → 0 < r → i ≠ 0%nat →
     pollfds_of (heap w !! PollEngine.pollfds pe) !! i = Some p →
     Z.land (pfd_revents p) POLLIN ≠ 0 → wk_read wk i = Some bs →
     emitted w (final_world (PollEngine.poll_scan pe wk i 1 r w))
     = [EvRead (pfd_fd p) (PollEngine.pe_msg_size pe) (PollEngine.pe_msg_size pe);
        EvWrite (pfd_fd p) bs]) ∧
  (∀ pe wk i w fd,
     is_Some (heap w !! EpollEngine.msgbuf pe) →
     Z.of_nat (length bs) = EpollEngine.ee_msg_size pe →
     0 < EpollEngine.ee_msg_size pe →
     fd ≠ EpollEngine.efd pe → wk_read wk i = Some bs →
     emitted w (final_world (EpollEngine.epoll_scan pe wk i [fd] w))
     = [EvRead fd (EpollEngine.ee_msg_size pe) (EpollEngine.ee_msg_size pe);
        EvWrite fd bs]) ∧
  (∀ o pe wk i p w fd,
     is_Some (heap w !! IoUringEngine.msgbuf pe) →
     Z.of_nat (length bs) = IoUringEngine.ue_msg_size pe →
     0 < IoUringEngine.ue_msg_size pe →
     fd ≠ IoUringEngine.efd pe → wk_read wk i = Some bs →
     take 2 (emitted w (final_world (IoUringEngine.io_uring_scan o pe wk i [fd] p w)))
     = [EvRead fd (IoUringEngine.ue_msg_size pe) (IoUringEngine.ue_msg_size pe);
        EvWrite fd bs]) ∧
  (∀ te fd w,
     is_Some (heap w !! ThreadsEngine.msgbuf te) →
     Z.of_nat (length bs) = ThreadsEngine.te_msg_size te →
     emitted w (final_world (ThreadsEngine.threads_fd_loop te fd [Some bs] w))
     = [EvRead fd (ThreadsEngine.te_msg_size te) (ThreadsEngine.te_msg_size te);
        EvWrite fd bs]).
Proof.
  split_and!.
  - intros se wk i r w fd Hbuf Hlen Hmsg Hr Hi Hfd Hready Hread.
    destruct (echo_of_complete_read fd _ _ bs w Hbuf Hlen) as (wr & Hrd & Htr & Hwr).
    simpl. apply Z.ltb_lt in Hr. rewrite Hr. simpl.
    unfold bind at 1. unfold load_int at 1. rewrite Hfd. simpl. rewrite Hready. simpl.
    apply Nat.eqb_neq in Hi. rewrite Hi, Hread.
    unfold bind at 1. rewrite Hrd.
    assert (Hpos : (SelectEngine.se_msg_size se <=? 0) = false) by (apply Z.leb_gt; lia).
    rewrite Hpos. unfold bind at 1. rewrite Hwr. simpl.
    apply emitted_app. simpl. by rewrite Htr, <- app_assoc.
  - intros pe wk i r w p Hbuf Hlen Hmsg Hr Hi Hp Hready Hread.
    destruct (echo_of_complete_read (pfd_fd p) _ _ bs w Hbuf Hlen) as (wr & Hrd & Htr & Hwr).
    simpl. apply Z.ltb_lt in Hr. rewrite Hr. simpl.
    unfold bind at 1. unfold load_pollfd at 1. rewrite Hp. simpl.
    apply Z.eqb_neq in Hready. rewrite Hready.
    apply Nat.eqb_neq in Hi. rewrite Hi, Hread.
    unfold bind at 1. rewrite Hrd.
    assert (Hpos : (PollEngine.pe_msg_size pe <=? 0) = false) by (apply Z.leb_gt; lia).
    rewrite Hpos. unfold bind at 1. rewrite Hwr. simpl.
    apply emitted_app. simpl. by rewrite Htr, <- app_assoc.
  - intros pe wk i w fd Hbuf Hlen Hmsg Hfd Hread.
    destruct (echo_of_complete_read fd _ _ bs w Hbuf Hlen) as (wr & Hrd & Htr & Hwr).
    simpl. apply Z.eqb_neq in Hfd. rewrite Hfd, Hread.
    unfold bind at 1. rewrite Hrd.
    assert (Hpos : (EpollEngine.ee_msg_size pe <=? 0) = false) by (apply Z.leb_gt; lia).
    rewrite Hpos. unfold bind at 1. rewrite Hwr. simpl.
    apply emitted_app. simpl. by rewrite Htr, <- app_assoc.
  - intros o pe wk i p w fd Hbuf Hlen Hmsg Hfd Hread.
    destruct (echo_of_complete_read fd _ _ bs w Hbuf Hlen) as (wr & Hrd & Htr & Hwr).
    simpl. apply Z.eqb_neq in Hfd. rewrite Hfd, Hread.
    unfold bind at 1. rewrite Hrd.
    assert (Hpos : (IoUringEngine.ue_msg_size pe <=? 0) = false) by (apply Z.leb_gt; lia).
    rewrite Hpos. unfold bind at 1. rewrite Hwr.
    unfold bind at 1.
    destruct (io_uring_add_poll_sqe_run o (IoUringEngine.poll_mask pe) fd p
                (log (EvWrite fd bs) wr)) as (p' & es & -> & _ & _).
    unfold ret. simpl.
    rewrite (emitted_app w _ ([EvRead fd (IoUringEngine.ue_msg_size pe)
                                 (IoUringEngine.ue_msg_size pe); EvWrite fd bs] ++ es));
      [done|].
    by rewrite Htr, <- !app_assoc.
  - intros te fd w Hbuf Hlen.
    destruct (echo_of_complete_read fd _ _ bs w Hbuf Hlen) as (wr & Hrd & Htr & Hwr).
    simpl. unfold bind at 1. rewrite Hrd, Z.eqb_refl. cbn [negb].
    unfold bind at 1. rewrite Hwr. simpl.
    apply emitted_app. simpl. by rewrite Htr, <- app_assoc.
Qed.

Lemma complete_read_is_echoed_unchanged_witness :
  emitted (final_world select_created)
    (final_world (SelectEngine.select_scan se0 full_wakeup 1 1 1 (final_world select_created)))
  = [EvRead 3 4 4; EvWrite 3 [7; 7; 7; 7]] ∧
  emitted poll_short_world
    (final_world (PollEngine.poll_scan pe0 full_wakeup 1 1 1 poll_short_world))
  = [EvRead 3 4 4; EvWrite 3 [7; 7; 7; 7]] ∧
  emitted epoll_world
    (final_world (EpollEngine.epoll_scan ee0 full_wakeup 0 [3] epoll_world))
  = [EvRead 3 4 4; EvWrite 3 [7; 7; 7; 7]] ∧
  take 2 (emitted io_uring_world
            (final_world (IoUringEngine.io_uring_scan all_ok ue0 full_wakeup 0 [3] 0
                            io_uring_world)))
  = [EvRead 3 4 4; EvWrite 3 [7; 7; 7; 7]] ∧
  emitted (final_world threads_created)
    (final_world (ThreadsEngine.threads_fd_loop te0 3 [Some [7; 7; 7; 7]]
                    (final_world threads_created)))
  = [EvRead 3 4 4; EvWrite 3 [7; 7; 7; 7]].
Proof.
  destruct (complete_read_is_echoed_unchanged [7; 7; 7; 7]) as (H1 & H2 & H3 & H4 & H5).
  split_and!.
  - apply (H1 se0 full_wakeup 1%nat 1 (final_world select_created) 3).
    all: first [reflexivity | lia | vm_compute; first [by eexists | reflexivity | discriminate]].
  - apply (H2 pe0 full_wakeup 1%nat 1 poll_short_world (Pollfd 3 1 1)).
    all: first [reflexivity | lia | vm_compute; first [by eexists | reflexivity | discriminate]].
  - apply (H3 ee0 full_wakeup 0%nat epoll_world 3).
    all: first [reflexivity | lia | vm_compute; first [by eexists | reflexivity | discriminate]].
  - apply (H4 all_ok ue0 full_wakeup 0%nat 0%nat io_uring_world 3).
    all: first [reflexivity | lia | vm_compute; first [by eexists | reflexivity | discriminate]].
  - apply (H5 te0 3 (final_world threads_created)).
    all: first [reflexivity | lia | vm_compute; first [by eexists | reflexivity | discriminate]].
Defined.

(** ** The handshake loop and the [select] worker's [nfds] *)

Lemma sem_wait_loop_retries (k : nat) (r e : Z) (rest : list (Z * Z)) :
  ¬ (r = -1 ∧ e = EINTR) →
  ∀ w, ∃ w', sem_wait_loop (replicate k (-1, EINTR) ++ (r, e) :: rest) w = Ret r w' ∧
             trace w' = trace w ++ replicate k (EvSemWait (-1) EINTR) ++ [EvSemWait r e].
Proof.
  intros Hne. induction k as [|k IH]; intros w; simpl.
  - unfold bind, emit, ret.
    assert (Htest : (r =? -1) && (e =? EINTR) = false).
    { destruct (Z.eqb_spec r (-1)), (Z.eqb_spec e EINTR); simpl; try done.
      exfalso. by apply Hne. }
    rewrite Htest. by eexists.
  - unfold bind at 1. unfold emit at 1.
    destruct (IH (log (EvSemWait (-1) EINTR) w)) as (w' & -> & Htr).
    exists w'. split; [done|]. rewrite Htr. simpl. by rewrite <- app_assoc.
Qed.

(** X7.  The handshake loop of [create],
    [do { ret = sem_wait(&sem); } while (ret == -1 && errno == EINTR);],
    calls [sem_wait] again after every interruption by a signal and
    returns the first result that is not [-1] with [EINTR], however many
    interruptions precede it and whatever would follow. *)
Theorem handshake_retries_after_eintr (k : nat) (r e : Z) (rest : list (Z * Z)) (w : world) :
  ¬ (r = -1 ∧ e = EINTR) →
  ∃ w', sem_wait_loop (replicate k (-1, EINTR) ++ (r, e) :: rest) w = Ret r w' ∧
        emitted w w' = replicate k (EvSemWait (-1) EINTR) ++ [EvSemWait r e].
Proof.
  intros Hne. destruct (sem_wait_loop_retries k r e rest Hne w) as (w' & Hrun & Htr).
  exists w'. split; [done|]. by apply emitted_app.
Qed.

Lemma handshake_retries_after_eintr_witness :
  ¬ (0 = -1 ∧ 0 = EINTR) ∧
  ∃ w', sem_wait_loop (replicate 2 (-1, EINTR) ++ (0, 0) :: [(-1, EINVAL)]) w0 = Ret 0 w' ∧
        emitted w0 w' = replicate 2 (EvSemWait (-1) EINTR) ++ [EvSemWait 0 0].
Proof.
  split; [lia|].
  apply (handshake_retries_after_eintr 2 0 0 [(-1, EINVAL)] w0). lia.
Defined.

(** ** [parse_options] *)

Lemma last_value_cons {A} (sel : opt → option A) (d : A) (a : opt) (args : list opt) :
  last_value sel d (a :: args) = last_value sel (default d (sel a)) args.
Proof.
  unfold last_value. cbn. destruct (sel a) as [x|]; cbn; [|done].
  rewrite last_cons. by destruct (last (omap sel args)).
Qed.

Lemma last_given_cons (o : options) (a : opt) (args : list opt) :
  last_given o (a :: args)
  = last_given (Options (default (engine o) (given_engine a))
                  (default (num_engines o) (given_num_engines a))
                  (default (num_fds o) (given_num_fds a))
                  (default (msg_size o) (given_msg_size a))
                  (default (exclusive o) (given_exclusive a))
                  (default (duration_secs o) (given_duration_secs a))) args.
Proof. unfold last_given. by rewrite !last_value_cons. Qed.

(** The option loop: with no rejected option it stores the options one
    after the other and prints nothing; otherwise it fails. *)
Lemma parse_loop_run (args : list opt) :
  ∀ (o : options) (w : world),
    if existsb rejected args
    then ∃ w', parse_loop o args w = Ret None w'
    else parse_loop o args w = Ret (Some (last_given o args)) w.
Proof.
  induction args as [|a args IH]; intros o w.
  { simpl. unfold last_given, last_value. simpl. by destruct o. }
  cbn [existsb]. rewrite last_given_cons.
  destruct a as [s|v|v|v|s|v| |c]; cbn [rejected parse_loop given_engine given_num_engines
    given_num_fds given_msg_size given_exclusive given_duration_secs default orb].
  - destruct (lookup_engine s); simpl; [apply IH|by eexists].
  - destruct (bad_number v); simpl; [by eexists|apply IH].
  - destruct (bad_number v); simpl; [by eexists|apply IH].
  - destruct (bad_number v); simpl; [by eexists|apply IH].
  - destruct (String.eqb s "0") eqn:H0; simpl.
    + apply String.eqb_eq in H0. subst s. apply IH.
    + destruct (String.eqb s "1") eqn:H1; simpl; [apply IH|by eexists].
  - destruct (bad_number v); simpl; [by eexists|apply IH].
  - by eexists.
  - by eexists.
Qed.

Lemma parse_options_run (args : list opt) (extra : bool) (w : world)
    (opts : options) (w' : world) :
  parse_options args extra w = Ret (Some opts) w' ↔
  existsb rejected args = false ∧ extra = false ∧
  opts = last_given default_options args ∧
  (exclusive opts = true → supports_exclusive (ops_of (engine opts)) = true) ∧
  w' = w.
Proof.
  unfold parse_options. unfold bind at 1.
  pose proof (parse_loop_run args default_options w) as Hloop.
  destruct (existsb rejected args).
  { destruct Hloop as (w1 & ->). unfold ret. split; [done|]. by intros (? & _). }
  rewrite Hloop. destruct extra.
  { unfold bind, usage, emit, ret. split; [done|]. by intros (_ & ? & _). }
  set (o := last_given default_options args).
  destruct (exclusive o) eqn:Hex, (supports_exclusive (ops_of (engine o))) eqn:Hsup;
    cbn [andb negb]; unfold bind, emit, ret.
  - split; [intros [= <- <-]; by rewrite Hsup|by intros (_ & _ & -> & _ & ->)].
  - split; [done|]. intros (_ & _ & -> & Hs & _). rewrite Hs in Hsup; done.
  - split; [intros [= <- <-]; by rewrite Hex|by intros (_ & _ & -> & _ & ->)].
  - split; [intros [= <- <-]; by rewrite Hex|by intros (_ & _ & -> & _ & ->)].
Qed.

(** X8.  [parse_options] returns options exactly when no option is
    rejected (unknown engine name, a count that is 0 or above [LONG_MAX],
    an [exclusive] value other than 0 or 1, [--help], an unhandled code),
    no argument is left over, and [exclusive] is not asked of an engine
    without support for it.  Each field then holds the value of the last
    occurrence of its option, or its default, and nothing has been
    printed. *)
Theorem parse_options_accepts_iff (args : list opt) (extra : bool) (w : world)
    (opts : options) (w' : world) :
  parse_options args extra w = Ret (Some opts) w' ↔
  existsb rejected args = false ∧ extra = false ∧
  opts = last_given default_options args ∧
  (exclusive opts = true → supports_exclusive (ops_of (engine opts)) = true) ∧
  w' = w.
Proof. apply parse_options_run. Qed.


Lemma parse_options_accepts_iff_witness :
  let args := [OptEngine "epoll"; OptNumFds 8; OptExclusive "1"; OptNumFds 4] in
  parse_options args false w0 = Ret (Some (Options Epoll 1 4 1 true 30)) w0.
Proof.
  apply (proj2 (parse_options_accepts_iff
                  [OptEngine "epoll"; OptNumFds 8; OptExclusive "1"; OptNumFds 4]
                  false w0 (Options Epoll 1 4 1 true 30) w0)).
  vm_compute. repeat split; reflexivity.
Defined.

(** X9.  The engines that [--engine] can select are the three of the
    table [engines[]] in [parse_options], each by its own name: a name is
    accepted exactly when it is the [name] of the [epoll], [poll] or
    [select] operations.  The [io_uring] and thread-per-descriptor
    engines cannot be selected by any name. *)
Theorem engine_selected_by_name (s : string) (b : backend) :
  lookup_engine s = Some b ↔
  name (ops_of b) = s ∧ (b = Epoll ∨ b = Poll ∨ b = Select).
Proof.
  unfold lookup_engine, engines. simpl.
  destruct (String.eqb_spec s "epoll") as [->|He].
  { split; [intros [= <-]; auto|].
    intros (Hn & [->| [->| ->]]); simpl in Hn; congruence. }
  destruct (String.eqb_spec s "poll") as [->|Hp].
  { split; [intros [= <-]; auto|].
    intros (Hn & [->| [->| ->]]); simpl in Hn; congruence. }
  destruct (String.eqb_spec s "select") as [->|Hs].
  { split; [intros [= <-]; auto|].
    intros (Hn & [->| [->| ->]]); simpl in Hn; congruence. }
  split; [done|]. intros (Hn & [->| [->| ->]]); simpl in Hn; congruence.
Qed.

Lemma to_int_small (v : Z) : 0 ≤ v ≤ INT_MAX → to_int v = v.
Proof.
  unfold to_int, INT_MAX. intros Hv.
  rewrite Z.mod_small by lia.
  destruct (v <? 2 ^ 31) eqn:Hlt; [done|]. apply Z.ltb_ge in Hlt. lia.
Qed.

Lemma last_value_Forall {A} (sel : opt → option A) (P : A → Prop) (args : list opt) :
  (∀ a x, a ∈ args → sel a = Some x → P x) →
  ∀ d, P d → P (last_value sel d args).
Proof.
  induction args as [|a args IH]; intros Hall d Hd; [done|].
  rewrite last_value_cons. apply IH.
  - intros a' x Hin. apply Hall. by apply elem_of_cons; right.
  - destruct (sel a) as [x|] eqn:Hx; [|done]. simpl. apply (Hall a x); [|done].
    by apply elem_of_cons; left.
Qed.

(** X10.  The counts are parsed as [unsigned long] and stored in [int]
    fields.  When [parse_options] accepts an argument list whose counts
    (engines, descriptors, seconds) are all at most [INT_MAX], the stored
    [num_engines], [num_fds] and [duration_secs] are at least 1 and at
    most [INT_MAX], and [msg_size] is at least 1 and at most
    [LONG_MAX]. *)
Theorem accepted_counts_are_positive (args : list opt) (extra : bool) (w w' : world)
    (opts : options) :
  forallb counts_fit args = true →
  parse_options args extra w = Ret (Some opts) w' →
  1 ≤ num_engines opts ≤ INT_MAX ∧ 1 ≤ num_fds opts ≤ INT_MAX ∧
  1 ≤ duration_secs opts ≤ INT_MAX ∧ 1 ≤ msg_size opts ≤ LONG_MAX.
Proof.
  intros Hfit Hrun.
  apply parse_options_run in Hrun as (Hacc & _ & -> & _ & _).
  assert (Hok : ∀ a, a ∈ args → rejected a = false ∧ counts_fit a = true).
  { intros a Hin. split.
    - destruct (rejected a) eqn:Hr; [|done].
      assert (existsb rejected args = true); [|congruence].
      apply existsb_exists. exists a. split; [by apply list_elem_of_In|done].
    - rewrite forallb_forall in Hfit. by apply Hfit, list_elem_of_In. }
  assert (Hnum : ∀ v, bad_number v = false → v ≠ 0 ∧ v ≤ LONG_MAX).
  { intros v Hv. unfold bad_number in Hv. apply orb_false_iff in Hv as [H1 H2].
    apply Z.ltb_ge in H1. apply Z.eqb_neq in H2. done. }
  unfold last_given. simpl. split_and!.
  1-2: apply (last_value_Forall _ (fun x => 1 ≤ x ≤ INT_MAX)); [|unfold INT_MAX; lia].
  5-6: apply (last_value_Forall _ (fun x => 1 ≤ x ≤ INT_MAX)); [|unfold INT_MAX; lia].
  3-4: apply (last_value_Forall _ (fun x => 1 ≤ x ≤ INT_MAX)); [|unfold INT_MAX; lia].
  7-8: apply (last_value_Forall _ (fun x => 1 ≤ x ≤ LONG_MAX)); [|unfold LONG_MAX; lia].
  all: intros a x Hin Hx; destruct (Hok a Hin) as [Hr Hc];
    destruct a; simpl in Hx, Hr, Hc; try discriminate Hx; injection Hx as <-;
    apply Hnum in Hr as [Hne Hle];
    try (apply andb_true_iff in Hc as [H0 Hc]; apply Z.leb_le in H0, Hc;
         rewrite to_int_small by lia);
    try apply Z.leb_le in Hc; lia.
Qed.

Lemma accepted_counts_are_positive_witness :
  let args := [OptNumEngines 2; OptNumFds 8; OptMsgSize 64; OptDurationSecs 5] in
  let opts := Options Select 2 8 64 false 5 in
  1 ≤ num_engines opts ≤ INT_MAX ∧ 1 ≤ num_fds opts ≤ INT_MAX ∧
  1 ≤ duration_secs opts ≤ INT_MAX ∧ 1 ≤ msg_size opts ≤ LONG_MAX.
Proof.
  apply (accepted_counts_are_positive
           [OptNumEngines 2; OptNumFds 8; OptMsgSize 64; OptDurationSecs 5] false w0 w0
           (Options Select 2 8 64 false 5)).
  - vm_compute. reflexivity.
  - vm_compute. reflexivity.
Defined.

(** ** The generator *)

(** The loop of [iogen_run] keeps the counter inside [unsigned long],
    reports nothing itself and leaves the other fields alone. *)
Lemma iogen_loop_shape (rounds : list round) :
  ∀ (g : iogen) (fd : Z) (w : world) (out : outcome iogen),
    out = iogen_loop g fd rounds w →
    ∃ evs, trace (final_world out) = trace w ++ evs ∧ reported evs = [] ∧
           ∀ g' w', out = Ret g' w' →
                    (0 ≤ num_ios g < ULONG_MODULUS → 0 ≤ num_ios g' < ULONG_MODULUS) ∧
                    engine_fds g' = engine_fds g ∧ iogen_fds g' = iogen_fds g ∧
                    g_num_fds g' = g_num_fds g ∧ g_msgbuf g' = g_msgbuf g ∧
                    g_msg_size g' = g_msg_size g.
Proof.
  induction rounds as [|r rounds IH]; intros g fd w out Hout; simpl in Hout.
  { subst out. exists []. rewrite app_nil_r. split; [done|]. split; [done|]. by intros ? ?. }
  destruct (stop_head r).
  { subst out. exists []. rewrite app_nil_r. split; [done|]. split; [done|].
    unfold ret. by intros ? ? [= <- <-]. }
  unfold bind at 1 in Hout. unfold load_int at 1 in Hout.
  unfold bind at 1 in Hout. unfold sys_write at 1 in Hout.
  destruct (stop_after_write r).
  { subst out. eexists [_]. split; [done|]. split; [done|].
    unfold ret. by intros ? ? [= <- <-]. }
  destruct (negb (write_ret r =? g_msg_size g)).
  { subst out. eexists [_; _]. unfold bind, emit, ret. simpl. rewrite <- app_assoc.
    split; [done|]. split; [done|]. by intros ? ? [= <- <-]. }
  unfold bind at 1 in Hout. unfold load_int at 1 in Hout.
  unfold bind at 1 in Hout. unfold sys_read at 1 in Hout.
  destruct (stop_after_read r).
  { subst out. eexists [_; _]. simpl. rewrite <- app_assoc.
    split; [done|]. split; [done|]. unfold ret. by intros ? ? [= <- <-]. }
  cbv beta in Hout.
  destruct (negb (read_ret (g_msg_size g) (read_data r) =? g_msg_size g)).
  { subst out. eexists [_; _; _]. unfold bind, emit, ret. simpl. rewrite <- !app_assoc.
    split; [done|]. split; [done|]. by intros ? ? [= <- <-]. }
  unfold bind at 1 in Hout. unfold emit at 1 in Hout.
  match type of Hout with _ = iogen_loop ?g1 ?fd1 rounds ?w1 =>
    destruct (IH g1 fd1 w1 out Hout) as (evs & Hevs & Hrep & Hfields) end.
  eexists ([_; _; EvRandom (random_val r)] ++ evs). split.
  { rewrite Hevs. simpl. by rewrite <- !app_assoc. }
  split; [by simpl|].
  intros g' w' Hrun. destruct (Hfields g' w' Hrun) as (Hrange & ? & ? & ? & ? & ?).
  simpl in *. split_and!; try done.
  intros _. apply Hrange. apply Z.mod_pos_bound. by unfold ULONG_MODULUS.
Qed.

(** X11.  A run of the generator that returns has added one to
    [num_ios], modulo [2^64], for every value it took from [random_r],
    that is, for every completed round trip; it reports the final counter
    once, as its last action, and leaves the channel arrays, the buffer
    and the sizes of the generator as they were. *)
Theorem iogen_run_counts_round_trips (g : iogen) (rounds : list round) (w : world)
    (g' : iogen) (w' : world) :
  0 ≤ num_ios g < ULONG_MODULUS →
  iogen_run g rounds w = Ret g' w' →
  num_ios g' = (num_ios g + count_draws (emitted w w')) mod ULONG_MODULUS ∧
  reported (emitted w w') = [num_ios g'] ∧
  last (emitted w w') = Some (EvStats (num_ios g')) ∧
  engine_fds g' = engine_fds g ∧ iogen_fds g' = iogen_fds g ∧
  g_num_fds g' = g_num_fds g ∧ g_msgbuf g' = g_msgbuf g ∧ g_msg_size g' = g_msg_size g.
Proof.
  intros Hrange. unfold iogen_run. unfold bind at 1.
  destruct (iogen_loop_counts rounds g 0 w _ eq_refl) as (evs & Hevs & Hcount).
  destruct (iogen_loop_shape rounds g 0 w _ eq_refl) as (evs' & Hevs' & Hrep & Hfields).
  assert (evs' = evs) as -> by (apply (app_inv_head (trace w)); congruence).
  destruct (iogen_loop g 0 rounds w) as [g1 w1| |]; [|done..].
  unfold bind, emit, ret. intros [= <- <-].
  destruct (Hfields g1 w1 eq_refl) as (Hr & ? & ? & ? & ? & ?).
  specialize (Hcount g1 w1 eq_refl). specialize (Hr Hrange).
  simpl in Hevs.
  rewrite (emitted_app w _ (evs ++ [EvStats (num_ios g1)]))
    by (simpl; by rewrite Hevs, <- app_assoc).
  rewrite count_draws_app. change (count_draws [EvStats (num_ios g1)]) with 0.
  rewrite Z.add_0_r, <- Hcount, Z.mod_small by done.
  unfold reported in *. rewrite omap_app, Hrep, last_snoc. done.
Qed.

Lemma iogen_run_counts_round_trips_witness :
  let g := Iogen 0%nat 1%nat 2 2%nat 1 true 42 in
  let w := final_world generator_init in
  let out := iogen_run g [ok_round; ok_round; stop_round] w in
  ∃ g' w', out = Ret g' w' ∧
    num_ios g' = (num_ios g + count_draws (emitted w w')) mod ULONG_MODULUS ∧
    reported (emitted w w') = [num_ios g'].
Proof.
  eexists _, _. split; [vm_compute; reflexivity|].
  match goal with
  | |- num_ios ?g1 = _ ∧ reported (emitted _ ?w1) = _ =>
      destruct (iogen_run_counts_round_trips (Iogen 0%nat 1%nat 2 2%nat 1 true 42)
                  [ok_round; ok_round; stop_round] (final_world generator_init) g1 w1)
        as (H1 & H2 & _)
  end.
  - vm_compute. split; [discriminate|reflexivity].
  - vm_compute. reflexivity.
  - split; [exact H1|exact H2].
Defined.

(** Names the blocks and descriptors a run has drawn with [fresh], with
    the fact that each was not in use. *)
Ltac name_fresh :=
  repeat match goal with
    | |- context [fresh (dom ?h)] =>
        let x := fresh "b" in
        let H := fresh "Hb" in
        assert (H : h !! fresh (dom h) = None) by (apply not_elem_of_dom, is_fresh);
        set (x := fresh (dom h)) in *; clearbody x
    end.

(** Two maps built from the same one by inserting and deleting fresh keys
    are equal when they agree at every key. *)
Ltac same_map :=
  apply map_eq; intros ?;
  repeat match goal with H : _ !! _ = None |- _ => rewrite lookup_insert in H end;
  rewrite ?lookup_delete, ?lookup_insert;
  repeat case_decide; subst; congruence.

(** X12.  When one of the three allocations of [iogen_init] fails, the
    function returns the message "Out of memory" and has freed whatever
    it had allocated: the heap, the descriptor table and the threads are
    what they were, and no socket pair has been created. *)
Theorem iogen_init_out_of_memory (o : oracle) (pk : nat → bool) (g0 : iogen)
    (opts : options) (w : world) :
  alloc_ok o 0 && alloc_ok o 1 && alloc_ok o 2 = false →
  ∃ g w', iogen_init o pk g0 opts w = Ret (g, Some "Out of memory"%string) w' ∧
          heap w' = heap w ∧ fdflags w' = fdflags w ∧ threads w' = threads w ∧
          count_opens (emitted w w') = 0%nat.
Proof.
  intros Hoom. unfold iogen_init.
  unfold bind at 1. unfold malloc at 1.
  destruct (alloc_ok o 0); unfold bind at 1; unfold malloc at 1;
    destruct (alloc_ok o 1); unfold bind at 1; unfold malloc at 1;
    destruct (alloc_ok o 2); try discriminate Hoom;
    simpl; unfold bind, free, ret; simpl;
    (eexists _, _; split; [reflexivity|]; simpl; split_and!; try done;
     first [ name_fresh; same_map
           | unfold emitted; simpl; rewrite <- ?app_assoc; rewrite ?drop_app_length;
             rewrite ?drop_all; reflexivity ]).
Qed.

Lemma iogen_init_out_of_memory_witness :
  ∃ g w', iogen_init (fail_alloc 1) (fun _ => true) stack_garbage
            (Options Select 1 2 1 false 30) w0
          = Ret (g, Some "Out of memory"%string) w' ∧
          heap w' = heap w0 ∧ fdflags w' = fdflags w0 ∧ threads w' = threads w0 ∧
          count_opens (emitted w0 w') = 0%nat.
Proof.
  apply (iogen_init_out_of_memory (fail_alloc 1) (fun _ => true) stack_garbage
           (Options Select 1 2 1 false 30) w0).
  reflexivity.
Defined.

(** The socket-pair loop of [iogen_init], when it runs to the end: the
    two arrays hold the new descriptors, which are exactly what the
    descriptor table gained. *)
Lemma make_pairs_run (g : iogen) (ok : nat → bool) :
  engine_fds g ≠ iogen_fds g →
  ∀ (n i : nat) (w : world) (es cs : list Z) (w' : world),
    heap w !! engine_fds g = Some (VInts es) →
    heap w !! iogen_fds g = Some (VInts cs) →
    length es = (i + n)%nat → length cs = (i + n)%nat →
    make_pairs g ok i n w = Ret None w' →
    ∃ es' cs',
      heap w' = <[iogen_fds g := VInts cs']> (<[engine_fds g := VInts es']> (heap w)) ∧
      length es' = length es ∧ length cs' = length cs ∧
      (∀ j, (j < i)%nat → es' !! j = es !! j ∧ cs' !! j = cs !! j) ∧
      threads w' = threads w ∧
      (∀ fd fl, fdflags w !! fd = Some fl → fdflags w' !! fd = Some fl) ∧
      dom (fdflags w') = dom (fdflags w) ∪ list_to_set (drop i es' ++ drop i cs') ∧
      (∀ fd, fd ∈ drop i es' ++ drop i cs' → fd ∉ dom (fdflags w)).
Proof.
  intros Hne. induction n as [|n IH]; intros i w es cs w' Hes Hcs Hles Hlcs; simpl.
  { unfold ret. intros [= <-]. exists es, cs.
    rewrite !drop_ge by lia. split_and!; try done.
    - rewrite (insert_id _ _ _ Hes). by rewrite insert_id.
    - set_solver.
    - intros fd Hin. by apply elem_of_nil in Hin. }
  destruct (ok i); simpl.
  2:{ unfold socketpair_failed. destruct i as [|j]; [done|].
      unfold bind, load_int, close, free, ret. simpl. done. }
  unfold bind at 1. unfold open_fd at 1. unfold bind at 1. unfold open_fd at 1.
  simpl fdflags.
  set (fd0 := fresh (dom (fdflags w))).
  set (fd1 := fresh (dom (<[fd0 := O_RDWR]> (fdflags w)))).
  assert (Hfd0 : fdflags w !! fd0 = None) by apply not_elem_of_dom, is_fresh.
  assert (Hfd1 : <[fd0 := O_RDWR]> (fdflags w) !! fd1 = None)
    by apply not_elem_of_dom, is_fresh.
  assert (Hfd01 : fd0 ≠ fd1).
  { intros Heq. rewrite <- Heq, lookup_insert_eq in Hfd1. done. }
  assert (Hfd1' : fdflags w !! fd1 = None) by by rewrite lookup_insert_ne in Hfd1.
  unfold bind at 1. unfold store_int at 1. unfold bind at 1. unfold store_int at 1.
  unfold bind at 1. unfold load_int at 1. unfold bind at 1. unfold fcntl_getfl at 1.
  unfold bind at 1. unfold fcntl_setfl at 1. simpl.
  rewrite (lookup_alter_ne _ _ (iogen_fds g) (engine_fds g)) by done.
  rewrite lookup_alter_eq, Hes. simpl.
  rewrite list_lookup_insert_eq by lia. simpl.
  rewrite (lookup_insert_ne _ fd1 fd0) by done. rewrite lookup_insert_eq. simpl.
  intros Hrun.
  eapply (IH (S i) _ (<[i := fd0]> es) (<[i := fd1]> cs)) in Hrun
    as (es' & cs' & Hheap & Hles' & Hlcs' & Hlow & Hth & Hagree & Hdom & Hnew).
  2:{ simpl. rewrite lookup_alter_ne by done. by rewrite lookup_alter_eq, Hes. }
  2:{ simpl. rewrite lookup_alter_eq, lookup_alter_ne by done. by rewrite Hcs. }
  2:{ rewrite length_insert. lia. }
  2:{ rewrite length_insert. lia. }
  simpl in Hheap, Hth, Hagree, Hdom, Hnew.
  rewrite length_insert in Hles', Hlcs'.
  assert (Hei : es' !! i = Some fd0).
  { destruct (Hlow i) as [-> _]; [lia|]. apply list_lookup_insert_eq. lia. }
  assert (Hci : cs' !! i = Some fd1).
  { destruct (Hlow i) as [_ ->]; [lia|]. apply list_lookup_insert_eq. lia. }
  exists es', cs'. rewrite (drop_S _ _ _ Hei), (drop_S _ _ _ Hci).
  split_and!; try done.
  - rewrite Hheap. apply map_eq. intros k.
    rewrite !lookup_insert, !lookup_alter. repeat case_decide; subst; congruence.
  - intros j Hj. destruct (Hlow j) as [-> ->]; [lia|].
    by rewrite !list_lookup_insert_ne by lia.
  - intros fd fl Hfd. apply Hagree.
    assert (fd ≠ fd0) by congruence. assert (fd ≠ fd1) by congruence.
    by rewrite lookup_alter_ne, !lookup_insert_ne.
  - rewrite Hdom, dom_alter_L, !dom_insert_L. set_solver.
  - intros fd Hin.
    assert (Hcases : fd = fd0 ∨ fd = fd1 ∨ fd ∈ drop (S i) es' ++ drop (S i) cs')
      by set_solver.
    destruct Hcases as [->|[->|Hin']]; [by apply not_elem_of_dom..|].
    apply Hnew in Hin'. rewrite dom_alter_L, !dom_insert_L in Hin'. set_solver.
Qed.

(** The loop of [iogen_cleanup] closes the descriptors stored in the two
    arrays and nothing else. *)
Lemma close_pairs_run (g : iogen) (n : nat) :
  ∀ (i : nat) (w : world) (es cs : list Z),
    heap w !! engine_fds g = Some (VInts es) →
    heap w !! iogen_fds g = Some (VInts cs) →
    (i + n ≤ length es)%nat → (i + n ≤ length cs)%nat →
    ∃ w', close_pairs g i n w = Ret tt w' ∧
          heap w' = heap w ∧ threads w' = threads w ∧
          (∀ fd, fd ∈ take n (drop i es) ++ take n (drop i cs) → fdflags w' !! fd = None) ∧
          (∀ fd, fd ∉ take n (drop i es) ++ take n (drop i cs) →
                 fdflags w' !! fd = fdflags w !! fd).
Proof.
  induction n as [|n IH]; intros i w es cs Hes Hcs Hles Hlcs; simpl.
  { exists w. split_and!; try done. intros fd Hin. by apply elem_of_nil in Hin. }
  unfold bind at 1. unfold load_int at 1. unfold bind at 1. unfold close at 1.
  unfold bind at 1. unfold load_int at 1. unfold bind at 1. unfold close at 1.
  simpl heap. rewrite Hes, Hcs. simpl ints_of.
  destruct (es !! i) as [e|] eqn:Hei; [|apply lookup_ge_None in Hei; lia].
  destruct (cs !! i) as [c|] eqn:Hci; [|apply lookup_ge_None in Hci; lia].
  simpl default.
  match goal with |- context [close_pairs g (S i) n ?w1] =>
    destruct (IH (S i) w1 es cs) as (w' & -> & Hh & Hth & Hin & Hout); [done|done|lia|lia|]
  end.
  exists w'. simpl in Hh, Hth, Hout. split; [done|]. split; [done|]. split; [done|].
  rewrite (drop_S _ _ _ Hei), (drop_S _ _ _ Hci). simpl. split.
  - intros fd Hfd.
    destruct (decide (fd ∈ take n (drop (S i) es) ++ take n (drop (S i) cs))) as [H|H];
      [by apply Hin|].
    rewrite (Hout fd H), !lookup_delete. repeat case_decide; try done. set_solver.
  - intros fd Hfd. rewrite Hout by set_solver.
    rewrite !lookup_delete. repeat case_decide; try done; set_solver.
Qed.

(** X13.  [iogen_cleanup] undoes a successful [iogen_init]: it returns,
    every descriptor of every socket pair is closed again and the three
    blocks are freed, so that the heap, the descriptor table and the
    threads are what they were before [iogen_init]. *)
Theorem iogen_init_then_cleanup_restores (o : oracle) (pk : nat → bool) (g0 : iogen)
    (opts : options) (w : world) (g : iogen) (w1 : world) :
  iogen_init o pk g0 opts w = Ret (g, None) w1 →
  ∃ w2, iogen_cleanup g w1 = Ret tt w2 ∧
        heap w2 = heap w ∧ fdflags w2 = fdflags w ∧ threads w2 = threads w.
Proof.
  unfold iogen_init. unfold bind at 1. unfold malloc at 1.
  destruct (alloc_ok o 0); unfold bind at 1; unfold malloc at 1;
    destruct (alloc_ok o 1); unfold bind at 1; unfold malloc at 1;
    destruct (alloc_ok o 2); simpl;
    try (unfold bind, free, ret; simpl; discriminate).
  set (ea := fresh (dom (heap w))).
  set (h1 := <[ea := _]> (heap w)).
  set (ia := fresh (dom h1)).
  set (h2 := <[ia := _]> h1).
  set (mb := fresh (dom h2)).
  assert (Hea : heap w !! ea = None) by apply not_elem_of_dom, is_fresh.
  assert (Hia : h1 !! ia = None) by apply not_elem_of_dom, is_fresh.
  assert (Hmb : h2 !! mb = None) by apply not_elem_of_dom, is_fresh.
  assert (Hne1 : ea ≠ ia).
  { intros Heq. subst h1. rewrite <- Heq, lookup_insert_eq in Hia. done. }
  assert (Hne2 : ia ≠ mb).
  { intros Heq. subst h2. rewrite <- Heq, lookup_insert_eq in Hmb. done. }
  assert (Hne3 : ea ≠ mb).
  { intros Heq. subst h2 h1. rewrite lookup_insert_ne, <- Heq, lookup_insert_eq in Hmb; done. }
  unfold bind.
  match goal with |- context [make_pairs ?g1 pk 0 ?n ?w3] =>
    pose proof (make_pairs_run g1 pk Hne1 n 0 w3 (replicate n 0) (replicate n 0)) as Hpairs;
    destruct (make_pairs g1 pk 0 n w3) as [[e|] w4|w4|w4] eqn:Hrun; try discriminate
  end.
  unfold ret. intros [= <- <-].
  destruct (Hpairs w4) as (es & cs & Hheap & Hles & Hlcs & _ & Hth & Hagree & Hdom & Hnew);
    simpl; try done.
  { subst h2 h1. rewrite !lookup_insert_ne by done. by rewrite lookup_insert_eq. }
  { subst h2. rewrite lookup_insert_ne by done. by rewrite lookup_insert_eq. }
  { by rewrite length_replicate. }
  { by rewrite length_replicate. }
  simpl in Hheap, Hth, Hagree, Hdom, Hnew.
  rewrite length_replicate in Hles, Hlcs. rewrite !drop_0 in Hdom, Hnew.
  unfold iogen_cleanup. simpl.
  destruct (close_pairs_run (Iogen ea ia (num_fds opts) mb (msg_size opts) true (num_ios g0))
              (Z.to_nat (num_fds opts)) 0 w4 es cs)
    as (w5 & Hclose & Hh5 & Hth5 & Hin & Hout); simpl.
  { rewrite Hheap. rewrite lookup_insert_ne by done. by rewrite lookup_insert_eq. }
  { rewrite Hheap. by rewrite lookup_insert_eq. }
  { lia. }
  { lia. }
  rewrite !drop_0, !take_ge in Hin, Hout by lia.
  unfold bind at 1. rewrite Hclose. unfold bind, free. simpl.
  eexists. split; [reflexivity|]. simpl. split_and!.
  - rewrite Hh5, Hheap. subst h2 h1. clear -Hea Hia Hmb Hne1 Hne2 Hne3.
    apply map_eq. intros k.
    rewrite lookup_insert_ne in Hmb by done. rewrite lookup_insert_ne in Hmb by done.
    rewrite lookup_insert_ne in Hia by done.
    rewrite !lookup_delete, !lookup_insert. repeat case_decide; subst; congruence.
  - apply map_eq. intros fd.
    destruct (decide (fd ∈ es ++ cs)) as [Hfd|Hfd].
    + rewrite (Hin fd Hfd). symmetry. by apply not_elem_of_dom, Hnew.
    + rewrite (Hout fd Hfd).
      destruct (fdflags w !! fd) as [fl|] eqn:Hfl; [by apply Hagree|].
      apply not_elem_of_dom. rewrite Hdom. apply not_elem_of_dom in Hfl. set_solver.
  - by rewrite Hth5, Hth.
Qed.

Lemma iogen_init_then_cleanup_restores_witness :
  ∃ w2, iogen_cleanup (Iogen 0%nat 1%nat 2 2%nat 1 true 42) (final_world generator_init)
        = Ret tt w2 ∧
        heap w2 = heap empty_world ∧ fdflags w2 = fdflags empty_world ∧
        threads w2 = threads empty_world.
Proof.
  apply (iogen_init_then_cleanup_restores all_ok (fun _ => true) stack_garbage
           (Options Select 1 2 1 false 30) empty_world).
  vm_compute. reflexivity.
Defined.

(** ** A [create] that fails and returns *)


















(** ** [create_engines] *)

Lemma create_handle_backend (b : backend) (o : oracle) (opts : options) (fdsp : block)
    (w : world) (e : engine_handle) (w' : world) :
  create (ops_of b) o opts fdsp w = Ret (Created e) w' → handle_backend e = b.
Proof.
  destruct b; simpl; unfold map_result, bind;
    match goal with |- context [match ?m with _ => _ end] =>
      destruct m as [[e'|msg] w1|w1|w1] end; try done;
    unfold ret; by intros [= <- _].
Qed.

Lemma create_loop_handles (os : nat → oracle) (opts : options) (fdsp arr : block) (n : nat) :
  ∀ (i : nat) (acc : list engine_handle) (w : world) (es : list engine_handle) (w' : world),
    Forall (fun e => handle_backend e = engine opts) acc →
    create_loop os opts fdsp arr i n acc w = Ret (Created es) w' →
    length es = (length acc + n)%nat ∧
    Forall (fun e => handle_backend e = engine opts) es.
Proof.
  induction n as [|n IH]; intros i acc w es w' Hacc; simpl.
  { unfold ret. intros [= <- <-]. rewrite List.length_rev, Nat.add_0_r.
    split; [done|]. by apply List.Forall_rev. }
  unfold bind at 1.
  destruct (create (ops_of (engine opts)) (os i) opts fdsp w) as [[e|msg] w1|w1|w1] eqn:Hc;
    try done.
  - intros Hrun. apply IH in Hrun as [Hlen Hall].
    + simpl in Hlen. split; [lia|done].
    + apply Forall_cons. split; [|done]. by eapply create_handle_backend.
  - unfold bind.
    destruct (destroy_created _ _ _) as [? w2|w2|w2]; try done.
Qed.

(** X15.  When [create_engines] succeeds it returns exactly
    [num_engines] instances, every one of them built by the [create] of
    the selected engine, so that [destroy_engines], which dispatches on
    each instance's own operations, calls the matching [destroy]. *)
Theorem create_engines_builds_num_engines (arr_ok : bool) (os : nat → oracle)
    (opts : options) (fdsp : block) (w : world) (arr : block) (es : list engine_handle)
    (w' : world) :
  create_engines arr_ok os opts fdsp w = Ret (Created (arr, es)) w' →
  length es = Z.to_nat (num_engines opts) ∧
  Forall (fun e => ops_of (handle_backend e) = ops_of (engine opts)) es ∧
  heap w !! arr = None.
Proof.
  unfold create_engines. unfold bind at 1. unfold malloc at 1.
  destruct arr_ok; [|done].
  unfold bind.
  destruct (create_loop _ _ _ _ _ _ _ _) as [[es'|msg] w1|w1|w1] eqn:Hloop; try done.
  unfold ret. intros [= <- <- <-].
  apply create_loop_handles in Hloop as [Hlen Hall]; [|done].
  split; [done|]. split.
  - eapply Forall_impl; [exact Hall|]. by intros e ->.
  - apply not_elem_of_dom, is_fresh.
Qed.

Lemma create_engines_builds_num_engines_witness :
  let out := create_engines true (fun _ => all_ok) (Options Epoll 2 2 4 true 30) 7%nat w0 in
  ∃ arr es w', out = Ret (Created (arr, es)) w' ∧
    length es = Z.to_nat (num_engines (Options Epoll 2 2 4 true 30)) ∧
    Forall (fun e => ops_of (handle_backend e) = ops_of Epoll) es.
Proof.
  eexists _, _, _. split; [vm_compute; reflexivity|].
  match goal with
  | |- length ?es = _ ∧ _ =>
      destruct (create_engines_builds_num_engines true (fun _ => all_ok)
                  (Options Epoll 2 2 4 true 30) 7%nat w0 8%nat es
                  (final_world (create_engines true (fun _ => all_ok)
                                  (Options Epoll 2 2 4 true 30) 7%nat w0)))
        as (H1 & H2 & _)
  end.
  - vm_compute. reflexivity.
  - split; [exact H1|exact H2].
Defined.

(** ** Who does what *)

Lemma only_ret (P : event → bool) {A} (a : A) : only P (ret a).
Proof. by apply emits_ret. Qed.

Lemma only_hang (P : event → bool) {A} : only P (@hang A).
Proof. by apply emits_hang. Qed.

Lemma only_undefined (P : event → bool) {A} : only P (@undefined A).
Proof. by apply emits_undefined. Qed.

Lemma only_bind (P : event → bool) {A B} (m : M A) (k : A → M B) :
  only P m → (∀ a, only P (k a)) → only P (bind m k).
Proof.
  intros Hm Hk. eapply emits_bind; [exact Hm|exact Hk|..]; simpl; [done|].
  intros e1 e2 H1 H2. by rewrite forallb_app, H1, H2.
Qed.

Lemma only_weaken (P Q : event → bool) {A} (m : M A) :
  (∀ e, P e = true → Q e = true) → only P m → only Q m.
Proof.
  intros HPQ Hm. eapply emits_weaken; [exact Hm|]. simpl.
  intros evs Hevs. rewrite forallb_forall in Hevs |- *. auto.
Qed.

(** A step that logs nothing, or one event that satisfies [P]. *)
Lemma only_step (P : event → bool) {A} (m : M A) :
  (∀ w, trace (final_world (m w)) = trace w ∨
        ∃ e, P e = true ∧ trace (final_world (m w)) = trace w ++ [e]) →
  only P m.
Proof.
  intros H w. destruct (H w) as [Hw|(e & He & Hw)].
  - exists []. by rewrite Hw, app_nil_r.
  - exists [e]. split; [done|]. simpl. by rewrite He.
Qed.

Lemma only_map_result (P : event → bool) {A B} (f : A → B) (m : M (create_result A)) :
  only P m → only P (map_result f m).
Proof. intros Hm. apply only_bind; [done|]. intros a. apply only_ret. Qed.


Ltac logs_one :=
  right; refine (ex_intro _ _ (conj _ eq_refl)); first [reflexivity | solve [auto]].

Ltac only_prim :=
  apply only_step; intros ?;
  first [ by left
        | logs_one
        | unfold malloc, open_fd, sem_init, pthread_create, pthread_join;
          repeat case_match; first [by left | logs_one] ].

Section Setup.

Local Abbreviation S := setup_event.

Lemma setup_sem_wait_loop (rs : list (Z * Z)) : only S (sem_wait_loop rs).
Proof.
  induction rs as [|[r e] rs IH]; simpl; [apply only_hang|].
  apply only_bind; [only_prim|]. intros _.
  destruct ((r =? -1) && (e =? EINTR)); [done|apply only_ret].
Qed.

Lemma setup_store_ints (p : block) (vs : list Z) : ∀ off, only S (store_ints p off vs).
Proof.
  induction vs as [|v vs IH]; intros off; simpl; [apply only_ret|].
  apply only_bind; [only_prim|]. intros _. apply IH.
Qed.

End Setup.

Create HintDb only.

#[local] Hint Resolve only_ret only_hang only_undefined setup_sem_wait_loop
  setup_store_ints : only.

#[local] Hint Extern 2 (only _ (malloc _ _)) => only_prim : only.
#[local] Hint Extern 2 (only _ (free _)) => only_prim : only.
#[local] Hint Extern 2 (only _ (load_int _ _)) => only_prim : only.
#[local] Hint Extern 2 (only _ (load_ints _ _)) => only_prim : only.
#[local] Hint Extern 2 (only _ (load_pollfd _ _)) => only_prim : only.
#[local] Hint Extern 2 (only _ (load_tid _ _)) => only_prim : only.
#[local] Hint Extern 2 (only _ (store_int _ _ _)) => only_prim : only.
#[local] Hint Extern 2 (only _ (store_pollfd _ _ _)) => only_prim : only.
#[local] Hint Extern 2 (only _ (store_tid _ _ _)) => only_prim : only.
#[local] Hint Extern 2 (only _ (open_fd _ _)) => only_prim : only.
#[local] Hint Extern 2 (only _ (close _)) => only_prim : only.
#[local] Hint Extern 2 (only _ (fcntl_getfl _)) => only_prim : only.
#[local] Hint Extern 2 (only _ (fcntl_setfl _ _)) => only_prim : only.
#[local] Hint Extern 2 (only _ (write_ctl _ _)) => only_prim : only.
#[local] Hint Extern 2 (only _ (sem_init _ _)) => only_prim : only.
#[local] Hint Extern 2 (only _ (sem_destroy _)) => only_prim : only.
#[local] Hint Extern 2 (only _ (pthread_create _ _)) => only_prim : only.
#[local] Hint Extern 2 (only _ (pthread_cancel _)) => only_prim : only.
#[local] Hint Extern 2 (only _ (pthread_join _)) => only_prim : only.
#[local] Hint Extern 2 (only _ (sys_read _ _ _ _)) => only_prim : only.
#[local] Hint Extern 2 (only _ (read_ctl _ _)) => only_prim : only.
#[local] Hint Extern 2 (only _ (sys_write _ _ _)) => only_prim : only.
#[local] Hint Extern 2 (only _ (emit _)) => only_prim : only.
#[local] Hint Extern 2 (only _ usage) => only_prim : only.

Ltac only_step_tac :=
  first
    [ apply only_ret
    | apply only_hang
    | apply only_undefined
    | apply only_bind; [ solve [eauto with only] | intros ? ]
    | match goal with
      | |- only _ (if ?c then _ else _) => destruct c
      | |- only _ (match ?x with _ => _ end) => destruct x
      end ].

Ltac only_tac := repeat only_step_tac; eauto with only.

Lemma setup_select_create (o : oracle) (opts : options) (fdsp : block) :
  only setup_event (SelectEngine.select_create o opts fdsp).
Proof.
  unfold SelectEngine.select_create, SelectEngine.err_pthread_join,
    SelectEngine.err_sem_destroy, SelectEngine.err_close_eventfd,
    SelectEngine.err_free_fds, SelectEngine.err_free_msgbuf, SelectEngine.err_free_se.
  only_tac.
Qed.

Lemma setup_poll_register_fds (pa fdsp : block) (n : nat) :
  ∀ i, only setup_event (PollEngine.register_fds pa fdsp i n).
Proof. induction n as [|n IH]; intros i; simpl; only_tac. Qed.

Lemma setup_poll_create (o : oracle) (opts : options) (fdsp : block) :
  only setup_event (PollEngine.poll_create o opts fdsp).
Proof.
  pose proof setup_poll_register_fds.
  unfold PollEngine.poll_create, PollEngine.err_pthread_join,
    PollEngine.err_sem_destroy, PollEngine.err_close_eventfd,
    PollEngine.err_free_pollfds, PollEngine.err_free_msgbuf, PollEngine.err_free_se.
  only_tac.
Qed.

Lemma setup_epoll_ctl_add (o : oracle) (ep fd events : Z) :
  only setup_event (EpollEngine.epoll_ctl_add o ep fd events).
Proof. unfold EpollEngine.epoll_ctl_add. only_tac. Qed.

Lemma setup_epoll_register_fds (o : oracle) (ep events : Z) (fdsp : block) (n : nat) :
  ∀ i, only setup_event (EpollEngine.register_fds o ep events fdsp i n).
Proof.
  pose proof setup_epoll_ctl_add.
  induction n as [|n IH]; intros i; simpl; only_tac.
Qed.

Lemma setup_epoll_do_create (o : oracle) (opts : options) (fdsp : block) :
  only setup_event (EpollEngine.epoll_do_create o opts fdsp).
Proof.
  pose proof setup_epoll_ctl_add. pose proof setup_epoll_register_fds.
  unfold EpollEngine.epoll_do_create, EpollEngine.err_pthread_join,
    EpollEngine.err_sem_destroy, EpollEngine.err_close_eventfd,
    EpollEngine.err_close_epfd, EpollEngine.err_free_msgbuf, EpollEngine.err_free_se.
  only_tac.
Qed.

(** [io_uring_add_poll_sqe] is called by [create] and by the worker. *)
Lemma only_io_uring_submit (P : event → bool) (o : oracle) (pending : nat) :
  P EvSubmit = true → only P (IoUringEngine.io_uring_submit o pending).
Proof. intros HP. unfold IoUringEngine.io_uring_submit. only_tac. Qed.

Lemma only_io_uring_add_poll_sqe (P : event → bool) (o : oracle) (mask fd : Z)
    (pending : nat) :
  P EvSubmit = true → (∀ fd m, P (EvPollSqe fd m) = true) →
  (∀ msg, P (EvStderr msg) = true) →
  only P (IoUringEngine.io_uring_add_poll_sqe o mask fd pending).
Proof.
  intros H1 H2 H3. pose proof (only_io_uring_submit P o) as Hs.
  unfold IoUringEngine.io_uring_add_poll_sqe. only_tac.
Qed.

Lemma setup_io_uring_register_fds (o : oracle) (mask : Z) (fdsp : block) (n : nat) :
  ∀ i p, only setup_event (IoUringEngine.register_fds o mask fdsp i n p).
Proof.
  pose proof (only_io_uring_add_poll_sqe setup_event o) as Hadd.
  induction n as [|n IH]; intros i p; simpl; only_tac.
Qed.

Lemma setup_io_uring_queue_init (o : oracle) (pe : block) :
  only setup_event (IoUringEngine.io_uring_queue_init o pe).
Proof. unfold IoUringEngine.io_uring_queue_init. only_tac. Qed.

Lemma setup_io_uring_queue_exit (pe : block) (rfd : Z) :
  only setup_event (IoUringEngine.io_uring_queue_exit pe rfd).
Proof. unfold IoUringEngine.io_uring_queue_exit. only_tac. Qed.

Lemma setup_io_uring_create (o : oracle) (opts : options) (fdsp : block) :
  only setup_event (IoUringEngine.io_uring_create o opts fdsp).
Proof.
  pose proof (only_io_uring_submit setup_event o).
  pose proof (only_io_uring_add_poll_sqe setup_event o).
  pose proof setup_io_uring_register_fds.
  pose proof setup_io_uring_queue_init. pose proof setup_io_uring_queue_exit.
  unfold IoUringEngine.io_uring_create, IoUringEngine.err_pthread_join,
    IoUringEngine.err_sem_destroy, IoUringEngine.err_close_eventfd,
    IoUringEngine.err_queue_exit, IoUringEngine.err_free_msgbuf,
    IoUringEngine.err_free_se.
  only_tac.
Qed.

Lemma setup_cancel_threads (ta : block) (i : nat) :
  only setup_event (ThreadsEngine.cancel_threads ta i).
Proof. induction i as [|i IH]; simpl; only_tac. Qed.

Lemma setup_spawn_threads (o : oracle) (ta fdsp : block) (n : nat) :
  ∀ i, only setup_event (ThreadsEngine.spawn_threads o ta fdsp i n).
Proof.
  pose proof setup_cancel_threads.
  induction n as [|n IH]; intros i; simpl; only_tac.
Qed.

Lemma setup_threads_create (o : oracle) (opts : options) (fdsp : block) :
  only setup_event (ThreadsEngine.threads_create o opts fdsp).
Proof.
  pose proof setup_spawn_threads.
  unfold ThreadsEngine.threads_create, ThreadsEngine.err_sem_destroy,
    ThreadsEngine.err_free_threads, ThreadsEngine.err_free_msgbuf,
    ThreadsEngine.err_free_se.
  only_tac.
Qed.

Lemma setup_create (b : backend) (o : oracle) (opts : options) (fdsp : block) :
  only setup_event (create (ops_of b) o opts fdsp).
Proof.
  destruct b; simpl; apply only_map_result;
    auto using setup_select_create, setup_poll_create, setup_epoll_do_create,
      setup_io_uring_create, setup_threads_create.
Qed.

Lemma setup_stop_threads (ta : block) (n : nat) :
  ∀ i, only setup_event (ThreadsEngine.stop_threads ta i n).
Proof. induction n as [|n IH]; intros i; simpl; only_tac. Qed.

Lemma setup_destroy (b : backend) (e : engine_handle) :
  only setup_event (destroy (ops_of b) e).
Proof.
  pose proof setup_stop_threads. pose proof setup_io_uring_queue_exit.
  destruct b, e; simpl; try apply only_ret.
  - unfold SelectEngine.select_destroy. only_tac.
  - unfold PollEngine.poll_destroy. only_tac.
  - unfold EpollEngine.epoll_destroy. only_tac.
  - unfold IoUringEngine.io_uring_destroy. only_tac.
  - unfold ThreadsEngine.threads_destroy. only_tac.
Qed.

Lemma setup_destroy_created (ops : backend) (es : list engine_handle) :
  only setup_event (destroy_created (ops_of ops) es).
Proof.
  pose proof setup_destroy.
  induction es as [|e es IH]; simpl; only_tac.
Qed.

Lemma setup_create_loop (os : nat → oracle) (opts : options) (fdsp arr : block) (n : nat) :
  ∀ i acc, only setup_event (create_loop os opts fdsp arr i n acc).
Proof.
  pose proof setup_create. pose proof setup_destroy_created.
  induction n as [|n IH]; intros i acc; simpl; only_tac.
Qed.

Lemma setup_create_engines (arr_ok : bool) (os : nat → oracle) (opts : options)
    (fdsp : block) :
  only setup_event (create_engines arr_ok os opts fdsp).
Proof.
  pose proof setup_create_loop.
  unfold create_engines. only_tac.
Qed.

Lemma setup_destroy_engines (arr : block) (es : list engine_handle) :
  only setup_event (destroy_engines arr es).
Proof.
  pose proof setup_destroy.
  unfold destroy_engines. apply only_bind; [|intros _; only_tac].
  induction es as [|e es IH]; simpl; only_tac.
Qed.

Lemma setup_make_pairs (g : iogen) (ok : nat → bool) (n : nat) :
  ∀ i, only setup_event (make_pairs g ok i n).
Proof.
  induction n as [|n IH]; intros i; simpl; [apply only_ret|].
  destruct (ok i); simpl; [only_tac|].
  unfold socketpair_failed. only_tac.
Qed.

Lemma setup_iogen_init (o : oracle) (pk : nat → bool) (g0 : iogen) (opts : options) :
  only setup_event (iogen_init o pk g0 opts).
Proof.
  pose proof setup_make_pairs.
  assert (∀ p, only setup_event (free_opt p)) by (intros [b|]; simpl; only_tac).
  unfold iogen_init. only_tac.
Qed.

Lemma setup_close_pairs (g : iogen) (n : nat) :
  ∀ i, only setup_event (close_pairs g i n).
Proof. induction n as [|n IH]; intros i; simpl; only_tac. Qed.

Lemma setup_iogen_cleanup (g : iogen) : only setup_event (iogen_cleanup g).
Proof. pose proof setup_close_pairs. unfold iogen_cleanup. only_tac. Qed.

Lemma stderr_parse_loop (args : list opt) :
  ∀ opts, only is_stderr (parse_loop opts args).
Proof. induction args as [|a args IH]; intros opts; simpl; only_tac. Qed.

Lemma stderr_parse_options (args : list opt) (extra : bool) :
  only is_stderr (parse_options args extra).
Proof. pose proof stderr_parse_loop. unfold parse_options. only_tac. Qed.














(** ** [main] *)

Lemma parse_loop_fail_prints (args : list opt) :
  ∀ (opts : options) (w w' : world),
    parse_loop opts args w = Ret None w' → ∃ e evs, trace w' = trace w ++ e :: evs.
Proof.
  induction args as [|a args IH]; intros opts w w'; simpl; [done|].
  destruct a; simpl;
    repeat match goal with
           | |- context [match ?x with _ => _ end] => destruct x
           | |- context [if ?x then _ else _] => destruct x
           end;
    try apply IH; unfold bind, usage, emit, ret; simpl; intros [= <-]; simpl;
    rewrite <- ?app_assoc; simpl; eauto.
Qed.

Lemma parse_options_fail_prints (args : list opt) (extra : bool) (w w' : world) :
  parse_options args extra w = Ret None w' → ∃ e evs, trace w' = trace w ++ e :: evs.
Proof.
  unfold parse_options. unfold bind at 1.
  destruct (parse_loop_only_logs args default_options w) as (r & w1 & Hrun & _).
  rewrite Hrun. destruct r as [opts|].
  - pose proof (parse_loop_run args default_options w) as Hok.
    destruct (existsb rejected args); [destruct Hok as (? & Hok); congruence|].
    assert (w1 = w) as -> by congruence.
    destruct extra; [|destruct (_ && _)];
      unfold bind, usage, emit, ret; simpl; intros [= <-]; simpl; eauto.
  - unfold ret. intros [= <-]. by apply (parse_loop_fail_prints args default_options).
Qed.

Lemma reported_app (e1 e2 : list event) : reported (e1 ++ e2) = reported e1 ++ reported e2.
Proof. apply omap_app. Qed.

Lemma reported_none (P : event → bool) (evs : list event) :
  (∀ n, P (EvStats n) = false) → forallb P evs = true → reported evs = [].
Proof.
  intros HP. induction evs as [|e evs IH]; [done|]. simpl.
  intros [He Hevs]%andb_true_iff. unfold reported in *. simpl.
  destruct e; try by apply IH. by rewrite HP in He.
Qed.

(** X17.  [main] returns [EXIT_SUCCESS] only when the options were
    accepted, and then it has printed the statistics exactly once; it
    returns [EXIT_FAILURE] only without having printed statistics, and
    the last thing it did was to print a message on [stderr].  It returns
    nothing else. *)
Theorem main_exit_status (args : list opt) (extra : bool) (env : run_env) (w : world)
    (c : Z) (w' : world) :
  main args extra env w = Ret c w' →
  (c = EXIT_SUCCESS ∧
   (∃ opts, returned (parse_options args extra w) = Some (Some opts)) ∧
   ∃ n, reported (emitted w w') = [n]) ∨
  (c = EXIT_FAILURE ∧
   reported (emitted w w') = [] ∧
   ∃ msg, last (emitted w w') = Some (EvStderr msg)).
Proof.
  unfold main. unfold bind at 1.
  destruct (stderr_parse_options args extra w) as (e1 & Ht1 & He1).
  pose proof (parse_options_fail_prints args extra w) as Hfail.
  destruct (parse_options args extra w) as [[opts|] w1|w1|w1]; [| |done..]; simpl in Ht1.
  2:{ unfold ret. intros [= <- <-]. right. split; [done|].
      rewrite (emitted_app _ _ _ Ht1).
      split; [by apply (reported_none is_stderr)|].
      destruct (Hfail w1 eq_refl) as (e & evs & Ht1').
      assert (e1 = e :: evs) as -> by (apply (app_inv_head (trace w)); congruence).
      destruct (last (e :: evs)) as [l|] eqn:Hl; [|by apply last_None in Hl].
      assert (Hin : l ∈ e :: evs) by by apply last_Some_elem_of.
      rewrite forallb_forall in He1. apply list_elem_of_In, He1 in Hin.
      destruct l; try done. by eexists. }
  unfold bind at 1.
  destruct (setup_iogen_init (init_oracle env) (pair_ok env) (stack_iogen env) opts w1)
    as (e2 & Ht2 & He2).
  destruct (iogen_init _ _ _ _ w1) as [[g err] w2|w2|w2]; [|done..]; simpl in Ht2.
  cbn [fst snd]. destruct err as [errmsg|].
  { unfold bind, emit, ret. intros [= <- <-]. right. split; [done|]. simpl.
    rewrite (emitted_app w _ ((e1 ++ e2) ++ [EvStderr errmsg]))
      by (simpl; by rewrite Ht2, Ht1, <- !app_assoc).
    rewrite !reported_app, (reported_none is_stderr e1), (reported_none setup_event e2)
      by done.
    split; [done|]. exists errmsg. by rewrite last_snoc. }
  unfold bind at 1.
  destruct (setup_create_engines (engines_array_ok env) (engine_oracle env) opts
              (engine_fds g) w2) as (e3 & Ht3 & He3).
  destruct (create_engines _ _ _ _ w2) as [[[arr es]|errmsg] w3|w3|w3]; [| |done..];
    simpl in Ht3.
  2:{ unfold bind at 1.
      destruct (setup_iogen_cleanup g w3) as (e4 & Ht4 & He4).
      destruct (iogen_cleanup g w3) as [[] w4|w4|w4]; [|done..]; simpl in Ht4.
      unfold bind, emit, ret. intros [= <- <-]. right. split; [done|]. simpl.
      rewrite (emitted_app w _ ((((e1 ++ e2) ++ e3) ++ e4) ++ [EvStderr errmsg]))
        by (simpl; by rewrite Ht4, Ht3, Ht2, Ht1, <- !app_assoc).
      rewrite !reported_app, (reported_none is_stderr e1), (reported_none setup_event e2),
        (reported_none setup_event e3), (reported_none setup_event e4) by done.
      split; [done|]. exists errmsg. by rewrite last_snoc. }
  unfold bind at 1. unfold iogen_run at 1. unfold bind at 1.
  destruct (iogen_loop_shape (rounds env) g 0 w3 _ eq_refl) as (e4 & Ht4 & He4 & _).
  destruct (iogen_loop g 0 (rounds env) w3) as [g1 w4|w4|w4]; [|done..]; simpl in Ht4.
  unfold bind at 1. unfold emit at 1. unfold ret at 1.
  unfold bind at 1.
  match goal with |- context [destroy_engines arr es ?w5] =>
    destruct (setup_destroy_engines arr es w5) as (e5 & Ht5 & He5);
    destruct (destroy_engines arr es w5) as [[] w6|w6|w6]; [|done..]; simpl in Ht5
  end.
  unfold bind at 1.
  destruct (setup_iogen_cleanup g1 w6) as (e6 & Ht6 & He6).
  destruct (iogen_cleanup g1 w6) as [[] w7|w7|w7]; [|done..]; simpl in Ht6.
  unfold ret. intros [= <- <-]. left. split; [done|]. split; [by eexists|].
  exists (num_ios g1).
  rewrite (emitted_app w _ ((((((e1 ++ e2) ++ e3) ++ e4) ++ [EvStats (num_ios g1)]) ++ e5)
                             ++ e6))
    by (simpl; by rewrite Ht6, Ht5, Ht4, Ht3, Ht2, Ht1, <- !app_assoc).
  rewrite !reported_app, (reported_none is_stderr e1), (reported_none setup_event e2),
    (reported_none setup_event e3), He4, (reported_none setup_event e5),
    (reported_none setup_event e6) by done.
  done.
Qed.

Lemma main_exit_status_witness :
  let env := RunEnv all_ok (fun _ => true) true (fun _ => all_ok) stack_garbage
               [ok_round; ok_round; stop_round] in
  let args := [OptEngine "epoll"; OptNumFds 2] in
  let w' := final_world (main args false env empty_world) in
  main args false env empty_world = Ret EXIT_SUCCESS w' ∧
  ((EXIT_SUCCESS = EXIT_SUCCESS ∧
    (∃ opts, returned (parse_options args false empty_world) = Some (Some opts)) ∧
    ∃ n, reported (emitted empty_world w') = [n]) ∨
   (EXIT_SUCCESS = EXIT_FAILURE ∧
    reported (emitted empty_world w') = [] ∧
    ∃ msg, last (emitted empty_world w') = Some (EvStderr msg))).
Proof.
  split; [vm_compute; reflexivity|].
  apply (main_exit_status [OptEngine "epoll"; OptNumFds 2] false
           (RunEnv all_ok (fun _ => true) true (fun _ => all_ok) stack_garbage
              [ok_round; ok_round; stop_round]) empty_world).
  vm_compute. reflexivity.
Defined.

(** ** The [nfds] argument of [select] *)

Lemma nfds_fold (xs : list Z) :
  ∀ a, let m := foldl (fun nfds fd => if nfds <? fd + 1 then fd + 1 else nfds) a xs in
       a ≤ m ∧ (∀ fd, fd ∈ xs → fd < m) ∧ (m = a ∨ ∃ fd, fd ∈ xs ∧ m = fd + 1).
Proof.
  induction xs as [|x xs IH]; intros a; simpl.
  { split; [lia|]. split; [|by left]. intros fd Hin. by apply elem_of_nil in Hin. }
  destruct (IH (if a <? x + 1 then x + 1 else a)) as (Hle & Hall & Hmax).
  destruct (a <? x + 1) eqn:Hlt; [apply Z.ltb_lt in Hlt|apply Z.ltb_ge in Hlt].
  - split; [lia|]. split.
    + intros fd [->|Hin]%elem_of_cons; [lia|by apply Hall].
    + right. destruct Hmax as [->|(fd & Hin & ->)].
      * exists x. split; [by apply elem_of_cons; left|done].
      * exists fd. split; [by apply elem_of_cons; right|done].
  - split; [lia|]. split.
    + intros fd [->|Hin]%elem_of_cons; [lia|by apply Hall].
    + destruct Hmax as [->|(fd & Hin & ->)]; [by left|].
      right. exists fd. split; [by apply elem_of_cons; right|done].
Qed.

Lemma waits_select_scan (nfds : Z) (se : SelectEngine.select_engine) (wk : wakeup) (n : nat) :
  ∀ i r, only (waits_with nfds) (SelectEngine.select_scan se wk i n r).
Proof. induction n as [|n IH]; intros i r; simpl; only_tac. Qed.

Lemma waits_select_loop (nfds : Z) (se : SelectEngine.select_engine) (wks : list wakeup) :
  only (waits_with nfds) (SelectEngine.select_loop se nfds wks).
Proof.
  pose proof (waits_select_scan nfds).
  assert (Hself : waits_with nfds (EvWait nfds) = true) by apply Z.eqb_refl.
  induction wks as [|wk wks IH]; simpl; only_tac.
Qed.

(** X18.  The worker of the [select] engine computes [nfds] once, before
    it posts the start-up semaphore, and passes that value to every call
    of [select].  It is greater than every descriptor of the instance's
    array, the control descriptor included, and it is the least such
    value: 0 for an empty array, otherwise the largest descriptor plus
    one. *)
Theorem select_nfds_exceeds_every_descriptor (se : SelectEngine.select_engine)
    (wks : list wakeup) (w : world) :
  let watched := take (Z.to_nat (SelectEngine.se_num_fds se))
                   (ints_of (heap w !! SelectEngine.fds se)) in
  ∃ nfds rest,
    emitted w (final_world (SelectEngine.select_thread se wks w))
    = EvSemPost :: EvWait nfds :: rest ∧
    forallb (waits_with nfds) rest = true ∧
    (∀ fd, fd ∈ watched → fd < nfds) ∧
    (nfds = 0 ∨ ∃ fd, fd ∈ watched ∧ nfds = fd + 1).
Proof.
  intros watched. unfold SelectEngine.select_thread.
  unfold bind at 1. unfold load_ints at 1. fold watched.
  set (nfds := foldl _ 0 watched).
  destruct (nfds_fold watched 0) as (_ & Hall & Hmax). fold nfds in Hall, Hmax.
  unfold bind at 1. unfold emit at 1.
  destruct (waits_select_loop nfds se wks (log EvSemPost w)) as (evs & Htr & Hevs).
  simpl in Htr.
  assert (Hfirst : ∃ rest, evs = EvWait nfds :: rest).
  { destruct wks as [|wk wks]; simpl in Htr.
    - exists []. apply (app_inv_head (trace w ++ [EvSemPost])). by rewrite <- Htr.
    - unfold bind at 1 in Htr. unfold emit at 1 in Htr.
      match type of Htr with
      | trace (final_world (?m ?w1)) = _ =>
          assert (Hext : ∃ rest, trace (final_world (m w1)) = trace w1 ++ rest)
      end.
      { pose proof (waits_select_scan nfds se wk) as Hscan.
        pose proof (waits_select_loop nfds se wks) as Hloop.
        match goal with |- ∃ rest, trace (final_world (?m ?w1)) = _ =>
          assert (Hm : only (waits_with nfds) m) by only_tac;
          destruct (Hm w1) as (rest & Hrest & _) end.
        by exists rest. }
      destruct Hext as (rest & Hrest). exists rest.
      apply (app_inv_head (trace w ++ [EvSemPost])).
      rewrite <- Htr, Hrest. simpl. by rewrite <- app_assoc. }
  destruct Hfirst as (rest & ->).
  exists nfds, rest. split_and!; try done.
  - apply emitted_app. by rewrite Htr, <- app_assoc.
  - simpl in Hevs. by apply andb_true_iff in Hevs as [_ ?].
Qed.

(** * C3, continued: creator and workers interleaved *)

Lemma spawned_app (e1 e2 : list event) : spawned (e1 ++ e2) = (spawned e1 + spawned e2)%nat.
Proof. unfold spawned. by rewrite List.filter_app, length_app. Qed.

Lemma taken_app (e1 e2 : list event) : taken (e1 ++ e2) = (taken e1 + taken e2)%nat.
Proof. unfold taken. by rewrite List.filter_app, length_app. Qed.

Lemma no_handshake_counts (evs : list event) :
  forallb no_handshake evs = true → spawned evs = 0%nat ∧ taken evs = 0%nat.
Proof.
  induction evs as [|e evs IH]; [done|]. simpl.
  intros [He Hevs]%andb_prop. destruct (IH Hevs) as [Hs Ht].
  unfold spawned, taken in *. simpl. by destruct e.
Qed.

Lemma settles_ret {A} (good : A → bool) (x : A) : settles good 0 0 (ret x).
Proof.
  intros w y w' [= <- <-] _. exists []. by rewrite app_nil_r.
Qed.

Lemma settles_fail {A} (good : A → bool) (a b : nat) (x : A) :
  good x = false → settles good a b (ret x).
Proof. intros Hx w y w' [= <- <-] Hy. congruence. Qed.

Lemma settles_bind {A B} (good : B → bool) (a b : nat) (m : M A) (k : A → M B) :
  only no_handshake m → (∀ x, settles good a b (k x)) → settles good a b (bind m k).
Proof.
  intros Hm Hk w y w' Hrun Hy. unfold bind in Hrun.
  destruct (Hm w) as (e1 & He1 & Hcalm).
  destruct (m w) as [x w1|w1|w1]; try discriminate Hrun. simpl in He1.
  destruct (Hk x w1 y w' Hrun Hy) as (e2 & He2 & Hs & Ht).
  destruct (no_handshake_counts e1 Hcalm) as [Hs1 Ht1].
  exists (e1 ++ e2). rewrite He2, He1, <- app_assoc, spawned_app, taken_app.
    split; [done|lia].
Qed.

Lemma settles_spawn {B} (good : B → bool) (a b : nat) (ok : bool) (ctl : option Z)
    (k : option tid → M B) :
  (∀ t, settles good a b (k (Some t))) → settles good (S a) b (k None) →
  settles good (S a) b (bind (pthread_create ok ctl) k).
Proof.
  intros Hsome Hnone w y w' Hrun Hy. unfold bind, pthread_create in Hrun.
  destruct ok.
  - destruct (Hsome _ _ y w' Hrun Hy) as (evs & Hevs & Hs & Ht).
    eexists (EvSpawn _ :: evs). simpl in Hevs. rewrite Hevs, <- app_assoc.
    split; [done|]. unfold spawned, taken in *. simpl. lia.
  - exact (Hnone w y w' Hrun Hy).
Qed.

Lemma sem_wait_loop_taken (rs : list (Z * Z)) :
  ∀ (w : world) (r : Z) (w' : world),
    sem_wait_loop rs w = Ret r w' →
    ∃ evs, trace w' = trace w ++ evs ∧ spawned evs = 0%nat ∧
           taken evs = if r <? 0 then 0%nat else 1%nat.
Proof.
  induction rs as [|[r0 e0] rs IH]; intros w r w' Hrun; simpl in Hrun; [done|].
  unfold bind at 1 in Hrun. unfold emit at 1 in Hrun.
  destruct ((r0 =? -1) && (e0 =? EINTR)) eqn:Hagain.
  - destruct (IH _ _ _ Hrun) as (evs & Hevs & Hs & Ht).
    exists (EvSemWait r0 e0 :: evs). simpl in Hevs. rewrite Hevs, <- app_assoc.
    split; [done|]. apply andb_prop in Hagain as [->%Z.eqb_eq _].
    unfold spawned, taken in *. simpl. by rewrite Hs, Ht.
  - injection Hrun as <- <-. exists [EvSemWait r0 e0]. split; [done|].
    unfold spawned, taken. simpl. by destruct (r0 <? 0).
Qed.

Lemma settles_wait {B} (good : B → bool) (a b : nat) (rs : list (Z * Z)) (k : Z → M B) :
  (∀ r, (r <? 0) = false → settles good a b (k r)) →
  (∀ r, (r <? 0) = true → settles good a (S b) (k r)) →
  settles good a (S b) (bind (sem_wait_loop rs) k).
Proof.
  intros Hok Hfail w y w' Hrun Hy. unfold bind in Hrun.
  destruct (sem_wait_loop rs w) as [r w1|w1|w1] eqn:Hwait; try discriminate Hrun.
  destruct (sem_wait_loop_taken rs w r w1 Hwait) as (e1 & He1 & Hs1 & Ht1).
  destruct (r <? 0) eqn:Hr.
  - destruct (Hfail r Hr w1 y w' Hrun Hy) as (e2 & He2 & Hs & Ht).
    exists (e1 ++ e2). rewrite He2, He1, <- app_assoc, spawned_app, taken_app.
    split; [done|lia].
  - destruct (Hok r Hr w1 y w' Hrun Hy) as (e2 & He2 & Hs & Ht).
    exists (e1 ++ e2). rewrite He2, He1, <- app_assoc, spawned_app, taken_app.
    split; [done|lia].
Qed.

Lemma settles_map_result {A B} (f : A → B) (a b : nat) (m : M (create_result A)) :
  settles is_created a b m → settles is_created a b (map_result f m).
Proof.
  intros Hm w y w' Hrun Hy. unfold map_result, bind, ret in Hrun.
  destruct (m w) as [x w1|w1|w1] eqn:Hmw; try discriminate Hrun.
  injection Hrun as <- <-. apply (Hm w x w1 Hmw). by destruct x.
Qed.

Ltac settle_step :=
  first
    [ apply settles_ret
    | apply settles_fail; reflexivity
    | apply settles_spawn; [ intros ? | ]
    | apply settles_wait; intros ? ?;
      match goal with H : (?r <? 0) = _ |- _ => rewrite H end
    | apply settles_bind; [ solve [only_tac] | intros ? ]
    | match goal with
      | |- settles _ _ _ (if ?c then _ else _) => destruct c
      | |- settles _ _ _ (match ?x with _ => _ end) => destruct x
      end ].

Ltac settle := repeat settle_step.

Lemma calm_store_ints (p : block) (vs : list Z) :
  ∀ off, only no_handshake (store_ints p off vs).
Proof. induction vs as [|v vs IH]; intros off; simpl; only_tac. Qed.

Lemma select_create_handshake (o : oracle) (opts : options) (fdsp : block) :
  settles is_created 1 1 (SelectEngine.select_create o opts fdsp).
Proof.
  pose proof calm_store_ints.
  unfold SelectEngine.select_create, SelectEngine.err_pthread_join,
    SelectEngine.err_sem_destroy, SelectEngine.err_close_eventfd,
    SelectEngine.err_free_fds, SelectEngine.err_free_msgbuf, SelectEngine.err_free_se.
  settle.
Qed.

Lemma calm_poll_register_fds (pa fdsp : block) (n : nat) :
  ∀ i, only no_handshake (PollEngine.register_fds pa fdsp i n).
Proof. induction n as [|n IH]; intros i; simpl; only_tac. Qed.

Lemma poll_create_handshake (o : oracle) (opts : options) (fdsp : block) :
  settles is_created 1 1 (PollEngine.poll_create o opts fdsp).
Proof.
  pose proof calm_poll_register_fds.
  unfold PollEngine.poll_create, PollEngine.err_pthread_join,
    PollEngine.err_sem_destroy, PollEngine.err_close_eventfd,
    PollEngine.err_free_pollfds, PollEngine.err_free_msgbuf, PollEngine.err_free_se.
  settle.
Qed.

Lemma calm_epoll_ctl_add (o : oracle) (ep fd events : Z) :
  only no_handshake (EpollEngine.epoll_ctl_add o ep fd events).
Proof. unfold EpollEngine.epoll_ctl_add. only_tac. Qed.

Lemma calm_epoll_register_fds (o : oracle) (ep events : Z) (fdsp : block) (n : nat) :
  ∀ i, only no_handshake (EpollEngine.register_fds o ep events fdsp i n).
Proof.
  pose proof calm_epoll_ctl_add.
  induction n as [|n IH]; intros i; simpl; only_tac.
Qed.

Lemma epoll_create_handshake (o : oracle) (opts : options) (fdsp : block) :
  settles is_created 1 1 (EpollEngine.epoll_do_create o opts fdsp).
Proof.
  pose proof calm_epoll_ctl_add. pose proof calm_epoll_register_fds.
  unfold EpollEngine.epoll_do_create, EpollEngine.err_pthread_join,
    EpollEngine.err_sem_destroy, EpollEngine.err_close_eventfd,
    EpollEngine.err_close_epfd, EpollEngine.err_free_msgbuf, EpollEngine.err_free_se.
  settle.
Qed.

Lemma calm_io_uring_register_fds (o : oracle) (mask : Z) (fdsp : block) (n : nat) :
  ∀ i p, only no_handshake (IoUringEngine.register_fds o mask fdsp i n p).
Proof.
  pose proof (only_io_uring_add_poll_sqe no_handshake o) as Hadd.
  induction n as [|n IH]; intros i p; simpl; only_tac.
Qed.

Lemma calm_io_uring_queue_init (o : oracle) (pe : block) :
  only no_handshake (IoUringEngine.io_uring_queue_init o pe).
Proof. unfold IoUringEngine.io_uring_queue_init. only_tac. Qed.

Lemma calm_io_uring_queue_exit (pe : block) (rfd : Z) :
  only no_handshake (IoUringEngine.io_uring_queue_exit pe rfd).
Proof. unfold IoUringEngine.io_uring_queue_exit. only_tac. Qed.

Lemma io_uring_create_handshake (o : oracle) (opts : options) (fdsp : block) :
  settles is_created 1 1 (IoUringEngine.io_uring_create o opts fdsp).
Proof.
  pose proof (only_io_uring_submit no_handshake o).
  pose proof (only_io_uring_add_poll_sqe no_handshake o).
  pose proof calm_io_uring_register_fds.
  pose proof calm_io_uring_queue_init. pose proof calm_io_uring_queue_exit.
  unfold IoUringEngine.io_uring_create, IoUringEngine.err_pthread_join,
    IoUringEngine.err_sem_destroy, IoUringEngine.err_close_eventfd,
    IoUringEngine.err_queue_exit, IoUringEngine.err_free_msgbuf,
    IoUringEngine.err_free_se.
  settle.
Qed.

Lemma calm_cancel_threads (ta : block) (i : nat) :
  only no_handshake (ThreadsEngine.cancel_threads ta i).
Proof. induction i as [|i IH]; simpl; only_tac. Qed.

(** The spawn loop: one [pthread_create] and one successful [sem_wait]
    per iteration. *)
Lemma spawn_threads_handshake (o : oracle) (ta fdsp : block) (n : nat) :
  ∀ i, settles no_error n n (ThreadsEngine.spawn_threads o ta fdsp i n).
Proof.
  pose proof calm_cancel_threads.
  induction n as [|n IH]; intros i; simpl; [apply settles_ret|].
  do 3 (apply settles_bind; [solve [only_tac]|intros ?]).
  apply settles_spawn; [intros t|settle].
  apply settles_bind; [solve [only_tac]|intros _].
  apply settles_wait; intros r Hr; rewrite Hr; [apply IH|settle].
Qed.

Lemma threads_create_handshake (o : oracle) (opts : options) (fdsp : block) :
  settles is_created (Z.to_nat (num_fds opts)) (Z.to_nat (num_fds opts))
    (ThreadsEngine.threads_create o opts fdsp).
Proof.
  unfold ThreadsEngine.threads_create, ThreadsEngine.err_sem_destroy,
    ThreadsEngine.err_free_threads, ThreadsEngine.err_free_msgbuf,
    ThreadsEngine.err_free_se.
  do 3 (apply settles_bind; [solve [only_tac]|intros [?|]]; [|solve [settle]]).
  apply settles_bind; [solve [only_tac]|intros r].
  destruct (r <? 0); [solve [settle]|].
  intros w y w' Hrun Hy. unfold bind at 1 in Hrun.
  destruct (ThreadsEngine.spawn_threads _ _ _ _ _ w) as [[err|] w1|w1|w1] eqn:Hsp;
    try discriminate Hrun.
  - unfold bind, sem_destroy, emit, free, ret in Hrun. injection Hrun as <- _.
    discriminate Hy.
  - injection Hrun as <- <-.
    exact (spawn_threads_handshake o _ fdsp _ 0 w None w1 Hsp eq_refl).
Qed.

(** Every backend: a [create] that returns a handle has started its
    workers and has, for each of them, come back from [sem_wait] with a
    result it takes for success. *)
Lemma create_handshake (b : backend) (o : oracle) (opts : options) (fdsp : block) :
  settles is_created (workers b opts) (workers b opts) (create (ops_of b) o opts fdsp).
Proof.
  destruct b; simpl; apply settles_map_result;
    auto using select_create_handshake, poll_create_handshake, epoll_create_handshake,
      io_uring_create_handshake, threads_create_handshake.
Qed.

Lemma worker_run_posts_first (b : backend) (prog : list event) :
  worker_run b prog → posts_once_first prog = true.
Proof.
  destruct workers_post_once_first as (Hs & Hp & He & Hu & Ht).
  destruct b; simpl.
  - intros (se & wks & w & ->). apply Hs.
  - intros (pe & wks & w & ->). apply Hp.
  - intros (pe & wks & w & ->). apply He.
  - intros (o & pe & wks & w & ->). apply Hu.
  - intros (te & fd & reads & w & ->). apply Ht.
Qed.

Lemma started_app (l1 l2 : list nat) : started (l1 ++ l2) = (started l1 + started l2)%nat.
Proof. unfold started. by rewrite List.filter_app, length_app. Qed.

Lemma started_insert (l : list nat) :
  ∀ j k, l !! j = Some k →
         started (<[j := S k]> l) = (started l + if k is O then 1 else 0)%nat.
Proof.
  induction l as [|x l IH]; intros j k Hj; [done|].
  destruct j as [|j]; simpl in *.
  - injection Hj as ->. unfold started. simpl. destruct k; simpl; lia.
  - specialize (IH j k Hj). unfold started in *. simpl.
    destruct (0 <? x)%nat; simpl; lia.
Qed.

Lemma started_all (l : list nat) :
  (started l ≤ length l)%nat ∧
  (started l = length l → ∀ j k, l !! j = Some k → (1 ≤ k)%nat).
Proof.
  induction l as [|x l [IHle IHall]]; [split; [done|]; by intros _ j k|].
  unfold started in *. simpl.
  destruct (0 <? x)%nat eqn:Hx; simpl.
  - split; [lia|]. intros Hlen [|j] k Hj; simpl in Hj.
    + injection Hj as ->. apply Nat.ltb_lt in Hx. lia.
    + apply (IHall ltac:(lia) j k Hj).
  - split; lia.
Qed.

Module HandshakeFacts.

Import Handshake.

Section Invariant.

Variable cprog : list event.
Variable progs : list (list event).

Hypothesis progs_post : Forall (fun p => posts_once_first p = true) progs.

Lemma first_event_posts (j : nat) (prog : list event) (e : event) :
  progs !! j = Some prog → prog !! 0%nat = Some e → e = EvSemPost.
Proof.
  intros Hj He. pose proof (Forall_lookup_1 _ _ _ _ progs_post Hj) as Hp.
  destruct prog as [|[] rest]; simpl in *; try discriminate. congruence.
Qed.

Lemma later_events_do_not_post (j k : nat) (prog : list event) (e : event) (n : nat) :
  progs !! j = Some prog → prog !! S k = Some e → sem_after e n = n.
Proof.
  intros Hj He. pose proof (Forall_lookup_1 _ _ _ _ progs_post Hj) as Hp.
  destruct prog as [|[] rest]; simpl in *; try discriminate.
  rewrite forallb_forall in Hp.
  assert (Hin : In e rest) by (apply list_elem_of_In, list_elem_of_lookup; eauto).
  specialize (Hp e Hin). by destruct e.
Qed.

Lemma handshake_inv_step (s s' : state) :
  handshake_inv cprog progs s → step cprog progs s s' → handshake_inv cprog progs s'.
Proof.
  intros (Hle & Hlen & Hsem & Hprog) Hstep.
  destruct Hstep as [s s' Hc|j s s' Hw].
  - unfold creator_step in Hc.
    destruct (cprog !! cpc s) as [e|] eqn:He; [|done].
    pose proof (lookup_lt_Some _ _ _ He) as Hlt.
    pose proof (take_S_r _ _ _ He) as Htake.
    assert (Hkeep : is_spawn e = false → is_taken e = false →
                    handshake_inv cprog progs (State (S (cpc s)) (sem s) (pcs s))).
    { intros Hsp Htk. unfold handshake_inv. simpl.
      rewrite Htake, spawned_app, taken_app. unfold spawned at 2, taken at 2. simpl.
      rewrite Hsp, Htk. simpl. rewrite !Nat.add_0_r. done. }
    destruct e; simpl in Hc; try (injection Hc as <-; by apply Hkeep).
    + match type of He with
      | _ = Some (EvSemWait ?r _) =>
          destruct (r =? 0) eqn:Hret;
            [ apply Z.eqb_eq in Hret; rewrite Hret in *
            | destruct (r =? -1) eqn:Hneg;
                [ apply Z.eqb_eq in Hneg; rewrite Hneg in * | done ] ]
      end.
      * destruct (sem s) as [|n] eqn:Hs; [done|]. injection Hc as <-.
        unfold handshake_inv. simpl.
        rewrite Htake, spawned_app, taken_app. unfold spawned at 2, taken at 2. simpl.
        split; [lia|]. split; [lia|]. split; [lia|done].
      * injection Hc as <-. by apply Hkeep.
    + injection Hc as <-. unfold handshake_inv. simpl.
      rewrite Htake, spawned_app, taken_app, started_app, length_app.
      unfold spawned at 2, taken at 2, started at 2. simpl.
      split; [lia|]. split; [lia|]. split; [lia|].
      intros j k Hj. destruct (decide (j < length (pcs s))%nat).
      * rewrite lookup_app_l in Hj by done. eauto.
      * rewrite lookup_app_r in Hj by lia.
        destruct (j - length (pcs s))%nat; simpl in Hj; done.
  - unfold worker_step in Hw.
    destruct (pcs s !! j) as [k|] eqn:Hk; [|done].
    destruct (progs !! j) as [prog|] eqn:Hj; [|done].
    destruct (prog !! k) as [e|] eqn:He; [|done].
    injection Hw as <-. unfold handshake_inv. simpl.
    rewrite length_insert, (started_insert _ j k Hk).
    split; [done|]. split; [done|]. split.
    + destruct k as [|k].
      * rewrite (first_event_posts j prog e Hj He). simpl. lia.
      * rewrite (later_events_do_not_post j k prog e _ Hj He). lia.
    + intros j' k' Hlk. destruct (decide (j = j')) as [<-|Hne]; [by rewrite Hj|].
      rewrite list_lookup_insert_ne in Hlk by done. eauto.
Qed.

Lemma handshake_inv_reachable (s : state) :
  reachable cprog progs s → handshake_inv cprog progs s.
Proof.
  induction 1 as [|s s' _ IH Hstep].
  - unfold handshake_inv. simpl. rewrite take_0. repeat split; try done. lia.
  - by eapply handshake_inv_step.
Qed.

Lemma run_reachable (sched : list (option nat)) :
  ∀ s s', reachable cprog progs s → run cprog progs sched s = Some s' →
          reachable cprog progs s'.
Proof.
  induction sched as [|who sched IH]; intros s s' Hs Hrun; simpl in Hrun.
  { by injection Hrun as <-. }
  destruct who as [j|].
  - destruct (worker_step progs j s) as [s1|] eqn:Hstep; [|done].
    apply (IH s1); [|done]. eapply reachable_step; [exact Hs|by eapply step_worker].
  - destruct (creator_step cprog s) as [s1|] eqn:Hstep; [|done].
    apply (IH s1); [|done]. eapply reachable_step; [exact Hs|by eapply step_creator].
Qed.

End Invariant.

End HandshakeFacts.

(** C3, as the code has it.  Take any backend and any run of its
    [create] that returns a handle, and let the creating thread execute
    the events of that run while each worker it spawns executes the events
    of a run of the backend's thread function, in any interleaving in
    which [sem_wait] returns 0 only by taking a post.  Every worker posts
    the start-up semaphore as the first thing it does, before the first
    call of its wait primitive, and when [create] has returned all its
    workers have been started, every one of them has posted, and [create]
    has taken every post.  Whether a worker has already entered its wait
    primitive is not determined. *)
Theorem create_returns_after_every_post (b : backend) (o : oracle) (opts : options)
    (fdsp : block) (w : world) (e : engine_handle) (w1 : world)
    (progs : list (list event)) (s : Handshake.state) :
  create (ops_of b) o opts fdsp w = Ret (Created e) w1 →
  Forall (worker_run b) progs →
  Handshake.reachable (emitted w w1) progs s →
  Handshake.create_returned (emitted w w1) s →
  Forall (fun prog => posts_once_first prog = true) progs ∧
  length (Handshake.pcs s) = workers b opts ∧
  Handshake.sem s = 0%nat ∧
  ∀ j, (j < workers b opts)%nat → Handshake.posted progs s j.
Proof.
  intros Hcreate Hprogs Hreach Hret.
  assert (Hpost : Forall (fun prog => posts_once_first prog = true) progs).
  { eapply Forall_impl; [exact Hprogs|]. apply worker_run_posts_first. }
  destruct (create_handshake b o opts fdsp w (Created e) w1 Hcreate eq_refl)
    as (evs & Hevs & Hspawned & Htaken).
  rewrite (emitted_app w w1 evs Hevs) in *.
  destruct (HandshakeFacts.handshake_inv_reachable evs progs Hpost s Hreach)
    as (_ & Hlen & Hsem & Hprog).
  unfold Handshake.create_returned in Hret.
  rewrite Hret, firstn_all in Hlen, Hsem. rewrite Hspawned in Hlen. rewrite Htaken in Hsem.
  destruct (started_all (Handshake.pcs s)) as [Hle Hall].
  split; [exact Hpost|]. split; [exact Hlen|]. split; [lia|].
  intros j Hj.
  destruct (lookup_lt_is_Some_2 (Handshake.pcs s) j) as [k Hk]; [lia|].
  pose proof (Hall ltac:(lia) j k Hk) as Hk1.
  destruct k as [|k]; [lia|].
  destruct (Hprog j k Hk) as [prog Hj'].
  exists (S k), prog, 0%nat. split; [done|]. split; [done|]. split; [lia|].
  pose proof (Forall_lookup_1 _ _ _ _ Hpost Hj') as Hp.
  by destruct prog as [|[] rest].
Qed.

Lemma idle_select_worker_program : idle_select_worker = [EvSemPost; EvWait 6].
Proof. vm_compute. reflexivity. Qed.

Lemma idle_select_worker_run : worker_run Select idle_select_worker.
Proof. by exists se0, [], (final_world select_created). Qed.

Lemma create_returns_after_every_post_witness :
  Handshake.run (emitted w0 (final_world (create (ops_of Select) all_ok
                                            (opts0 Select false) 7%nat w0)))
    [idle_select_worker] create_then_post Handshake.initial
  = Some (Handshake.State 7 0 [1%nat]) ∧
  Handshake.posted [idle_select_worker] (Handshake.State 7 0 [1%nat]) 0.
Proof.
  split; [vm_compute; reflexivity|].
  apply (create_returns_after_every_post Select all_ok (opts0 Select false) 7%nat w0
           (HSelect se0)
           (final_world (create (ops_of Select) all_ok (opts0 Select false) 7%nat w0))
           [idle_select_worker] (Handshake.State 7 0 [1%nat])).
  - vm_compute. reflexivity.
  - repeat constructor. exact idle_select_worker_run.
  - apply (HandshakeFacts.run_reachable _ _ create_then_post Handshake.initial);
      [constructor|vm_compute; reflexivity].
  - vm_compute. reflexivity.
  - simpl. lia.
Defined.

(** C3 as stated fails: the worker posts before it calls its wait
    primitive, so there is an interleaving in which [select_create] has
    returned while the worker has executed its [sem_post] only and has not
    yet entered [select]. *)
Lemma create_returns_before_worker_waits :
  idle_select_worker = [EvSemPost; EvWait 6] ∧
  ∃ e w1 s,
    create (ops_of Select) all_ok (opts0 Select false) 7%nat w0 = Ret (Created e) w1 ∧
    worker_run Select idle_select_worker ∧
    Handshake.reachable (emitted w0 w1) [idle_select_worker] s ∧
    Handshake.create_returned (emitted w0 w1) s ∧
    Handshake.pcs s = [1%nat] ∧
    ¬ Handshake.in_wait [idle_select_worker] s 0.
Proof.
  split; [apply idle_select_worker_program|].
  exists (HSelect se0),
    (final_world (create (ops_of Select) all_ok (opts0 Select false) 7%nat w0)),
    (Handshake.State 7 0 [1%nat]).
  split; [vm_compute; reflexivity|]. split; [exact idle_select_worker_run|].
  split.
  { apply (HandshakeFacts.run_reachable _ _ create_then_post Handshake.initial);
      [constructor|vm_compute; reflexivity]. }
  split; [vm_compute; reflexivity|]. split; [reflexivity|].
  intros (k & prog & n & Hk & Hprog & He). simpl in Hk, Hprog.
  injection Hk as <-. injection Hprog as <-.
  rewrite idle_select_worker_program in He. discriminate He.
Qed.
